(** * Guideflow: session orchestration core

    A shallow embedding of the server orchestrator's three services

      - [SessionManager]      (services/SessionManager.ts)
      - [ChunkManager]        (services/ChunkManager.ts)
      - [ProcessingPipeline]  (services/ProcessingPipeline.ts, with the
                               gateways of DeepgramService.ts and
                               PythonClient.ts, and the DELETE handler of
                               routes/session.ts)

    together with the properties of the written specification that concern
    them.  Every asynchronous method is embedded as a function on an
    explicit world (the files it touches, the in-memory maps it owns, the
    events it emits); an [await]ed call is one step of that function,
    except where the properties turn on what another caller does
    meanwhile: there [updateSession] is taken in the two steps it awaits,
    its read and its write. *)

From stdpp Require Import base option list strings gmap sorting pretty.
From Stdlib Require Import ZArith Lia.

Set Default Proof Using "Type".

(** ** Values shared by the services *)

(** The fields typed [any] in the TypeScript interfaces hold JSON data. *)
#[local] Unset Elimination Schemes.
Inductive json : Type :=
| JNull
| JBool (b : bool)
| JNum (n : Z)
| JStr (s : string)
| JArr (xs : list json)
| JObj (fields : list (string * json)).
#[local] Set Elimination Schemes.

(** What a rejected promise carries: an [Error] built by the code itself,
    or a failure of the file system / transport underneath. *)
Inductive Exn : Type :=
| Error (message : string)
| IOError (code : string).

Inductive Outcome (A : Type) : Type :=
| Returned (a : A)
| Threw (e : Exn).
Arguments Returned {A} a.
Arguments Threw {A} e.

(** [path.join(a, b)] on already normalised segments. *)
Definition path_join (a b : string) : string := a +:+ "/" +:+ b.

(** [Array.prototype.sort(cmp)]: a stable sort; [cmp a b > 0] places [a]
    after [b].  Stability is obtained by inserting each element in front of
    the elements that followed it in the input and do not have to precede
    it. *)
Section Sort.
Context {A : Type} (cmp : A → A → Z).

Fixpoint sort_insert (x : A) (l : list A) : list A :=
  match l with
  | [] => [x]
  | y :: ys => if (0 <? cmp x y)%Z then y :: sort_insert x ys else x :: l
  end.

Definition array_sort (l : list A) : list A := foldr sort_insert [] l.
End Sort.

(** A JavaScript object used as a dictionary: own string keys in insertion
    order (the order [Object.values] reports).  Keys are session ids, which
    the start route builds as [session_<time>_<uuid>]: none is an array
    index, and none names a member inherited from [Object.prototype].
    [obj_get] looks among the own keys; what [o[k]] finds for a key that
    names an inherited member is the subject of the module [Inherited]
    below. *)
Section Obj.
Context {V : Type}.

Fixpoint obj_get (k : string) (o : list (string * V)) : option V :=
  match o with
  | [] => None
  | (k', v) :: o' => if decide (k = k') then Some v else obj_get k o'
  end.

(** [o[k] = v]: an existing key keeps its place, a new key goes last. *)
Fixpoint obj_set (k : string) (v : V) (o : list (string * V)) : list (string * V) :=
  match o with
  | [] => [(k, v)]
  | (k', v') :: o' =>
      if decide (k = k') then (k, v) :: o' else (k', v') :: obj_set k v o'
  end.

(** [delete o[k]] *)
Fixpoint obj_delete (k : string) (o : list (string * V)) : list (string * V) :=
  match o with
  | [] => []
  | (k', v') :: o' =>
      if decide (k = k') then obj_delete k o' else (k', v') :: obj_delete k o'
  end.

Definition obj_values (o : list (string * V)) : list V := o.*2.
End Obj.

(** ** Session Store: services/SessionManager.ts *)

Module SessionManager.

Record Viewport : Type := { width : Z; height : Z }.

(** [interface SessionData].  Optional members are [option]s.  [events] is
    declared mandatory, but every reader guards it with [|| []], so a
    record parsed from the file may lack it.  [error] is the member the
    pipeline writes through its index signature. *)
Record SessionData : Type := {
  sessionId : string;
  url : string;
  viewport : Viewport;
  startTime : Z;
  endTime : option Z;
  events : option (list json);
  videoPath : option string;
  audioPath : option string;
  status : string;
  title : option string;
  description : option string;
  transcription : option json;
  refinedScript : option json;
  synthesizedAudioPath : option string;
  processedAt : option string;
  error : option string }.

(** [Partial<SessionData>]: an object literal naming some of the members. *)
Record SessionUpdates : Type := {
  u_sessionId : option string;
  u_url : option string;
  u_viewport : option Viewport;
  u_startTime : option Z;
  u_endTime : option Z;
  u_events : option (list json);
  u_videoPath : option string;
  u_audioPath : option string;
  u_status : option string;
  u_title : option string;
  u_description : option string;
  u_transcription : option json;
  u_refinedScript : option json;
  u_synthesizedAudioPath : option string;
  u_processedAt : option string;
  u_error : option string }.

(** [{}] *)
Definition noUpdates : SessionUpdates :=
  Build_SessionUpdates None None None None None None None None
                       None None None None None None None None.

(** Overriding an optional member: the later spread wins when it names it. *)
Definition over {A : Type} (new old : option A) : option A :=
  match new with Some v => Some v | None => old end.

(** [{ ...session, ...updates }] *)
Definition spread (session : SessionData) (updates : SessionUpdates) : SessionData :=
  {| sessionId := default (sessionId session) (u_sessionId updates);
     url := default (url session) (u_url updates);
     viewport := default (viewport session) (u_viewport updates);
     startTime := default (startTime session) (u_startTime updates);
     endTime := over (u_endTime updates) (endTime session);
     events := over (u_events updates) (events session);
     videoPath := over (u_videoPath updates) (videoPath session);
     audioPath := over (u_audioPath updates) (audioPath session);
     status := default (status session) (u_status updates);
     title := over (u_title updates) (title session);
     description := over (u_description updates) (description session);
     transcription := over (u_transcription updates) (transcription session);
     refinedScript := over (u_refinedScript updates) (refinedScript session);
     synthesizedAudioPath :=
       over (u_synthesizedAudioPath updates) (synthesizedAudioPath session);
     processedAt := over (u_processedAt updates) (processedAt session);
     error := over (u_error updates) (error session) |}.

(** [session.events = evs] *)
Definition set_events (evs : list json) (session : SessionData) : SessionData :=
  {| sessionId := sessionId session; url := url session;
     viewport := viewport session; startTime := startTime session;
     endTime := endTime session; events := Some evs;
     videoPath := videoPath session; audioPath := audioPath session;
     status := status session; title := title session;
     description := description session; transcription := transcription session;
     refinedScript := refinedScript session;
     synthesizedAudioPath := synthesizedAudioPath session;
     processedAt := processedAt session; error := error session |}.

(** An object literal with one member, and with the members of two. *)
Definition upd_endTime (v : Z) : SessionUpdates :=
  Build_SessionUpdates None None None None (Some v) None None None
                       None None None None None None None None.
Definition upd_videoPath (v : string) : SessionUpdates :=
  Build_SessionUpdates None None None None None None (Some v) None
                       None None None None None None None None.
Definition upd_audioPath (v : string) : SessionUpdates :=
  Build_SessionUpdates None None None None None None None (Some v)
                       None None None None None None None None.
Definition upd_status (v : string) : SessionUpdates :=
  Build_SessionUpdates None None None None None None None None
                       (Some v) None None None None None None None.
Definition upd_title (v : string) : SessionUpdates :=
  Build_SessionUpdates None None None None None None None None
                       None (Some v) None None None None None None.
Definition upd_description (v : string) : SessionUpdates :=
  Build_SessionUpdates None None None None None None None None
                       None None (Some v) None None None None None.
Definition upd_transcription (v : json) : SessionUpdates :=
  Build_SessionUpdates None None None None None None None None
                       None None None (Some v) None None None None.
Definition upd_refinedScript (v : json) : SessionUpdates :=
  Build_SessionUpdates None None None None None None None None
                       None None None None (Some v) None None None.
Definition upd_synthesizedAudioPath (v : string) : SessionUpdates :=
  Build_SessionUpdates None None None None None None None None
                       None None None None None (Some v) None None.
Definition upd_processedAt (v : string) : SessionUpdates :=
  Build_SessionUpdates None None None None None None None None
                       None None None None None None (Some v) None.
Definition upd_error (v : string) : SessionUpdates :=
  Build_SessionUpdates None None None None None None None None
                       None None None None None None None (Some v).

Definition both (a b : SessionUpdates) : SessionUpdates :=
  {| u_sessionId := over (u_sessionId b) (u_sessionId a);
     u_url := over (u_url b) (u_url a);
     u_viewport := over (u_viewport b) (u_viewport a);
     u_startTime := over (u_startTime b) (u_startTime a);
     u_endTime := over (u_endTime b) (u_endTime a);
     u_events := over (u_events b) (u_events a);
     u_videoPath := over (u_videoPath b) (u_videoPath a);
     u_audioPath := over (u_audioPath b) (u_audioPath a);
     u_status := over (u_status b) (u_status a);
     u_title := over (u_title b) (u_title a);
     u_description := over (u_description b) (u_description a);
     u_transcription := over (u_transcription b) (u_transcription a);
     u_refinedScript := over (u_refinedScript b) (u_refinedScript a);
     u_synthesizedAudioPath :=
       over (u_synthesizedAudioPath b) (u_synthesizedAudioPath a);
     u_processedAt := over (u_processedAt b) (u_processedAt a);
     u_error := over (u_error b) (u_error a) |}.

(** [{ m1, m2, ... }] *)
Definition literal (members : list SessionUpdates) : SessionUpdates :=
  foldl both noUpdates members.

(** [interface SessionsStore] *)
Record SessionsStore : Type := {
  sessions : list (string * SessionData);
  lastUpdated : string }.

(** *** The world the store lives in *)

(** What is at [config.sessionsFile].  The store is written with
    [JSON.stringify] and read with [JSON.parse]; a file written completely
    parses back to the document that was written. *)
Inductive StoreFile : Type :=
| Absent                          (* no such file *)
| Unreadable                      (* [fs.readFile] rejects *)
| Unparseable                     (* [JSON.parse] throws on the text *)
| Document (store : SessionsStore).

(** Whether [loadSessions] gets a document out of the file, rather than
    landing in its [catch]. *)
Definition parses (f : StoreFile) : bool :=
  match f with Document _ => true | Absent | Unreadable | Unparseable => false end.

(** How one [fs.writeFile(path, text)] ends.  The file is opened with flag
    ['w'], which truncates it, and the text is then written into it: a
    failure to open leaves the file alone, a failure after that leaves a
    proper prefix of the text, and a proper prefix of the text of a JSON
    object (its last character is the closing brace) does not parse. *)
Inductive WriteFault : Type :=
| WriteOk
| FailAtOpen
| FailMidway.

(** [Date.now()] and [new Date().toISOString()] *)
Record Clock : Type := { dateNow : Z; isoNow : string }.

Record World : Type := {
  storeFile : StoreFile;
  (** the session directories present under [recordingsDir] *)
  sessionDirs : gset string;
  (** the directories whose removal the file system refuses *)
  undeletable : gset string;
  (** how the coming writes of the store file end; none listed: they succeed *)
  writeFaults : list WriteFault;
  clock : Clock;
  recordingsDir : string }.

Definition set_storeFile (f : StoreFile) (w : World) : World :=
  {| storeFile := f; sessionDirs := sessionDirs w; undeletable := undeletable w;
     writeFaults := writeFaults w; clock := clock w;
     recordingsDir := recordingsDir w |}.

Definition set_sessionDirs (d : gset string) (w : World) : World :=
  {| storeFile := storeFile w; sessionDirs := d; undeletable := undeletable w;
     writeFaults := writeFaults w; clock := clock w;
     recordingsDir := recordingsDir w |}.

Definition set_writeFaults (fs : list WriteFault) (w : World) : World :=
  {| storeFile := storeFile w; sessionDirs := sessionDirs w;
     undeletable := undeletable w; writeFaults := fs; clock := clock w;
     recordingsDir := recordingsDir w |}.

(** [fs.writeFile(this.sessionsPath, JSON.stringify(store, null, 2))] *)
Definition fs_writeFile (store : SessionsStore) (w : World) : Outcome () * World :=
  match writeFaults w with
  | [] => (Returned (), set_storeFile (Document store) w)
  | WriteOk :: rest =>
      (Returned (), set_writeFaults rest (set_storeFile (Document store) w))
  | FailAtOpen :: rest => (Threw (IOError "EACCES"), set_writeFaults rest w)
  | FailMidway :: rest =>
      (Threw (IOError "ENOSPC"), set_writeFaults rest (set_storeFile Unparseable w))
  end.

(** [fs.rm(dir, { recursive: true, force: true })] inside [try]/[catch]:
    a rejection is caught and only logged, and the directory stays. *)
Definition fs_rm (dir : string) (w : World) : World :=
  if decide (dir ∈ undeletable w) then w
  else set_sessionDirs (sessionDirs w ∖ {[dir]}) w.

(** *** The methods *)

Definition loadSessions (w : World) : SessionsStore :=
  match storeFile w with
  | Document store => store
  | Absent | Unreadable | Unparseable =>
      {| sessions := []; lastUpdated := isoNow (clock w) |}
  end.

Definition saveSessions (store : SessionsStore) (w : World) : Outcome () * World :=
  fs_writeFile {| sessions := sessions store; lastUpdated := isoNow (clock w) |} w.

Definition createSession (session : SessionData) (w : World)
  : Outcome SessionData * World :=
  let store := loadSessions w in
  let store := {| sessions := obj_set (sessionId session) session (sessions store);
                  lastUpdated := lastUpdated store |} in
  match saveSessions store w with
  | (Returned _, w') => (Returned session, w')
  | (Threw e, w') => (Threw e, w')
  end.

Definition getSession (sessionId : string) (w : World) : option SessionData :=
  let store := loadSessions w in
  obj_get sessionId (sessions store).

Definition updateSession (sessionId : string) (updates : SessionUpdates) (w : World)
  : Outcome (option SessionData) * World :=
  let store := loadSessions w in
  match obj_get sessionId (sessions store) with
  | None => (Returned None, w)
  | Some session =>
      let session' := spread session updates in
      let store := {| sessions := obj_set sessionId session' (sessions store);
                      lastUpdated := lastUpdated store |} in
      match saveSessions store w with
      | (Returned _, w') => (Returned (Some session'), w')
      | (Threw e, w') => (Threw e, w')
      end
  end.

(** [updateSession] awaits twice: the read of the store file and, the
    record merged, the write.  Its two halves: what the call holds once
    the read has resolved - nothing when the session is not in the store,
    otherwise the store it is about to write and the merged record - and
    what it does from there. *)
Definition updateSession_read (sessionId : string) (updates : SessionUpdates) (w : World)
  : option (SessionsStore * SessionData) :=
  let store := loadSessions w in
  match obj_get sessionId (sessions store) with
  | None => None
  | Some session =>
      let session' := spread session updates in
      Some ({| sessions := obj_set sessionId session' (sessions store);
               lastUpdated := lastUpdated store |}, session')
  end.

Definition updateSession_write (merged : option (SessionsStore * SessionData))
    (w : World) : Outcome (option SessionData) * World :=
  match merged with
  | None => (Returned None, w)
  | Some (store, session') =>
      match saveSessions store w with
      | (Returned _, w') => (Returned (Some session'), w')
      | (Threw e, w') => (Threw e, w')
      end
  end.

Definition appendEvents (sessionId : string) (evs : list json) (w : World)
  : Outcome () * World :=
  let store := loadSessions w in
  match obj_get sessionId (sessions store) with
  | None => (Threw (Error ("Session " +:+ sessionId +:+ " not found")), w)
  | Some session =>
      let session' := set_events (default [] (events session) ++ evs) session in
      let store := {| sessions := obj_set sessionId session' (sessions store);
                      lastUpdated := lastUpdated store |} in
      saveSessions store w
  end.

Definition listSessions (w : World) : list SessionData :=
  let store := loadSessions w in
  array_sort (λ a b, startTime b - startTime a)%Z (obj_values (sessions store)).

Definition deleteSession (sessionId : string) (w : World) : Outcome bool * World :=
  let store := loadSessions w in
  match obj_get sessionId (sessions store) with
  | None => (Returned false, w)
  | Some _ =>
      let sessionDir := path_join (recordingsDir w) sessionId in
      let w := fs_rm sessionDir w in
      let store := {| sessions := obj_delete sessionId (sessions store);
                      lastUpdated := lastUpdated store |} in
      match saveSessions store w with
      | (Returned _, w') => (Returned true, w')
      | (Threw e, w') => (Threw e, w')
      end
  end.

End SessionManager.

(** ** Ids that name a member of [Object.prototype] *)

Module Inherited.
Import SessionManager.

(** The members that the [sessions] object, built by an object literal or
    by [JSON.parse], inherits from [Object.prototype].  Each is a function
    or, for [__proto__], the prototype itself: a truthy value.  The module
    follows the two methods that only look a session up, [getSession] and
    [deleteSession], on any id; [updateSession] and [appendEvents] are
    modelled for the ids under which the lookup finds a record or nothing. *)
Definition objectPrototype : list string :=
  ["constructor"; "__defineGetter__"; "__defineSetter__"; "hasOwnProperty";
   "__lookupGetter__"; "__lookupSetter__"; "isPrototypeOf";
   "propertyIsEnumerable"; "toString"; "valueOf"; "__proto__"; "toLocaleString"].

Definition inherited (k : string) : bool := bool_decide (k ∈ objectPrototype).

(** What [store.sessions[sessionId]] evaluates to: an own member wins over
    an inherited one. *)
Inductive Member : Type :=
| Stored (session : SessionData)
| Builtin (name : string)
| Undefined.

Definition member (sessionId : string) (store : SessionsStore) : Member :=
  match obj_get sessionId (sessions store) with
  | Some session => Stored session
  | None => if inherited sessionId then Builtin sessionId else Undefined
  end.

(** [getSession] on any id: [store.sessions[sessionId] || null], where
    [Undefined] is what becomes null. *)
Definition getSession (sessionId : string) (w : World) : Member :=
  member sessionId (loadSessions w).

(** [deleteSession] on any id: the guard [!store.sessions[sessionId]] lets
    an inherited member through, [delete] of a key that is not an own key
    does nothing, and the store is written back. *)
Definition deleteSession (sessionId : string) (w : World) : Outcome bool * World :=
  let store := loadSessions w in
  match member sessionId store with
  | Undefined => (Returned false, w)
  | Stored _ | Builtin _ =>
      let sessionDir := path_join (recordingsDir w) sessionId in
      let w := fs_rm sessionDir w in
      let store := {| sessions := obj_delete sessionId (sessions store);
                      lastUpdated := lastUpdated store |} in
      match saveSessions store w with
      | (Returned _, w') => (Returned true, w')
      | (Threw e, w') => (Threw e, w')
      end
  end.

End Inherited.

(** ** Chunk Aggregator: services/ChunkManager.ts *)

Module ChunkManager.

Inductive MediaType : Type := Video | Audio.

Definition typeName (t : MediaType) : string :=
  match t with Video => "video" | Audio => "audio" end.

(** [interface ChunkInfo] *)
Record ChunkInfo : Type := {
  index : Z;
  type : MediaType;
  path : string;
  size : Z }.

(** [interface SessionChunks] *)
Record SessionChunks : Type := {
  video : list ChunkInfo;
  audio : list ChunkInfo }.

(** [sessionChunks[type]] and [sessionChunks[type] = chunks] *)
Definition chunksOf (t : MediaType) (sc : SessionChunks) : list ChunkInfo :=
  match t with Video => video sc | Audio => audio sc end.

Definition set_chunksOf (t : MediaType) (chunks : list ChunkInfo) (sc : SessionChunks)
  : SessionChunks :=
  match t with
  | Video => {| video := chunks; audio := audio sc |}
  | Audio => {| video := video sc; audio := chunks |}
  end.

(** The manager's [chunksMap] and the files under the recordings
    directory, by path, with their content. *)
Record State : Type := {
  chunksMap : gmap string SessionChunks;
  files : gmap string (list Byte.byte);
  recordingsDir : string }.

Definition set_chunksMap (m : gmap string SessionChunks) (st : State) : State :=
  {| chunksMap := m; files := files st; recordingsDir := recordingsDir st |}.

Definition set_files (fs : gmap string (list Byte.byte)) (st : State) : State :=
  {| chunksMap := chunksMap st; files := fs; recordingsDir := recordingsDir st |}.

Definition addChunk (sessionId : string) (chunk : ChunkInfo) (st : State) : State :=
  let m :=
    match chunksMap st !! sessionId with
    | Some _ => chunksMap st
    | None => <[sessionId := {| video := []; audio := [] |}]> (chunksMap st)
    end in
  match m !! sessionId with
  | None => set_chunksMap m st
  | Some sessionChunks =>
      let pushed := chunksOf (type chunk) sessionChunks ++ [chunk] in
      let sorted := array_sort (λ a b, index a - index b)%Z pushed in
      set_chunksMap (<[sessionId := set_chunksOf (type chunk) sorted sessionChunks]> m) st
  end.

(** The [for] loop of [mergeChunks]: each chunk file is piped into the
    write stream open on [outputPath], then unlinked; a chunk file that
    cannot be read rejects the loop.  The [unlink] is taken to succeed:
    the code swallows a failing one ([.catch(() => {})]), which would
    leave the chunk file behind and change nothing else. *)
Fixpoint pipeChunks (outputPath : string) (chunks : list ChunkInfo)
    (fs : gmap string (list Byte.byte)) : Outcome () * gmap string (list Byte.byte) :=
  match chunks with
  | [] => (Returned (), fs)
  | chunk :: rest =>
      match fs !! path chunk with
      | None => (Threw (IOError "ENOENT"), fs)
      | Some data =>
          let fs := <[outputPath := default [] (fs !! outputPath) ++ data]> fs in
          let fs := delete (path chunk) fs in
          pipeChunks outputPath rest fs
      end
  end.

(** [fs.rename(from, to)], the directory of [to] being there (it is the
    directory of a session that was started). *)
Definition fs_rename (from to : string) (fs : gmap string (list Byte.byte))
  : Outcome () * gmap string (list Byte.byte) :=
  match fs !! from with
  | None => (Threw (IOError "ENOENT"), fs)
  | Some data => (Returned (), <[to := data]> (delete from fs))
  end.

Definition noChunks (t : MediaType) (sessionId : string) : Exn :=
  Error ("No " +:+ typeName t +:+ " chunks found for session " +:+ sessionId).

(** [path.join(sessionDir, `recording_${type}.webm`)] *)
Definition outputPathOf (recordingsDir sessionId : string) (t : MediaType) : string :=
  let sessionDir := path_join recordingsDir sessionId in
  path_join sessionDir ("recording_" +:+ typeName t +:+ ".webm").

Definition mergeChunks (sessionId : string) (t : MediaType) (st : State)
  : Outcome string * State :=
  match chunksMap st !! sessionId with
  | None => (Threw (noChunks t sessionId), st)
  | Some sessionChunks =>
      let chunks := chunksOf t sessionChunks in
      if decide (length chunks = 0) then (Threw (noChunks t sessionId), st)
      else
        let outputPath := outputPathOf (recordingsDir st) sessionId t in
        match chunks with
        | [chunk] =>
            match fs_rename (path chunk) outputPath (files st) with
            | (Returned _, fs) => (Returned outputPath, set_files fs st)
            | (Threw e, fs) => (Threw e, set_files fs st)
            end
        | _ =>
            (* createWriteStream(outputPath): flag 'w' creates or empties it *)
            let fs := <[outputPath := []]> (files st) in
            match pipeChunks outputPath chunks fs with
            | (Returned _, fs) =>
                (Returned outputPath,
                 set_chunksMap
                   (<[sessionId := set_chunksOf t [] sessionChunks]> (chunksMap st))
                   (set_files fs st))
            | (Threw e, fs) => (Threw e, set_files fs st)
            end
        end
  end.

(** The chunks the manager tracks for a session and media type. *)
Definition tracked (sessionId : string) (t : MediaType) (st : State) : list ChunkInfo :=
  match chunksMap st !! sessionId with
  | Some sessionChunks => chunksOf t sessionChunks
  | None => []
  end.

End ChunkManager.

(** ** Transcription gateway: services/DeepgramService.ts *)

Module DeepgramService.

(** [interface TranscriptionResult]; numbers are carried as integers, no
    service computes with them. *)
Record TranscriptionResult : Type := {
  rawText : string;
  words : list json;
  confidence : Z;
  duration : Z }.

Definition toJson (t : TranscriptionResult) : json :=
  JObj [("rawText", JStr (rawText t)); ("words", JArr (words t));
        ("confidence", JNum (confidence t)); ("duration", JNum (duration t))].

(** The service as constructed from [config.deepgramApiKey], and what the
    remote speech-to-text answers for an audio file. *)
Record Service : Type := {
  deepgramApiKey : string;
  remote : string → Outcome TranscriptionResult }.

(** [this.client !== null]: a client exists when the key is not empty. *)
Definition isConfigured (d : Service) : bool :=
  bool_decide (deepgramApiKey d ≠ "").

Definition transcribeFile (d : Service) (audioPath : string)
  : Outcome TranscriptionResult :=
  if isConfigured d then remote d audioPath
  else Threw (Error "Deepgram API key not configured").

End DeepgramService.

(** ** Enrichment gateway: services/PythonClient.ts *)

Module PythonClient.

Record AudioProcessRequest : Type := {
  req_sessionId : string;
  req_audioPath : string;
  rawTranscript : string;
  domEvents : list json }.

Record AudioProcessResponse : Type := {
  res_sessionId : string;
  refinedText : string;
  synthesizedAudioPath : string;
  instructions : list json }.

(** What the FastAPI service answers: the [status] member of
    [GET /health], and the body of [POST /audio-full-process]. *)
Record Service : Type := {
  health : Outcome string;
  fullProcess : AudioProcessRequest → Outcome AudioProcessResponse }.

Definition healthCheck (p : Service) : bool :=
  match health p with
  | Returned status => bool_decide (status = "ok")
  | Threw _ => false
  end.

Definition processAudio (p : Service) (request : AudioProcessRequest)
  : Outcome AudioProcessResponse :=
  fullProcess p request.

End PythonClient.

(** ** Processing Pipeline: services/ProcessingPipeline.ts *)

Module ProcessingPipeline.
Import SessionManager.

(** What [io.emit(name, payload)] sends. *)
Inductive ProgressEvent : Type :=
| session_status (sessionId status : string) (message : option string)
| transcription_ready (sessionId : string)
    (transcription : DeepgramService.TranscriptionResult)
| refinement_ready (sessionId : string) (refinedScript : json)
| synthesis_ready (sessionId : string) (audioPath : string)
| session_complete (sessionId : string)
| error_event (sessionId : string) (error : string)
| session_deleted (sessionId : string).

(** What a run does, in order.  A broadcast is logged with the content of
    the store file at the moment it is sent; a store update with the
    object passed and what the call gave back. *)
Inductive Action : Type :=
| Emit (event : ProgressEvent) (stored : StoreFile)
| Update (sessionId : string) (updates : SessionUpdates)
    (result : Outcome (option SessionData))
| Transcribe (audioPath : string)
| HealthCheck (healthy : bool)
| ProcessAudio (request : PythonClient.AudioProcessRequest).

(** The pipeline's surroundings: the store's world, the log of the run,
    and the one thing another request handler may do meanwhile that the
    specification speaks of: [pendingDelete = Some n] is a
    [DELETE /api/sessions/:id] for the session of the run, served once the
    run has passed [n] more of the points at which its [updateSession]
    calls await the store file - each call has two, before its read and
    between its read and its write.  The handler's own steps are taken
    together, at the point where its write of the store completes. *)
Record PWorld : Type := {
  world : World;
  trace : list Action;
  pendingDelete : option nat }.

Definition M (A : Type) : Type := PWorld → Outcome A * PWorld.

Definition ret {A} (a : A) : M A := λ pw, (Returned a, pw).

Definition throw {A} (e : Exn) : M A := λ pw, (Threw e, pw).

Definition bind {A B} (m : M A) (k : A → M B) : M B :=
  λ pw, match m pw with
        | (Returned a, pw') => k a pw'
        | (Threw e, pw') => (Threw e, pw')
        end.

(** [try { body } catch (error) { handler }] *)
Definition try_catch {A} (body : M A) (handler : Exn → M A) : M A :=
  λ pw, match body pw with
        | (Returned a, pw') => (Returned a, pw')
        | (Threw e, pw') => handler e pw'
        end.

Notation "'let!' x ':=' m 'in' k" := (bind m (λ x, k))
  (at level 10, x pattern, m at level 100, k at level 200).
Notation "m ';;' k" := (bind m (λ _, k))
  (at level 100, k at level 200, right associativity).

Definition log (a : Action) : M () :=
  λ pw, (Returned (),
         {| world := world pw; trace := trace pw ++ [a];
            pendingDelete := pendingDelete pw |}).

(** [this.io.emit(...)] *)
Definition emit (event : ProgressEvent) : M () :=
  λ pw, log (Emit event (storeFile (world pw))) pw.

(** [await] of a gateway call. *)
Definition await {A} (o : Outcome A) : M A :=
  match o with Returned a => ret a | Threw e => throw e end.

(** The handler of [DELETE /api/sessions/:id] in routes/session.ts: its
    effect on the store and on the subscribers (the HTTP response is not
    part of the world). *)
Definition deleteRoute (id : string) : M () :=
  λ pw, match deleteSession id (world pw) with
        | (Returned true, w') =>
            emit (session_deleted id)
              {| world := w'; trace := trace pw; pendingDelete := pendingDelete pw |}
        | (_, w') =>
            (Returned (),
             {| world := w'; trace := trace pw; pendingDelete := pendingDelete pw |})
        end.

(** The other request handler takes its turn when it is due. *)
Definition interleave (sessionId : string) : M () :=
  λ pw, match pendingDelete pw with
        | None => (Returned (), pw)
        | Some (S n) =>
            (Returned (),
             {| world := world pw; trace := trace pw; pendingDelete := Some n |})
        | Some O =>
            deleteRoute sessionId
              {| world := world pw; trace := trace pw; pendingDelete := None |}
        end.

(** The second half of an [updateSession] call of the run: the write of
    what the call merged, and the call's result. *)
Definition writeBack (sessionId : string) (updates : SessionUpdates)
    (merged : option (SessionsStore * SessionData)) : M () :=
  λ pw, match updateSession_write merged (world pw) with
        | (result, w') =>
            let pw' := {| world := w'; trace := trace pw;
                          pendingDelete := pendingDelete pw |} in
            match result with
            | Returned _ => log (Update sessionId updates result) pw'
            | Threw e => (log (Update sessionId updates result) ;; throw e) pw'
            end
        end.

(** [await this.sessionManager.updateSession(sessionId, updates)]: the
    call awaits the read of the store file, merges, and awaits the write;
    the other handler may take its turn at either point. *)
Definition update (sessionId : string) (updates : SessionUpdates) : M () :=
  interleave sessionId ;;
  λ pw, let merged := updateSession_read sessionId updates (world pw) in
        (interleave sessionId ;; writeBack sessionId updates merged) pw.

(** [new Date().toISOString()] *)
Definition toISOString : M string :=
  λ pw, (Returned (isoNow (clock (world pw))), pw).

Record Services : Type := {
  deepgram : DeepgramService.Service;
  pythonClient : PythonClient.Service }.

(** [a || ''] *)
Definition orEmpty (a : option string) : string := default "" a.

(** A string member is truthy when present and not empty. *)
Definition truthy (a : option string) : bool :=
  match a with Some s => bool_decide (s ≠ "") | None => false end.

Definition emitStatus (sessionId status : string) (message : option string) : M () :=
  emit (session_status sessionId status message).

(** [error instanceof Error ? error.message : ...]: everything thrown here
    is an [Error]. *)
Definition messageOf (e : Exn) : string :=
  match e with Error m => m | IOError code => code end.

Definition refinedScriptOf (originalText : string)
    (r : PythonClient.AudioProcessResponse) : json :=
  JObj [("originalText", JStr originalText);
        ("refinedText", JStr (PythonClient.refinedText r));
        ("instructions", JArr (PythonClient.instructions r))].

Definition process (svc : Services) (session : SessionData) : M () :=
  let sessionId := sessionId session in
  try_catch
    ((* Step 1: Transcribe audio *)
     emitStatus sessionId "transcribing" (Some "Transcribing audio with Deepgram...") ;;
     let! transcription :=
       (if truthy (audioPath session) && DeepgramService.isConfigured (deepgram svc)
        then
          log (Transcribe (orEmpty (audioPath session))) ;;
          let! transcription :=
            await (DeepgramService.transcribeFile (deepgram svc)
                     (orEmpty (audioPath session))) in
          update sessionId
            (literal [upd_transcription (DeepgramService.toJson transcription);
                      upd_status "transcribing"]) ;;
          emit (transcription_ready sessionId transcription) ;;
          ret transcription
        else if negb (DeepgramService.isConfigured (deepgram svc))
        then
          emitStatus sessionId "transcribing"
            (Some "Deepgram not configured, skipping...") ;;
          ret (DeepgramService.Build_TranscriptionResult "" [] 0 0)
        else ret (DeepgramService.Build_TranscriptionResult "" [] 0 0)) in
     (* Step 2: Check Python service health *)
     let pythonHealthy := PythonClient.healthCheck (pythonClient svc) in
     log (HealthCheck pythonHealthy) ;;
     if negb pythonHealthy then
       emitStatus sessionId "completed"
         (Some "Processing complete (AI services unavailable)") ;;
       let! now := toISOString in
       update sessionId (literal [upd_status "completed"; upd_processedAt now]) ;;
       emit (session_complete sessionId)
     else
       (* Step 3: Refine text and synthesize voice via Python service *)
       emitStatus sessionId "refining" (Some "Refining script with Gemini AI...") ;;
       let request :=
         {| PythonClient.req_sessionId := sessionId;
            PythonClient.req_audioPath := orEmpty (audioPath session);
            PythonClient.rawTranscript := DeepgramService.rawText transcription;
            PythonClient.domEvents := default [] (events session) |} in
       log (ProcessAudio request) ;;
       let! processResult :=
         await (PythonClient.processAudio (pythonClient svc) request) in
       update sessionId
         (literal [upd_refinedScript
                     (refinedScriptOf (DeepgramService.rawText transcription)
                        processResult);
                   upd_status "synthesizing"]) ;;
       emit (refinement_ready sessionId
               (refinedScriptOf (DeepgramService.rawText transcription)
                  processResult)) ;;
       (* Step 4: Update with synthesized audio *)
       emitStatus sessionId "synthesizing"
         (Some "Generating AI voiceover with ElevenLabs...") ;;
       let! now := toISOString in
       update sessionId
         (literal [upd_synthesizedAudioPath
                     (PythonClient.synthesizedAudioPath processResult);
                   upd_status "completed"; upd_processedAt now]) ;;
       emit (synthesis_ready sessionId
               (PythonClient.synthesizedAudioPath processResult)) ;;
       (* Step 5: Complete *)
       emitStatus sessionId "completed" (Some "Processing complete!") ;;
       emit (session_complete sessionId))
    (λ error,
       update sessionId
         (literal [upd_status "error"; upd_error (messageOf error)]) ;;
       emit (error_event sessionId (messageOf error))).

(** Reading a trace.  What follows the deletion of session [id] in it:
    the store file as the deletion left it, and the later actions. *)
Fixpoint afterDeletion (id : string) (tr : list Action)
  : option (StoreFile * list Action) :=
  match tr with
  | [] => None
  | Emit (session_deleted id') stored :: rest =>
      if decide (id' = id) then Some (stored, rest) else afterDeletion id rest
  | _ :: rest => afterDeletion id rest
  end.

(** An action that leaves the store file [f] alone: an update that found
    no record, a broadcast sent while the file is [f], a gateway call. *)
Definition quiet (f : StoreFile) (a : Action) : Prop :=
  match a with
  | Update _ _ result => result = Returned None
  | Emit _ stored => stored = f
  | Transcribe _ | HealthCheck _ | ProcessAudio _ => True
  end.

(** What a run still does after the first update that found no record. *)
Fixpoint afterNotFound (tr : list Action) : option (list Action) :=
  match tr with
  | [] => None
  | Update _ _ (Returned None) :: rest => Some rest
  | _ :: rest => afterNotFound rest
  end.

(** The record of session [id] in a store file. *)
Definition storedIn (f : StoreFile) (id : string) : option SessionData :=
  match f with
  | Document store => obj_get id (sessions store)
  | Absent | Unreadable | Unparseable => None
  end.

(** Whether a broadcast announces what the store file already holds for
    the session it names. *)
Definition announcesStored (event : ProgressEvent) (f : StoreFile) : Prop :=
  match event with
  | session_status id status _ => (SessionManager.status <$> storedIn f id) = Some status
  | transcription_ready id t =>
      (SessionManager.transcription <$> storedIn f id)
        = Some (Some (DeepgramService.toJson t))
  | refinement_ready id script =>
      (SessionManager.refinedScript <$> storedIn f id) = Some (Some script)
  | synthesis_ready id path =>
      (SessionManager.synthesizedAudioPath <$> storedIn f id) = Some (Some path)
  | session_complete id =>
      (SessionManager.status <$> storedIn f id) = Some "completed"
  | error_event id message =>
      (SessionManager.status <$> storedIn f id) = Some "error" ∧
      (SessionManager.error <$> storedIn f id) = Some (Some message)
  | session_deleted id => storedIn f id = None
  end.

(** The status broadcasts that open a stage: the two that say
    transcription begins or is skipped, the one that says refinement
    begins, and the one sent when the enrichment service is down. *)
Definition opensStage (event : ProgressEvent) : bool :=
  match event with
  | session_status _ status message =>
      bool_decide (status = "transcribing" ∨ status = "refining" ∨
                   message = Some "Processing complete (AI services unavailable)")
  | _ => false
  end.

(** A logged broadcast that, unless it opens a stage, announces what the
    store file held when it was sent. *)
Definition announcedAfterWrite (a : Action) : Prop :=
  match a with
  | Emit event stored => opensStage event = false → announcesStored event stored
  | _ => True
  end.

(** Whether every status broadcast that opens a stage is sent before the
    run has asked the store to write that status; [asked] are the statuses
    named by the updates logged so far. *)
Fixpoint opensBeforeWrite (asked : list string) (tr : list Action) : Prop :=
  match tr with
  | [] => True
  | Emit event _ :: rest =>
      match event with
      | session_status _ status _ => opensStage event = true → status ∉ asked
      | _ => True
      end ∧ opensBeforeWrite asked rest
  | Update _ updates _ :: rest =>
      opensBeforeWrite (asked ++ option_list (u_status updates)) rest
  | _ :: rest => opensBeforeWrite asked rest
  end.

(** A logged action that is not an update naming the given status. *)
Definition leavesStatus (status : string) (a : Action) : Prop :=
  match a with
  | Update _ updates _ => u_status updates ≠ Some status
  | _ => True
  end.

(** A property of the pipeline's surroundings that a computation keeps. *)
Definition preserves {A} (I : PWorld → Prop) (m : M A) : Prop :=
  ∀ pw, I pw → I (m pw).2.

(** Everything logged so far satisfies [P]. *)
Definition allLogged (P : Action → Prop) (pw : PWorld) : Prop :=
  Forall P (trace pw).

(** A logged health probe reports what the enrichment gateway answered. *)
Definition probeReports (healthy : bool) (a : Action) : Prop :=
  match a with HealthCheck b => b = healthy | _ => True end.

(** An action of a run that stays out of enrichment: an update that names
    no [refinedScript] and sets neither of the two enrichment statuses, a
    status broadcast that announces neither. *)
Definition skipsEnrichment (a : Action) : Prop :=
  match a with
  | Update _ updates _ =>
      u_refinedScript updates = None ∧
      u_status updates ≠ Some "refining" ∧
      u_status updates ≠ Some "synthesizing"
  | Emit (session_status _ status _) _ =>
      status ≠ "refining" ∧ status ≠ "synthesizing"
  | Emit (refinement_ready _ _) _ | Emit (synthesis_ready _ _) _
  | ProcessAudio _ => False
  | _ => True
  end.

(** The result of the first update logged in a trace. *)
Fixpoint firstUpdate (tr : list Action) : option (Outcome (option SessionData)) :=
  match tr with
  | [] => None
  | Update _ _ result :: _ => Some result
  | _ :: rest => firstUpdate rest
  end.

(** What is logged after a deletion that completed between two update
    calls of the run rather than inside one: the first update logged after
    it, if there is one, found no record.  (An update that had read the
    store before the deletion goes on to write, and returns the record or
    throws.) *)
Definition betweenCalls (post : list Action) : Prop :=
  match firstUpdate post with
  | None | Some (Returned None) => True
  | Some _ => False
  end.

(** Once session [id] has been deleted: no deletion is pending any more
    and, when the deletion completed between two update calls, the store
    file is as the deletion left it, the session is not in it, and nothing
    done since has touched it. *)
Definition deletionInv (id : string) (pw : PWorld) : Prop :=
  match afterDeletion id (trace pw) with
  | None => True
  | Some (f, post) =>
      pendingDelete pw = None ∧
      (betweenCalls post →
       storeFile (world pw) = f ∧ getSession id (world pw) = None ∧
       Forall (quiet f) post)
  end.

(** Where a deletion that is still to come will land: [n] await points
    ahead with [n] even, before the read of an update call of the run;
    with [n] odd, between the read and the write of one. *)
Definition dueBeforeRead (pending : option nat) : Prop :=
  match pending with Some n => Nat.even n = true | None => True end.

(** A deletion that came, or is to come, between two update calls. *)
Definition betweenInv (id : string) (pw : PWorld) : Prop :=
  deletionInv id pw ∧ dueBeforeRead (pendingDelete pw) ∧
  ∀ f post, afterDeletion id (trace pw) = Some (f, post) → betweenCalls post.

(** A run started on world [w], with nothing logged yet. *)
Definition start (w : World) (pendingDelete : option nat) : PWorld :=
  {| world := w; trace := []; pendingDelete := pendingDelete |}.

End ProcessingPipeline.

(** ** The mutations of the store, as one type *)

Module Mutations.
Import SessionManager.

Inductive Mutation : Type :=
| Create (session : SessionData)
| Patch (sessionId : string) (updates : SessionUpdates)
| Append (sessionId : string) (evs : list json)
| Delete (sessionId : string).

(** Whether the method gets as far as [saveSessions] on world [w]. *)
Definition persists (m : Mutation) (w : World) : bool :=
  match m with
  | Create _ => true
  | Patch id _ | Append id _ | Delete id => bool_decide (is_Some (getSession id w))
  end.

Definition forget {A} (r : Outcome A * World) : Outcome () * World :=
  match r with
  | (Returned _, w) => (Returned (), w)
  | (Threw e, w) => (Threw e, w)
  end.

Definition run (m : Mutation) (w : World) : Outcome () * World :=
  match m with
  | Create session => forget (createSession session w)
  | Patch id updates => forget (updateSession id updates w)
  | Append id evs => appendEvents id evs w
  | Delete id => forget (deleteSession id w)
  end.

End Mutations.

(** ** Sample data *)

Module Samples.
Import SessionManager.
#[local] Open Scope Z_scope.

Definition session1 : SessionData :=
  {| sessionId := "session_1"; url := "https://example.com";
     viewport := {| width := 1920; height := 1080 |};
     startTime := 1000; endTime := None; events := Some [];
     videoPath := None; audioPath := None; status := "recording";
     title := None; description := None; transcription := None;
     refinedScript := None; synthesizedAudioPath := None;
     processedAt := None; error := None |}.

(** A second record that claims the same id. *)
Definition session1' : SessionData :=
  {| sessionId := "session_1"; url := "https://other.example";
     viewport := {| width := 800; height := 600 |};
     startTime := 2000; endTime := None; events := Some [];
     videoPath := None; audioPath := None; status := "recording";
     title := None; description := None; transcription := None;
     refinedScript := None; synthesizedAudioPath := None;
     processedAt := None; error := None |}.

(** [session1] once stopped, with a merged audio artifact. *)
Definition stopped1 : SessionData :=
  {| sessionId := "session_1"; url := "https://example.com";
     viewport := {| width := 1920; height := 1080 |};
     startTime := 1000; endTime := Some 5000; events := Some [JStr "click"];
     videoPath := None; audioPath := Some "/rec/session_1/recording_audio.webm";
     status := "processing";
     title := None; description := None; transcription := None;
     refinedScript := None; synthesizedAudioPath := None;
     processedAt := None; error := None |}.

Definition store1 : SessionsStore :=
  {| sessions := [("session_1", session1)]; lastUpdated := "t0" |}.

Definition storeStopped : SessionsStore :=
  {| sessions := [("session_1", stopped1)]; lastUpdated := "t0" |}.

(** One video chunk uploaded for [session_1], as the upload route names it. *)
Definition chunk0 : ChunkManager.ChunkInfo :=
  {| ChunkManager.index := 0; ChunkManager.type := ChunkManager.Video;
     ChunkManager.path := "/rec/session_1/chunk_video_0.webm";
     ChunkManager.size := 3 |}.

Definition chunk1 : ChunkManager.ChunkInfo :=
  {| ChunkManager.index := 1; ChunkManager.type := ChunkManager.Video;
     ChunkManager.path := "/rec/session_1/chunk_video_1.webm";
     ChunkManager.size := 2 |}.

Definition chunk2 : ChunkManager.ChunkInfo :=
  {| ChunkManager.index := 2; ChunkManager.type := ChunkManager.Video;
     ChunkManager.path := "/rec/session_1/chunk_video_2.webm";
     ChunkManager.size := 1 |}.

Definition payload0 : list Byte.byte := [Byte.x01; Byte.x02; Byte.x03].
Definition payload1 : list Byte.byte := [Byte.x04; Byte.x05].
Definition payload2 : list Byte.byte := [Byte.x06].

(** A manager that tracks nothing yet, with the three chunk files on disk. *)
Definition uploaded : ChunkManager.State :=
  {| ChunkManager.chunksMap := ∅;
     ChunkManager.files :=
       <[ChunkManager.path chunk0 := payload0]>
         (<[ChunkManager.path chunk1 := payload1]>
            (<[ChunkManager.path chunk2 := payload2]> ∅));
     ChunkManager.recordingsDir := "/rec" |}.

Definition worldOf (f : StoreFile) (faults : list WriteFault) : World :=
  {| storeFile := f; sessionDirs := ∅; undeletable := ∅; writeFaults := faults;
     clock := {| dateNow := 9000; isoNow := "t1" |}; recordingsDir := "/rec" |}.

(** A world in which the directory of [session_1] exists. *)
Definition recordedWorld (f : StoreFile) (stuck : gset string) : World :=
  {| storeFile := f; sessionDirs := {["/rec/session_1"]}; undeletable := stuck;
     writeFaults := [];
     clock := {| dateNow := 9000; isoNow := "t1" |}; recordingsDir := "/rec" |}.

(** A second session, and a store that holds both. *)
Definition session2 : SessionData :=
  {| sessionId := "session_2"; url := "https://example.org";
     viewport := {| width := 1280; height := 720 |};
     startTime := 3000; endTime := None; events := Some [JStr "scroll"];
     videoPath := None; audioPath := None; status := "recording";
     title := Some "Second"; description := None; transcription := None;
     refinedScript := None; synthesizedAudioPath := None;
     processedAt := None; error := None |}.

Definition store2 : SessionsStore :=
  {| sessions := [("session_1", session1); ("session_2", session2)];
     lastUpdated := "t0" |}.

(** Gateways that answer: a transcript, a healthy enrichment service. *)
Definition transcript1 : DeepgramService.TranscriptionResult :=
  {| DeepgramService.rawText := "click the button"; DeepgramService.words := [];
     DeepgramService.confidence := 1; DeepgramService.duration := 4 |}.

Definition response1 : PythonClient.AudioProcessResponse :=
  {| PythonClient.res_sessionId := "session_1";
     PythonClient.refinedText := "Click the button.";
     PythonClient.synthesizedAudioPath := "/rec/session_1/voice.mp3";
     PythonClient.instructions := [] |}.

Definition deepgramUp : DeepgramService.Service :=
  {| DeepgramService.deepgramApiKey := "key";
     DeepgramService.remote := λ _, Returned transcript1 |}.

Definition servicesUp : ProcessingPipeline.Services :=
  {| ProcessingPipeline.deepgram := deepgramUp;
     ProcessingPipeline.pythonClient :=
       {| PythonClient.health := Returned "ok";
          PythonClient.fullProcess := λ _, Returned response1 |} |}.

(** The enrichment service does not answer its health probe. *)
Definition enrichmentDown : ProcessingPipeline.Services :=
  {| ProcessingPipeline.deepgram := deepgramUp;
     ProcessingPipeline.pythonClient :=
       {| PythonClient.health := Threw (IOError "ECONNREFUSED");
          PythonClient.fullProcess := λ _, Threw (IOError "ECONNREFUSED") |} |}.

(** The enrichment service is healthy but fails the request. *)
Definition enrichmentFails : ProcessingPipeline.Services :=
  {| ProcessingPipeline.deepgram := deepgramUp;
     ProcessingPipeline.pythonClient :=
       {| PythonClient.health := Returned "ok";
          PythonClient.fullProcess := λ _, Threw (Error "Request failed with status code 500") |} |}.

(** The speech-to-text service fails the request. *)
Definition transcriptionFails : ProcessingPipeline.Services :=
  {| ProcessingPipeline.deepgram :=
       {| DeepgramService.deepgramApiKey := "key";
          DeepgramService.remote :=
            λ _, Threw (Error "Deepgram transcription failed: timeout") |};
     ProcessingPipeline.pythonClient :=
       {| PythonClient.health := Returned "ok";
          PythonClient.fullProcess := λ _, Returned response1 |} |}.

(** No Deepgram key is configured. *)
Definition deepgramOff : ProcessingPipeline.Services :=
  {| ProcessingPipeline.deepgram :=
       {| DeepgramService.deepgramApiKey := "";
          DeepgramService.remote := λ _, Returned transcript1 |};
     ProcessingPipeline.pythonClient :=
       {| PythonClient.health := Returned "ok";
          PythonClient.fullProcess := λ _, Returned response1 |} |}.

End Samples.

(** ** Reading stores and traces *)

Module Observations.
Import SessionManager ProcessingPipeline.

(** The session a mutation is about. *)
Definition target (m : Mutations.Mutation) : string :=
  match m with
  | Mutations.Create session => sessionId session
  | Mutations.Patch id _ | Mutations.Append id _ | Mutations.Delete id => id
  end.

(** [session.events || []] *)
Definition eventsOf (session : SessionData) : list json :=
  default [] (events session).

(** The broadcasts of a run, in the order they were sent. *)
Definition broadcasts (tr : list Action) : list ProgressEvent :=
  omap (λ a, match a with Emit event _ => Some event | _ => None end) tr.

(** The statuses a run wrote to the store: the [status] member of each
    update that found its record. *)
Definition statusesWritten (tr : list Action) : list string :=
  omap (λ a, match a with
             | Update _ updates (Returned (Some _)) => u_status updates
             | _ => None
             end) tr.

(** The calls a run made to the two gateways. *)
Definition gatewayCalls (tr : list Action) : list Action :=
  omap (λ a, match a with
             | Transcribe _ | ProcessAudio _ => Some a
             | _ => None
             end) tr.

(** An action of a run that leaves transcription out: no call of the
    speech-to-text gateway, no transcription written or announced, and an
    empty transcript handed to enrichment. *)
Definition skipsTranscription (a : Action) : Prop :=
  match a with
  | Transcribe _ | Emit (transcription_ready _ _) _ => False
  | Update _ updates _ => u_transcription updates = None
  | ProcessAudio request => PythonClient.rawTranscript request = ""
  | _ => True
  end.

(** What a run itself does, without what it meets: the broadcasts it
    sends, the updates it asks for and the gateway calls it makes, whatever
    the store held and whatever the updates returned.  The broadcast of a
    deletion is the DELETE handler's, not the run's. *)
Inductive Move : Type :=
| Sends (event : ProgressEvent)
| Asks (sessionId : string) (updates : SessionUpdates)
| Transcribes (audioPath : string)
| Probes (healthy : bool)
| Enriches (request : PythonClient.AudioProcessRequest).

Definition moveOf (a : Action) : option Move :=
  match a with
  | Emit (session_deleted _) _ => None
  | Emit event _ => Some (Sends event)
  | Update id updates _ => Some (Asks id updates)
  | Transcribe audioPath => Some (Transcribes audioPath)
  | HealthCheck healthy => Some (Probes healthy)
  | ProcessAudio request => Some (Enriches request)
  end.

Definition moves (tr : list Action) : list Move := omap moveOf tr.

(** A logged action that is not an update that threw. *)
Definition updateReturned (a : Action) : Prop :=
  match a with
  | Update _ _ (Threw _) => False
  | _ => True
  end.

(** A computation that keeps [I] and, when it returns, returns a value
    that satisfies [Q]. *)
Definition establishes {A} (I : PWorld → Prop) (m : M A) (Q : A → Prop) : Prop :=
  ∀ pw, I pw → I (m pw).2 ∧ ∀ x, (m pw).1 = Returned x → Q x.

(** How a run can end on the record of its session: completed, with the
    time of processing, or in error, with the message. *)
Definition endedAs (id : string) (final : SessionData)
    (lastBroadcast : option ProgressEvent) : Prop :=
  (status final = "completed" ∧ is_Some (processedAt final) ∧
   lastBroadcast = Some (session_complete id))
  ∨
  (status final = "error" ∧
   ∃ message, error final = Some message ∧
              lastBroadcast = Some (error_event id message)).

End Observations.

#[global] Instance MediaType_eq_dec : EqDecision ChunkManager.MediaType.
Proof. solve_decision. Defined.

(** ** Looking a session's files up: [ChunkManager.getSessionFiles] *)

Module SessionFiles.

(** [s.includes(sub)] *)
Fixpoint includes (sub s : string) : bool :=
  String.prefix sub s ||
  match s with
  | EmptyString => false
  | String _ s' => includes sub s'
  end.

(** [s.endsWith(suffix)] *)
Fixpoint endsWith (s suffix : string) : bool :=
  String.eqb s suffix ||
  match s with
  | EmptyString => false
  | String _ s' => endsWith s' suffix
  end.

Record Found : Type := {
  videoPath : option string;
  audioPath : option string;
  eventsPath : option string }.

Definition isVideo (file : string) : bool :=
  includes "video" file && endsWith file ".webm".

Definition isAudio (file : string) : bool :=
  includes "audio" file && endsWith file ".webm".

(** The body of the [for] loop. *)
Definition classify (sessionDir : string) (result : Found) (file : string) : Found :=
  let filePath := path_join sessionDir file in
  if isVideo file then
    {| videoPath := Some filePath; audioPath := audioPath result;
       eventsPath := eventsPath result |}
  else if isAudio file then
    {| videoPath := videoPath result; audioPath := Some filePath;
       eventsPath := eventsPath result |}
  else if String.eqb file "dom_events.json" then
    {| videoPath := videoPath result; audioPath := audioPath result;
       eventsPath := Some filePath |}
  else result.

(** [readdir] is what [fs.readdir(sessionDir)] gives: the names in the
    directory, in the order the file system lists them, or a rejection,
    which [.catch(() => [])] turns into no names. *)
Definition getSessionFiles (recordingsDir sessionId : string)
    (readdir : Outcome (list string)) : Found :=
  let sessionDir := path_join recordingsDir sessionId in
  let files := match readdir with Returned names => names | Threw _ => [] end in
  foldl (classify sessionDir)
    {| videoPath := None; audioPath := None; eventsPath := None |} files.

(** The name [mergeChunks] gives the artifact of a media type. *)
Definition artifactName (t : ChunkManager.MediaType) : string :=
  "recording_" +:+ ChunkManager.typeName t +:+ ".webm".

End SessionFiles.

(** ** The request handlers: routes/recording.ts and routes/session.ts *)

Module Routes.
Import SessionManager.

(** What a handler sends to the subscribers, and what it sets going. *)
Inductive Notice : Type :=
| session_started (sessionId : string)
| progress (event : ProcessingPipeline.ProgressEvent).

Inductive Step : Type :=
| Sent (notice : Notice) (stored : StoreFile)   (* io.emit, with the store file then *)
| Spawned (session : SessionData).              (* pipeline.process(session), not awaited *)

(** The server the handlers of one router share: the store's world, the
    router's chunk manager, and what the handlers did. *)
Record Server : Type := {
  store : World;
  chunks : ChunkManager.State;
  did : list Step }.

(** The [data] member of a successful answer. *)
Inductive Payload : Type :=
| StartedData (sessionId : string)
| ChunkData (sessionId : string) (chunkIndex : Z) (chunkType : ChunkManager.MediaType)
| ProcessingData (sessionId : string)
| SessionBody (session : SessionData)
| EventsData (sessionId : string) (eventsCount : nat).

(** [res.json({ success: true, data })] and
    [res.status(code).json({ success: false, error })]. *)
Inductive Response : Type :=
| Json (data : Payload)
| Fail (code : nat) (error : string).




(** [interface UploadChunkRequest], with the file multer has stored:
    [req.file.path] and [req.file.size]. *)
Record ChunkBody : Type := {
  chunk_sessionId : option string;
  chunkIndex : Z;
  chunkType : ChunkManager.MediaType;
  isLastChunk : bool;
  chunk_file : option (string * Z) }.

(** [POST /api/recording/chunk] *)
Definition chunkRoute (body : ChunkBody) (srv : Server) : Response * Server :=
  match chunk_file body with
  | Some (filePath, fileSize) =>
      if negb (ProcessingPipeline.truthy (chunk_sessionId body))
      then (Fail 400 "Missing sessionId or chunk", srv)
      else
        let sessionId := default "" (chunk_sessionId body) in
        let tracked :=
          ChunkManager.addChunk sessionId
            {| ChunkManager.index := chunkIndex body;
               ChunkManager.type := chunkType body;
               ChunkManager.path := filePath;
               ChunkManager.size := fileSize |} (chunks srv) in
        let received :=
          Json (ChunkData sessionId (chunkIndex body) (chunkType body)) in
        if isLastChunk body then
          match ChunkManager.mergeChunks sessionId (chunkType body) tracked with
          | (Threw _, merged) =>
              (Fail 500 "Failed to upload chunk",
               {| store := store srv; chunks := merged; did := did srv |})
          | (Returned mergedPath, merged) =>
              let updates :=
                match chunkType body with
                | ChunkManager.Video => literal [upd_videoPath mergedPath]
                | ChunkManager.Audio => literal [upd_audioPath mergedPath]
                end in
              match updateSession sessionId updates (store srv) with
              | (Threw _, w) =>
                  (Fail 500 "Failed to upload chunk",
                   {| store := w; chunks := merged; did := did srv |})
              | (Returned _, w) =>
                  (received, {| store := w; chunks := merged; did := did srv |})
              end
          end
        else (received, {| store := store srv; chunks := tracked; did := did srv |})
  | None => (Fail 400 "Missing sessionId or chunk", srv)
  end.

(** [POST /api/recording/stop] *)
Definition stopRoute (sessionId : option string) (srv : Server) : Response * Server :=
  if negb (ProcessingPipeline.truthy sessionId)
  then (Fail 400 "Missing sessionId", srv)
  else
    let id := default "" sessionId in
    let now := dateNow (clock (store srv)) in
    match updateSession id (literal [upd_endTime now; upd_status "processing"])
            (store srv) with
    | (Threw _, w) =>
        (Fail 500 "Failed to stop recording",
         {| store := w; chunks := chunks srv; did := did srv |})
    | (Returned _, w) =>
        match getSession id w with
        | None =>
            (Fail 404 "Session not found",
             {| store := w; chunks := chunks srv; did := did srv |})
        | Some session =>
            (Json (ProcessingData id),
             {| store := w; chunks := chunks srv;
                did := did srv ++
                  [Sent (progress
                           (ProcessingPipeline.session_status id "processing"
                              (Some "Recording stopped, starting processing...")))
                        (storeFile w);
                   Spawned session] |})
        end
    end.

(** The body of [PATCH /api/sessions/:id]. *)
Record PatchBody : Type := {
  patch_title : option string;
  patch_description : option string }.

(** [{ ...(title && { title }), ...(description && { description }) }] *)
Definition patchUpdates (body : PatchBody) : SessionUpdates :=
  literal
    ((if ProcessingPipeline.truthy (patch_title body)
      then [upd_title (default "" (patch_title body))] else []) ++
     (if ProcessingPipeline.truthy (patch_description body)
      then [upd_description (default "" (patch_description body))] else [])).

(** [PATCH /api/sessions/:id] *)
Definition patchRoute (id : string) (body : PatchBody) (srv : Server)
  : Response * Server :=
  match updateSession id (patchUpdates body) (store srv) with
  | (Threw _, w) =>
      (Fail 500 "Failed to update session",
       {| store := w; chunks := chunks srv; did := did srv |})
  | (Returned None, w) =>
      (Fail 404 "Session not found",
       {| store := w; chunks := chunks srv; did := did srv |})
  | (Returned (Some session), w) =>
      (Json (SessionBody session),
       {| store := w; chunks := chunks srv; did := did srv |})
  end.

(** What [ChunkManager.saveEventsFile] writes to [dom_events.json]:
    [{ sessionId, events, savedAt }]. *)
Record EventsBackup : Type := {
  backup_sessionId : string;
  backup_events : list json;
  savedAt : string }.

(** [ChunkManager.saveEventsFile]: one [fs.writeFile] of the backup into the
    session's directory, which has to exist. *)
Definition saveEventsFile (sessionId : string) (evs : list json) (w : World)
    (backups : gmap string EventsBackup)
  : Outcome string * gmap string EventsBackup :=
  let sessionDir := path_join (recordingsDir w) sessionId in
  let eventsPath := path_join sessionDir "dom_events.json" in
  if decide (sessionDir ∈ sessionDirs w) then
    (Returned eventsPath,
     <[eventsPath := {| backup_sessionId := sessionId; backup_events := evs;
                        savedAt := isoNow (clock w) |}]> backups)
  else (Threw (IOError "ENOENT"), backups).

(** [interface SaveEventsRequest], as the handler guards it. *)
Record EventsBody : Type := {
  events_sessionId : option string;
  events_batch : option (list json) }.

(** [POST /api/recording/events]; the backups are the [dom_events.json]
    files, by path. *)
Definition eventsRoute (body : EventsBody) (srv : Server)
    (backups : gmap string EventsBackup)
  : Response * Server * gmap string EventsBackup :=
  match events_batch body with
  | Some evs =>
      if negb (ProcessingPipeline.truthy (events_sessionId body))
      then (Fail 400 "Missing sessionId or events", srv, backups)
      else
        let sessionId := default "" (events_sessionId body) in
        match appendEvents sessionId evs (store srv) with
        | (Threw _, w) =>
            (Fail 500 "Failed to save events",
             {| store := w; chunks := chunks srv; did := did srv |}, backups)
        | (Returned _, w) =>
            let srv' := {| store := w; chunks := chunks srv; did := did srv |} in
            match saveEventsFile sessionId evs w backups with
            | (Threw _, backups') => (Fail 500 "Failed to save events", srv', backups')
            | (Returned _, backups') =>
                (Json (EventsData sessionId (length evs)), srv', backups')
            end
        end
  | None => (Fail 400 "Missing sessionId or events", srv, backups)
  end.

(** The member of a session that holds the artifact of a media type. *)
Definition artifactOf (t : ChunkManager.MediaType) (session : SessionData)
  : option string :=
  match t with
  | ChunkManager.Video => videoPath session
  | ChunkManager.Audio => audioPath session
  end.

End Routes.

(** * Properties *)

(** ** Objects as dictionaries *)

Section ObjFacts.
  Context {V : Type}.
  Implicit Types (k : string) (v : V) (o : list (string * V)).

Lemma obj_get_set_eq k v o : obj_get k (obj_set k v o) = Some v.
Proof.
  induction o as [|[k' v'] o IH]; simpl.
  - by rewrite decide_True.
  - destruct (decide (k = k')) as [->|Hne]; simpl.
    + by rewrite decide_True.
    + by rewrite decide_False.
Qed.

Lemma obj_get_set_ne k k' v o : k ≠ k' → obj_get k' (obj_set k v o) = obj_get k' o.
Proof.
  intros Hne. induction o as [|[k0 v0] o IH]; simpl.
  - rewrite decide_False; [done | congruence].
  - destruct (decide (k = k0)) as [->|Hne0]; simpl.
    + rewrite !decide_False; [done | congruence | congruence].
    + by rewrite IH.
Qed.

Lemma obj_get_delete_eq k o : obj_get k (obj_delete k o) = None.
Proof.
  induction o as [|[k' v'] o IH]; simpl; [done|].
  destruct (decide (k = k')) as [->|Hne]; simpl; [done|].
  by rewrite decide_False.
Qed.

Lemma obj_get_delete_ne k k' o : k ≠ k' → obj_get k' (obj_delete k o) = obj_get k' o.
Proof.
  intros Hne. induction o as [|[k0 v0] o IH]; simpl; [done|].
  destruct (decide (k = k0)) as [->|Hne0]; simpl.
  - rewrite decide_False; [done | congruence].
  - by rewrite IH.
Qed.

Lemma obj_set_set k v1 v2 o : obj_set k v2 (obj_set k v1 o) = obj_set k v2 o.
Proof.
  induction o as [|[k' v'] o IH]; simpl.
  - by rewrite decide_True.
  - destruct (decide (k = k')) as [->|Hne]; simpl.
    + by rewrite decide_True.
    + rewrite decide_False; [by rewrite IH | done].
Qed.
End ObjFacts.

Example array_sort_ascending :
  array_sort (λ a b, a - b)%Z [3; 1; 2; 1]%Z = [1; 1; 2; 3]%Z.
Proof. reflexivity. Qed.

(** Equal keys keep the order they came in. *)
Example array_sort_stable :
  array_sort (λ a b : Z * string, a.1 - b.1)%Z
    [(2, "x"); (1, "y"); (2, "z"); (1, "w")]%Z
  = [(1, "y"); (1, "w"); (2, "x"); (2, "z")]%Z.
Proof. reflexivity. Qed.

Example obj_set_keeps_place :
  obj_set "a" 3 [("a", 1); ("b", 2)] = [("a", 3); ("b", 2)] ∧
  obj_set "c" 3 [("a", 1); ("b", 2)] = [("a", 1); ("b", 2); ("c", 3)].
Proof. by split. Qed.

(** ** Session Store *)

Section SessionStoreFacts.
  Import SessionManager Mutations.
  Implicit Types (w : World) (store : SessionsStore) (session : SessionData).

(** The listing is by start time, latest first. *)
Example listSessions_latest_first :
  let store :=
    {| sessions := [("session_1", Samples.session1); ("session_2", Samples.session1')];
       lastUpdated := "t0" |} in
  startTime <$> listSessions (Samples.worldOf (Document store) []) = [2000; 1000]%Z.
Proof. reflexivity. Qed.

Lemma loadSessions_document w store :
  storeFile w = Document store → loadSessions w = store.
Proof. unfold loadSessions. by intros ->. Qed.

Lemma saveSessions_succeeds store w :
  writeFaults w = [] →
  saveSessions store w =
    (Returned (),
     set_storeFile
       (Document {| sessions := sessions store; lastUpdated := isoNow (clock w) |}) w).
Proof. unfold saveSessions, fs_writeFile. by intros ->. Qed.

Lemma fs_rm_frame dir w :
  storeFile (fs_rm dir w) = storeFile w ∧
  writeFaults (fs_rm dir w) = writeFaults w ∧
  clock (fs_rm dir w) = clock w ∧
  recordingsDir (fs_rm dir w) = recordingsDir w ∧
  undeletable (fs_rm dir w) = undeletable w.
Proof. unfold fs_rm. by case_decide. Qed.

Lemma storeFile_fs_rm dir w : storeFile (fs_rm dir w) = storeFile w.
Proof. apply fs_rm_frame. Qed.

Lemma writeFaults_fs_rm dir w : writeFaults (fs_rm dir w) = writeFaults w.
Proof. apply fs_rm_frame. Qed.

Lemma clock_fs_rm dir w : clock (fs_rm dir w) = clock w.
Proof. apply fs_rm_frame. Qed.

Lemma updateSession_found w store id session updates :
  storeFile w = Document store →
  obj_get id (sessions store) = Some session →
  writeFaults w = [] →
  updateSession id updates w =
    (Returned (Some (spread session updates)),
     set_storeFile
       (Document {| sessions := obj_set id (spread session updates) (sessions store);
                    lastUpdated := isoNow (clock w) |}) w).
Proof.
  intros Hfile Hget Hok. unfold updateSession.
  rewrite (loadSessions_document _ _ Hfile), Hget.
  by rewrite saveSessions_succeeds.
Qed.

Lemma updateSession_missing w id updates :
  getSession id w = None → updateSession id updates w = (Returned None, w).
Proof. unfold getSession, updateSession. by intros ->. Qed.

Lemma appendEvents_found w store id session evs :
  storeFile w = Document store →
  obj_get id (sessions store) = Some session →
  writeFaults w = [] →
  appendEvents id evs w =
    (Returned (),
     set_storeFile
       (Document
          {| sessions :=
               obj_set id (set_events (default [] (events session) ++ evs) session)
                 (sessions store);
             lastUpdated := isoNow (clock w) |}) w).
Proof.
  intros Hfile Hget Hok. unfold appendEvents.
  rewrite (loadSessions_document _ _ Hfile), Hget.
  by rewrite saveSessions_succeeds.
Qed.

Lemma getSession_document w store id :
  storeFile w = Document store → getSession id w = obj_get id (sessions store).
Proof. intros H. unfold getSession. by rewrite (loadSessions_document _ _ H). Qed.

Lemma updateSession_read_write id updates w :
  updateSession id updates w
    = updateSession_write (updateSession_read id updates w) w.
Proof.
  unfold updateSession, updateSession_read, updateSession_write.
  by destruct (obj_get id (sessions (loadSessions w))).
Qed.

Lemma updateSession_read_found w store id session updates :
  storeFile w = Document store →
  obj_get id (sessions store) = Some session →
  updateSession_read id updates w =
    Some ({| sessions := obj_set id (spread session updates) (sessions store);
             lastUpdated := lastUpdated store |}, spread session updates).
Proof.
  intros Hfile Hget. unfold updateSession_read.
  by rewrite (loadSessions_document _ _ Hfile), Hget.
Qed.

Lemma updateSession_read_missing w id updates :
  getSession id w = None → updateSession_read id updates w = None.
Proof. unfold getSession, updateSession_read. by intros ->. Qed.

Lemma updateSession_write_succeeds w store session :
  writeFaults w = [] →
  updateSession_write (Some (store, session)) w =
    (Returned (Some session),
     set_storeFile
       (Document {| sessions := sessions store; lastUpdated := isoNow (clock w) |}) w).
Proof. intros Hok. unfold updateSession_write. by rewrite saveSessions_succeeds. Qed.

(** A call that returns null is one that had found no record, and it has
    written nothing. *)
Lemma updateSession_write_null merged w w' :
  updateSession_write merged w = (Returned None, w') → merged = None ∧ w' = w.
Proof.
  unfold updateSession_write. destruct merged as [[store session]|].
  - by destruct (saveSessions store w) as [[[]|e] w1].
  - by intros [= <-].
Qed.




Lemma createSession_succeeds w session :
  writeFaults w = [] →
  createSession session w =
    (Returned session,
     set_storeFile
       (Document
          {| sessions := obj_set (sessionId session) session (sessions (loadSessions w));
             lastUpdated := isoNow (clock w) |}) w).
Proof. intros Hok. unfold createSession. by rewrite saveSessions_succeeds. Qed.

(** C2 (as the code has it). [createSession] has no duplicate check: for an
    id that already has a record it succeeds, returns the session it was
    given, and the stored record for that id is replaced by it; the other
    sessions are untouched. *)
Theorem createSession_replaces_existing w store session old :
  storeFile w = Document store →
  obj_get (sessionId session) (sessions store) = Some old →
  writeFaults w = [] →
  let r := createSession session w in
  r.1 = Returned session ∧
  getSession (sessionId session) r.2 = Some session ∧
  (∀ id, id ≠ sessionId session → getSession id r.2 = getSession id w).
Proof.
  intros Hfile Hold Hok r. subst r. rewrite createSession_succeeds by done.
  rewrite (loadSessions_document _ _ Hfile). simpl. split_and!; [done | |].
  - erewrite getSession_document by reflexivity. apply obj_get_set_eq.
  - intros id Hne. erewrite getSession_document by reflexivity. simpl.
    rewrite obj_get_set_ne by done. symmetry. by apply getSession_document.
Qed.

Lemma createSession_replaces_existing_witness :
  let w := Samples.worldOf (Document Samples.store1) [] in
  let r := createSession Samples.session1' w in
  storeFile w = Document Samples.store1 ∧
  obj_get (sessionId Samples.session1') (sessions Samples.store1)
    = Some Samples.session1 ∧
  writeFaults w = [] ∧
  r.1 = Returned Samples.session1' ∧
  getSession "session_1" r.2 = Some Samples.session1'.
Proof.
  intros w r.
  destruct (createSession_replaces_existing w Samples.store1 Samples.session1'
              Samples.session1 eq_refl eq_refl eq_refl) as (H1 & H2 & _).
  by split_and!.
Defined.

(** C2 (as the specification has it) fails: creating a session under an id
    that is already stored raises nothing and the stored record changes. *)
Lemma createSession_duplicate_not_rejected :
  let w := Samples.worldOf (Document Samples.store1) [] in
  let r := createSession Samples.session1' w in
  getSession "session_1" w = Some Samples.session1 ∧
  r.1 = Returned Samples.session1' ∧
  getSession "session_1" r.2 ≠ getSession "session_1" w.
Proof. split_and!; [done | done | discriminate]. Qed.

(** C9. On an existing session, appending the events [ab] and then the
    events [c] leaves the store exactly as appending [ab ++ c] in one call
    does, and the stored sequence is the old one followed by [ab ++ c]; so
    [[a; b]] then [[c]] gives what [[a; b; c]] gives. *)
Theorem appendEvents_assoc w store id session (ab c : list json) :
  storeFile w = Document store →
  obj_get id (sessions store) = Some session →
  writeFaults w = [] →
  let twice := appendEvents id c (appendEvents id ab w).2 in
  let once := appendEvents id (ab ++ c) w in
  twice = once ∧
  once.1 = Returned () ∧
  (events <$> getSession id once.2)
    = Some (Some (default [] (events session) ++ ab ++ c)).
Proof.
  intros Hfile Hget Hok twice once. subst twice once.
  rewrite !(appendEvents_found _ _ _ _ _ Hfile Hget Hok). simpl.
  erewrite appendEvents_found; [| reflexivity | apply obj_get_set_eq | exact Hok].
  simpl. rewrite obj_set_set, <- (assoc_L (++)). split_and!; [done | done |].
  erewrite getSession_document by reflexivity. simpl. by rewrite obj_get_set_eq.
Qed.

Lemma appendEvents_assoc_witness :
  let w := Samples.worldOf (Document Samples.storeStopped) [] in
  let a := JStr "a" in let b := JStr "b" in let c := JStr "c" in
  storeFile w = Document Samples.storeStopped ∧
  obj_get "session_1" (sessions Samples.storeStopped) = Some Samples.stopped1 ∧
  writeFaults w = [] ∧
  appendEvents "session_1" [c] (appendEvents "session_1" [a; b] w).2
    = appendEvents "session_1" [a; b; c] w.
Proof.
  intros w a b c.
  destruct (appendEvents_assoc w Samples.storeStopped "session_1" Samples.stopped1
              [a; b] [c] eq_refl eq_refl eq_refl) as (H & _).
  split_and!; [done | done | done | exact H].
Defined.

Lemma loadSessions_unavailable w :
  parses (storeFile w) = false →
  loadSessions w = {| sessions := []; lastUpdated := isoNow (clock w) |}.
Proof. unfold loadSessions. by destruct (storeFile w). Qed.

Lemma saveSessions_fault store w fault rest :
  writeFaults w = fault :: rest →
  saveSessions store w =
    match fault with
    | WriteOk =>
        (Returned (),
         set_writeFaults rest
           (set_storeFile
              (Document {| sessions := sessions store;
                           lastUpdated := isoNow (clock w) |}) w))
    | FailAtOpen => (Threw (IOError "EACCES"), set_writeFaults rest w)
    | FailMidway =>
        (Threw (IOError "ENOSPC"), set_writeFaults rest (set_storeFile Unparseable w))
    end.
Proof. unfold saveSessions, fs_writeFile. intros ->. by destruct fault. Qed.

(** C6 (as the code has it). Every mutation that gets as far as persisting
    does so with one [fs.writeFile] on the store file itself: when the
    write succeeds the file holds a document; when it fails before the file
    is opened the file is as it was; when it fails after the file was
    truncated the mutation throws and the file no longer parses, so that
    every session reads as missing and the listing is empty. *)
Theorem mutation_writes_store_file_in_place (m : Mutation) w fault rest :
  writeFaults w = fault :: rest →
  persists m w = true →
  let r := run m w in
  match fault with
  | WriteOk => r.1 = Returned () ∧ ∃ store, storeFile r.2 = Document store
  | FailAtOpen => (∃ e, r.1 = Threw e) ∧ storeFile r.2 = storeFile w
  | FailMidway =>
      (∃ e, r.1 = Threw e) ∧ storeFile r.2 = Unparseable ∧
      (∀ id, getSession id r.2 = None) ∧ listSessions r.2 = []
  end.
Proof.
  intros Hfaults Hp r. subst r.
  assert (∀ store : SessionsStore,
    let r := saveSessions store w in
    match fault with
    | WriteOk => (r.1 = Returned () ∧ ∃ store', storeFile r.2 = Document store')
    | FailAtOpen => (∃ e, r.1 = Threw e) ∧ storeFile r.2 = storeFile w
    | FailMidway =>
        (∃ e, r.1 = Threw e) ∧ storeFile r.2 = Unparseable ∧
        (∀ id, getSession id r.2 = None) ∧ listSessions r.2 = []
    end) as Hsave.
  { intros store. rewrite (saveSessions_fault _ _ _ _ Hfaults).
    destruct fault; simpl; eauto 6. }
  destruct m as [session | id updates | id evs | id]; simpl in *.
  - unfold createSession. specialize (Hsave
      {| sessions := obj_set (sessionId session) session (sessions (loadSessions w));
         lastUpdated := lastUpdated (loadSessions w) |}).
    simpl in Hsave. destruct (saveSessions _ w) as [[[]|e] w1]; simpl in *; exact Hsave.
  - apply bool_decide_eq_true in Hp as [session Hs]. unfold getSession in Hs.
    unfold updateSession. rewrite Hs.
    specialize (Hsave
      {| sessions := obj_set id (spread session updates) (sessions (loadSessions w));
         lastUpdated := lastUpdated (loadSessions w) |}).
    simpl in Hsave. destruct (saveSessions _ w) as [[[]|e] w1]; simpl in *; exact Hsave.
  - apply bool_decide_eq_true in Hp as [session Hs]. unfold getSession in Hs.
    unfold appendEvents. rewrite Hs. apply Hsave.
  - apply bool_decide_eq_true in Hp as [session Hs]. unfold getSession in Hs.
    unfold deleteSession. rewrite Hs.
    rewrite <- (writeFaults_fs_rm (path_join (recordingsDir w) id)) in Hfaults.
    pose proof (saveSessions_fault
      {| sessions := obj_delete id (sessions (loadSessions w));
         lastUpdated := lastUpdated (loadSessions w) |}
      (fs_rm (path_join (recordingsDir w) id) w) fault rest Hfaults) as ->.
    destruct fault; simpl; rewrite ?storeFile_fs_rm; eauto 6.
Qed.

Lemma mutation_writes_store_file_in_place_witness :
  let w := Samples.worldOf (Document Samples.store1) [FailMidway] in
  let m := Patch "session_1" (literal [upd_status "processing"]) in
  writeFaults w = [FailMidway] ∧
  persists m w = true ∧
  (∃ e, (run m w).1 = Threw e) ∧
  storeFile (run m w).2 = Unparseable ∧
  (∀ id, getSession id (run m w).2 = None) ∧
  listSessions (run m w).2 = [].
Proof.
  intros w m. split; [done|]. split; [done|].
  exact (mutation_writes_store_file_in_place m w FailMidway [] eq_refl eq_refl).
Defined.

(** C6 (as the specification has it) fails: a write of the store that fails
    partway throws and leaves the store file different from what it held;
    the session that was stored can no longer be read. *)
Lemma failed_write_destroys_store_file :
  let w := Samples.worldOf (Document Samples.store1) [FailMidway] in
  let r := updateSession "session_1" (literal [upd_status "processing"]) w in
  getSession "session_1" w = Some Samples.session1 ∧
  r.1 = Threw (IOError "ENOSPC") ∧
  storeFile r.2 ≠ storeFile w ∧
  getSession "session_1" r.2 = None.
Proof. split_and!; [done | done | discriminate | done]. Qed.

(** For an id that names no inherited member, the lookup of the code is
    the lookup among the own keys. *)
Lemma getSession_not_inherited id w :
  Inherited.inherited id = false →
  Inherited.getSession id w =
    match getSession id w with
    | Some session => Inherited.Stored session
    | None => Inherited.Undefined
    end.
Proof.
  intros Hown. unfold Inherited.getSession, Inherited.member, getSession.
  by rewrite Hown.
Qed.

Lemma deleteSession_not_inherited id w :
  Inherited.inherited id = false →
  Inherited.deleteSession id w = deleteSession id w.
Proof.
  intros Hown. unfold Inherited.deleteSession, Inherited.member, deleteSession.
  rewrite Hown. by destruct (obj_get id (sessions (loadSessions w))).
Qed.

Lemma getSession_undefined id w :
  Inherited.getSession id w = Inherited.Undefined ↔
  getSession id w = None ∧ Inherited.inherited id = false.
Proof.
  unfold Inherited.getSession, Inherited.member, getSession.
  destruct (obj_get id (sessions (loadSessions w)));
    [split; [done | by intros [? _]]|].
  destruct (Inherited.inherited id); split; try done; by intros [_ ?].
Qed.

(** C10, and where the code departs from it.  When the store file is
    absent, cannot be read or does not parse, no operation reports a
    storage failure and every method reads what it would read from a file
    holding an empty store: the listing is empty, and a [createSession]
    whose write succeeds leaves a store that holds the new session alone.
    For an id that names no member of [Object.prototype] every lookup
    answers as on an empty store: [getSession] gives null, [deleteSession]
    false, [updateSession] null, [appendEvents] its not-found error, none
    of them touching the file.  For an id that does name one - ["constructor"],
    ["toString"], ["__proto__"] ... - the lookup finds the inherited
    member: [getSession] gives it back instead of null, and
    [deleteSession] goes through, writes a store file with no session in it
    and returns true. *)
Theorem unavailable_store_finds_inherited_ids w :
  parses (storeFile w) = false →
  (let empty :=
     set_storeFile
       (Document {| sessions := []; lastUpdated := isoNow (clock w) |}) w in
   loadSessions w = loadSessions empty ∧
   ∀ id, Inherited.getSession id w = Inherited.getSession id empty ∧
         (Inherited.deleteSession id w).1 = (Inherited.deleteSession id empty).1) ∧
  listSessions w = [] ∧
  (∀ session,
     writeFaults w = [] →
     createSession session w =
       (Returned session,
        set_storeFile
          (Document {| sessions := [(sessionId session, session)];
                       lastUpdated := isoNow (clock w) |}) w)) ∧
  (∀ id,
     Inherited.inherited id = false →
     Inherited.getSession id w = Inherited.Undefined ∧
     Inherited.deleteSession id w = (Returned false, w) ∧
     (∀ updates, updateSession id updates w = (Returned None, w)) ∧
     (∀ evs,
        appendEvents id evs w
          = (Threw (Error ("Session " +:+ id +:+ " not found")), w))) ∧
  (∀ id,
     Inherited.inherited id = true →
     Inherited.getSession id w = Inherited.Builtin id ∧
     (writeFaults w = [] →
      (Inherited.deleteSession id w).1 = Returned true ∧
      storeFile (Inherited.deleteSession id w).2 =
        Document {| sessions := []; lastUpdated := isoNow (clock w) |})).
Proof.
  intros Hun. pose proof (loadSessions_unavailable _ Hun) as Hload.
  split; [|split_and!].
  - cbv zeta. split; [by rewrite Hload|]. intros id. split.
    + unfold Inherited.getSession. by rewrite Hload.
    + unfold Inherited.deleteSession, Inherited.member. rewrite Hload. simpl.
      destruct (Inherited.inherited id); [|done].
      unfold saveSessions, fs_writeFile. rewrite !writeFaults_fs_rm. simpl.
      by destruct (writeFaults w) as [|[] ?].
  - unfold listSessions. by rewrite Hload.
  - intros session Hok. rewrite createSession_succeeds by done. by rewrite Hload.
  - intros id Hown. split_and!.
    + unfold Inherited.getSession, Inherited.member. by rewrite Hload, Hown.
    + unfold Inherited.deleteSession, Inherited.member. by rewrite Hload, Hown.
    + intros updates. unfold updateSession. by rewrite Hload.
    + intros evs. unfold appendEvents. by rewrite Hload.
  - intros id Hinh. split.
    + unfold Inherited.getSession, Inherited.member. by rewrite Hload, Hinh.
    + intros Hok. unfold Inherited.deleteSession, Inherited.member.
      rewrite Hload, Hinh. simpl.
      rewrite saveSessions_succeeds by (by rewrite writeFaults_fs_rm).
      simpl. by rewrite clock_fs_rm.
Qed.

Lemma unavailable_store_finds_inherited_ids_witness :
  let w := Samples.worldOf Absent [] in
  parses (storeFile w) = false ∧
  Inherited.inherited "session_1" = false ∧
  Inherited.getSession "session_1" w = Inherited.Undefined ∧
  Inherited.deleteSession "session_1" w = (Returned false, w) ∧
  Inherited.inherited "constructor" = true ∧
  Inherited.getSession "constructor" w = Inherited.Builtin "constructor" ∧
  (Inherited.deleteSession "constructor" w).1 = Returned true ∧
  storeFile (Inherited.deleteSession "constructor" w).2 =
    Document {| sessions := []; lastUpdated := "t1" |}.
Proof.
  intros w.
  destruct (unavailable_store_finds_inherited_ids w eq_refl)
    as (_ & _ & _ & Hown & Hinh).
  destruct (Hown "session_1" eq_refl) as (H1 & H2 & _).
  destruct (Hinh "constructor" eq_refl) as (H3 & H4).
  destruct (H4 eq_refl) as (H5 & H6).
  split_and!; [reflexivity | reflexivity | exact H1 | exact H2 | reflexivity
              | exact H3 | exact H5 | exact H6].
Defined.

(** The sessions a store held before a write failed partway are gone for
    good once the next [createSession] succeeds. *)
Remark sessions_lost_after_failed_write :
  let w := Samples.worldOf (Document Samples.store1) [FailMidway] in
  let w1 := (updateSession "session_1" (literal [upd_status "processing"]) w).2 in
  let other :=
    {| sessionId := "session_2"; url := "https://example.org";
       viewport := {| width := 1; height := 1 |}; startTime := 3000%Z;
       endTime := None; events := Some []; videoPath := None; audioPath := None;
       status := "recording"; title := None; description := None;
       transcription := None; refinedScript := None;
       synthesizedAudioPath := None; processedAt := None; error := None |} in
  let w2 := (createSession other w1).2 in
  getSession "session_1" w = Some Samples.session1 ∧
  sessions (loadSessions w2) = [("session_2", other)].
Proof. by split. Qed.

End SessionStoreFacts.

(** ** Chunk Aggregator *)

Section ChunkManagerFacts.
  Import ChunkManager.
  Implicit Types (st : State) (chunk : ChunkInfo) (t : MediaType).

Lemma tracked_addChunk id chunk st :
  tracked id (type chunk) (addChunk id chunk st) =
    array_sort (λ a b, index a - index b)%Z (tracked id (type chunk) st ++ [chunk]).
Proof.
  unfold tracked, addChunk.
  destruct (chunksMap st !! id) as [sc|] eqn:Hsc.
  - rewrite Hsc. simpl. rewrite lookup_insert_eq. by destruct (type chunk).
  - rewrite lookup_insert_eq. simpl. rewrite lookup_insert_eq. by destruct (type chunk).
Qed.

Lemma files_addChunk id chunk st : files (addChunk id chunk st) = files st.
Proof. unfold addChunk. by repeat case_match. Qed.

Lemma recordingsDir_addChunk id chunk st :
  recordingsDir (addChunk id chunk st) = recordingsDir st.
Proof. unfold addChunk. by repeat case_match. Qed.

(** With nothing tracked, [mergeChunks] throws its no-chunks error and
    touches neither the files nor the map. *)
Lemma mergeChunks_nothing_tracked id t st :
  tracked id t st = [] → mergeChunks id t st = (Threw (noChunks t id), st).
Proof.
  unfold tracked, mergeChunks. destruct (chunksMap st !! id) as [sc|]; [|done].
  by intros ->.
Qed.

Lemma mergeChunks_single id t st sc chunk :
  chunksMap st !! id = Some sc →
  chunksOf t sc = [chunk] →
  mergeChunks id t st =
    match fs_rename (path chunk) (outputPathOf (recordingsDir st) id t) (files st) with
    | (Returned _, fs) => (Returned (outputPathOf (recordingsDir st) id t), set_files fs st)
    | (Threw e, fs) => (Threw e, set_files fs st)
    end.
Proof. unfold mergeChunks. by intros -> ->. Qed.

Lemma mergeChunks_several id t st sc c1 c2 rest :
  chunksMap st !! id = Some sc →
  chunksOf t sc = c1 :: c2 :: rest →
  mergeChunks id t st =
    let outputPath := outputPathOf (recordingsDir st) id t in
    match pipeChunks outputPath (c1 :: c2 :: rest) (<[outputPath := []]> (files st)) with
    | (Returned _, fs) =>
        (Returned outputPath,
         set_chunksMap (<[id := set_chunksOf t [] sc]> (chunksMap st)) (set_files fs st))
    | (Threw e, fs) => (Threw e, set_files fs st)
    end.
Proof. unfold mergeChunks. by intros -> ->. Qed.

(** A merge of several chunks that succeeds clears the tracked set, so the
    same merge asked again finds nothing. *)
Lemma mergeChunks_several_then_nothing id t st sc c1 c2 rest out st' :
  chunksMap st !! id = Some sc →
  chunksOf t sc = c1 :: c2 :: rest →
  mergeChunks id t st = (Returned out, st') →
  tracked id t st' = [] ∧ mergeChunks id t st' = (Threw (noChunks t id), st').
Proof.
  intros Hsc Hchunks. erewrite mergeChunks_several by done. cbv zeta.
  match goal with
  | |- context [pipeChunks ?o ?cs ?fs0] =>
      destruct (pipeChunks o cs fs0) as [[[]|e] fs]; [|done]
  end.
  intros [= <- <-].
  assert (tracked id t
            (set_chunksMap (<[id:=set_chunksOf t [] sc]> (chunksMap st))
               (set_files fs st)) = []) as Hnone.
  { unfold tracked. simpl. rewrite lookup_insert_eq. by destruct t. }
  split; [done|]. by apply mergeChunks_nothing_tracked.
Qed.

Lemma chunk_files_kept (fs fs' : gmap string (list Byte.byte)) chunks payloads :
  (∀ chunk, chunk ∈ chunks → fs' !! path chunk = fs !! path chunk) →
  Forall2 (λ chunk data, fs !! path chunk = Some data) chunks payloads →
  Forall2 (λ chunk data, fs' !! path chunk = Some data) chunks payloads.
Proof.
  intros Hsame Hfiles. induction Hfiles as [|chunk data chunks payloads Hdata _ IH].
  - constructor.
  - constructor.
    + rewrite Hsame; [done | apply elem_of_cons; by left].
    + apply IH. intros c Hc. apply Hsame. apply elem_of_cons. by right.
Qed.

(** The loop of the merge, on chunk files that are all there and all
    different from one another and from the output: the output grows by the
    payloads in the order of the list, and the chunk files are gone. *)
Lemma pipeChunks_concat out chunks (payloads : list (list Byte.byte)) fs written :
  NoDup (out :: (path <$> chunks)) →
  Forall2 (λ chunk data, fs !! path chunk = Some data) chunks payloads →
  fs !! out = Some written →
  ∃ fs',
    pipeChunks out chunks fs = (Returned (), fs') ∧
    fs' !! out = Some (written ++ concat payloads) ∧
    (∀ chunk, chunk ∈ chunks → fs' !! path chunk = None) ∧
    (∀ p, p ≠ out → p ∉ (path <$> chunks) → fs' !! p = fs !! p).
Proof.
  revert payloads fs written.
  induction chunks as [|chunk chunks IH]; intros payloads fs written Hnd Hfiles Hout.
  - apply Forall2_nil_inv_l in Hfiles as ->.
    exists fs. simpl. rewrite app_nil_r. split_and!; [done | done | | done].
    intros chunk Hin. by apply elem_of_nil in Hin.
  - apply Forall2_cons_inv_l in Hfiles as (data & payloads' & Hdata & Hrest & ->).
    simpl in *. apply NoDup_cons in Hnd as [Hout_notin Hnd].
    apply NoDup_cons in Hnd as [Hchunk_notin Hnd].
    apply not_elem_of_cons in Hout_notin as [Hne Hout_notin].
    rewrite Hdata, Hout. simpl.
    destruct (IH payloads' (delete (path chunk) (<[out:=written ++ data]> fs))
                (written ++ data))
      as (fs' & Hrun & Hcontent & Hgone & Hother).
    + by apply NoDup_cons.
    + apply (chunk_files_kept fs); [|done].
      intros c Hc.
      assert (path c ∈ path <$> chunks) as Hpc by (by apply list_elem_of_fmap_2).
      rewrite lookup_delete_ne by (intros Heq; by rewrite Heq in Hchunk_notin).
      rewrite lookup_insert_ne; [done|].
      intros Heq. by rewrite Heq in Hout_notin.
    + rewrite lookup_delete_ne by done. apply lookup_insert_eq.
    + exists fs'. rewrite Hrun. split_and!; [done | | |].
      * by rewrite Hcontent, <- (assoc_L (++)).
      * intros c [->|Hin]%elem_of_cons; [|by apply Hgone].
        rewrite Hother; [apply lookup_delete_eq | done | done].
      * intros p Hp Hnotin. apply not_elem_of_cons in Hnotin as [Hp' Hnotin].
        rewrite Hother by done.
        rewrite lookup_delete_ne by done. by rewrite lookup_insert_ne.
Qed.

(** The single-chunk branch returns before the tracked set is cleared. *)
Lemma mergeChunks_single_keeps_tracked id t st sc chunk data :
  chunksMap st !! id = Some sc →
  chunksOf t sc = [chunk] →
  files st !! path chunk = Some data →
  let out := outputPathOf (recordingsDir st) id t in
  let r := mergeChunks id t st in
  r.1 = Returned out ∧
  files r.2 !! out = Some data ∧
  tracked id t r.2 = [chunk].
Proof.
  intros Hsc Hchunks Hdata out r. subst r.
  erewrite mergeChunks_single by done. unfold fs_rename. rewrite Hdata. simpl.
  split_and!; [done | apply lookup_insert_eq |].
  unfold tracked. simpl. by rewrite Hsc.
Qed.

(** C3, at the input where the code departs from it.  One video chunk is
    tracked and merged: the merge succeeds by renaming the chunk file, but
    the chunk is still tracked afterwards, and the same merge asked again
    does not fail with the no-chunks error: it tries to rename the file that
    is no longer there and fails with the file system's error. *)
Theorem mergeChunks_single_chunk_stays_tracked :
  let st := addChunk "session_1" Samples.chunk0 Samples.uploaded in
  let r1 := mergeChunks "session_1" Video st in
  let r2 := mergeChunks "session_1" Video r1.2 in
  tracked "session_1" Video st = [Samples.chunk0] ∧
  r1.1 = Returned "/rec/session_1/recording_video.webm" ∧
  tracked "session_1" Video r1.2 = [Samples.chunk0] ∧
  r2.1 = Threw (IOError "ENOENT") ∧
  r2.1 ≠ Threw (noChunks Video "session_1").
Proof.
  cbv zeta. split_and!; [by vm_compute.. |].
  vm_compute. discriminate.
Qed.

Lemma files_addChunks id arrival st :
  files (foldl (λ s chunk, addChunk id chunk s) st arrival) = files st.
Proof.
  revert st. induction arrival as [|chunk arrival IH]; intros st; simpl; [done|].
  by rewrite IH, files_addChunk.
Qed.

Lemma recordingsDir_addChunks id arrival st :
  recordingsDir (foldl (λ s chunk, addChunk id chunk s) st arrival) = recordingsDir st.
Proof.
  revert st. induction arrival as [|chunk arrival IH]; intros st; simpl; [done|].
  by rewrite IH, recordingsDir_addChunk.
Qed.

Lemma tracked_addChunk_of id t chunk st :
  type chunk = t →
  tracked id t (addChunk id chunk st) =
    array_sort (λ a b, index a - index b)%Z (tracked id t st ++ [chunk]).
Proof. intros <-. apply tracked_addChunk. Qed.

(** Whatever the order in which chunks 0, 1 and 2 arrive, they are tracked
    in the order of their indices. *)
Lemma tracked_three_sorted id t st c0 c1 c2 arrival :
  index c0 = 0%Z → index c1 = 1%Z → index c2 = 2%Z →
  type c0 = t → type c1 = t → type c2 = t →
  tracked id t st = [] →
  arrival ≡ₚ [c0; c1; c2] →
  tracked id t (foldl (λ s chunk, addChunk id chunk s) st arrival) = [c0; c1; c2].
Proof.
  intros Hi0 Hi1 Hi2 Ht0 Ht1 Ht2 Hnone Hperm.
  symmetry in Hperm. apply permutations_Permutation in Hperm. simpl in Hperm.
  repeat (apply elem_of_cons in Hperm as [->|Hperm]);
    [.. | by apply elem_of_nil in Hperm];
    simpl; rewrite !tracked_addChunk_of by done; rewrite Hnone;
    unfold array_sort; simpl; rewrite ?Hi0, ?Hi1, ?Hi2; simpl;
    rewrite ?Hi0, ?Hi1, ?Hi2; simpl; rewrite ?Hi0, ?Hi1, ?Hi2; done.
Qed.

(** C4. Chunks with indices 0, 1 and 2, of one media type, handed to
    [addChunk] in any order for a session that tracks none of that type,
    their files being on disk under names that differ from one another and
    from the artifact's: [mergeChunks] then returns the artifact's path, the
    artifact holds the payload of chunk 0, then of chunk 1, then of chunk 2,
    the chunk files are deleted and nothing remains tracked. *)
Theorem mergeChunks_three_in_any_order id t st c0 c1 c2 p0 p1 p2 arrival :
  index c0 = 0%Z → index c1 = 1%Z → index c2 = 2%Z →
  type c0 = t → type c1 = t → type c2 = t →
  tracked id t st = [] →
  arrival ≡ₚ [c0; c1; c2] →
  files st !! path c0 = Some p0 →
  files st !! path c1 = Some p1 →
  files st !! path c2 = Some p2 →
  NoDup [outputPathOf (recordingsDir st) id t; path c0; path c1; path c2] →
  let out := outputPathOf (recordingsDir st) id t in
  let r := mergeChunks id t (foldl (λ s chunk, addChunk id chunk s) st arrival) in
  r.1 = Returned out ∧
  files r.2 !! out = Some (p0 ++ p1 ++ p2) ∧
  (∀ chunk, chunk ∈ [c0; c1; c2] → files r.2 !! path chunk = None) ∧
  tracked id t r.2 = [].
Proof.
  intros Hi0 Hi1 Hi2 Ht0 Ht1 Ht2 Hnone Hperm Hp0 Hp1 Hp2 Hnd out r. subst r.
  pose proof (tracked_three_sorted id t st c0 c1 c2 arrival
                Hi0 Hi1 Hi2 Ht0 Ht1 Ht2 Hnone Hperm) as Htracked.
  set (st' := foldl (λ s chunk, addChunk id chunk s) st arrival) in *.
  assert (files st' = files st) as Hfiles by apply files_addChunks.
  assert (recordingsDir st' = recordingsDir st) as Hdir by apply recordingsDir_addChunks.
  unfold tracked in Htracked.
  destruct (chunksMap st' !! id) as [sc|] eqn:Hsc; [|done].
  erewrite mergeChunks_several by done. cbv zeta. rewrite Hdir, Hfiles. fold out.
  destruct (pipeChunks_concat out [c0; c1; c2] [p0; p1; p2]
              (<[out:=[]]> (files st)) [])
    as (fs' & Hrun & Hcontent & Hgone & _).
  - exact Hnd.
  - apply NoDup_cons in Hnd as [Hout _].
    apply not_elem_of_cons in Hout as [? Hout].
    apply not_elem_of_cons in Hout as [? Hout].
    apply not_elem_of_cons in Hout as [? _].
    repeat constructor; by rewrite lookup_insert_ne.
  - apply lookup_insert_eq.
  - rewrite Hrun. simpl. split_and!; [done | | done |].
    + rewrite Hcontent. simpl. by rewrite app_nil_r.
    + unfold tracked. simpl. rewrite lookup_insert_eq. by destruct t.
Qed.

Lemma mergeChunks_three_in_any_order_witness :
  let st := Samples.uploaded in
  let arrival := [Samples.chunk2; Samples.chunk0; Samples.chunk1] in
  let r := mergeChunks "session_1" Video
             (foldl (λ s chunk, addChunk "session_1" chunk s) st arrival) in
  tracked "session_1" Video st = [] ∧
  arrival ≡ₚ [Samples.chunk0; Samples.chunk1; Samples.chunk2] ∧
  NoDup [outputPathOf (recordingsDir st) "session_1" Video;
         path Samples.chunk0; path Samples.chunk1; path Samples.chunk2] ∧
  r.1 = Returned "/rec/session_1/recording_video.webm" ∧
  files r.2 !! "/rec/session_1/recording_video.webm"
    = Some (Samples.payload0 ++ Samples.payload1 ++ Samples.payload2).
Proof.
  intros st arrival r.
  assert (arrival ≡ₚ [Samples.chunk0; Samples.chunk1; Samples.chunk2]) as Hperm
    by exact (Permutation_app_comm [Samples.chunk2] [Samples.chunk0; Samples.chunk1]).
  assert (NoDup [outputPathOf (recordingsDir st) "session_1" Video;
                 path Samples.chunk0; path Samples.chunk1; path Samples.chunk2])
    as Hnd by (apply (bool_decide_unpack _); vm_compute; exact I).
  destruct (mergeChunks_three_in_any_order "session_1" Video st
              Samples.chunk0 Samples.chunk1 Samples.chunk2
              Samples.payload0 Samples.payload1 Samples.payload2 arrival
              eq_refl eq_refl eq_refl eq_refl eq_refl eq_refl eq_refl Hperm
              eq_refl eq_refl eq_refl Hnd) as (H1 & H2 & _).
  split_and!; [reflexivity | exact Hperm | exact Hnd | exact H1 | exact H2].
Defined.

End ChunkManagerFacts.

(** ** Processing Pipeline *)

Section PipelineFacts.
  Import SessionManager ProcessingPipeline Observations.
  Implicit Types (pw : PWorld) (w : World) (tr : list Action) (a : Action).

(** *** Composition *)

Lemma preserves_ret {A} I (x : A) : preserves I (ret x).
Proof. by intros pw. Qed.

Lemma preserves_throw {A} I e : preserves I (throw (A:=A) e).
Proof. by intros pw. Qed.

Lemma preserves_await {A} I (o : Outcome A) : preserves I (await o).
Proof. destruct o; [apply preserves_ret | apply preserves_throw]. Qed.

Lemma preserves_toISOString I : preserves I toISOString.
Proof. by intros pw. Qed.

Lemma preserves_bind {A B} I (m : M A) (k : A → M B) :
  preserves I m → (∀ x, preserves I (k x)) → preserves I (bind m k).
Proof.
  intros Hm Hk pw Hpw. unfold bind. specialize (Hm pw Hpw).
  destruct (m pw) as [[x|e] pw']; simpl in *; [by apply Hk | done].
Qed.

Lemma preserves_try_catch {A} I (body : M A) handler :
  preserves I body → (∀ e, preserves I (handler e)) → preserves I (try_catch body handler).
Proof.
  intros Hm Hk pw Hpw. unfold try_catch. specialize (Hm pw Hpw).
  destruct (body pw) as [[x|e] pw']; simpl in *; [done | by apply Hk].
Qed.

(** *** After a deletion *)

Lemma afterDeletion_snoc id tr a :
  afterDeletion id (tr ++ [a]) =
    match afterDeletion id tr with
    | Some (f, post) => Some (f, post ++ [a])
    | None => afterDeletion id [a]
    end.
Proof.
  induction tr as [|a' tr IH]; [done|].
  destruct a' as [[] ?| | | |]; simpl; try done.
  by case_decide.
Qed.

Lemma deleteSession_true id w w' :
  deleteSession id w = (Returned true, w') → getSession id w' = None.
Proof.
  unfold deleteSession. destruct (obj_get id (sessions (loadSessions w))); [|done].
  unfold saveSessions, fs_writeFile. rewrite writeFaults_fs_rm. simpl.
  destruct (writeFaults w) as [|[] rest]; simpl; intros [= <-]; try done;
    unfold getSession; simpl; apply obj_get_delete_eq.
Qed.

Lemma firstUpdate_snoc tr a :
  firstUpdate (tr ++ [a]) =
    match firstUpdate tr with
    | Some result => Some result
    | None => firstUpdate [a]
    end.
Proof. induction tr as [|a' tr IH]; [done|]. by destruct a'. Qed.

Lemma betweenCalls_snoc post a :
  firstUpdate [a] = None → betweenCalls (post ++ [a]) ↔ betweenCalls post.
Proof.
  intros Hnot. unfold betweenCalls. rewrite firstUpdate_snoc, Hnot.
  by destruct (firstUpdate post).
Qed.

Lemma deletionInv_log id a :
  (∀ f, quiet f a) → firstUpdate [a] = None → afterDeletion id [a] = None →
  preserves (deletionInv id) (log a).
Proof.
  intros Hquiet Hfirst Hnot pw. unfold deletionInv, log. simpl.
  rewrite afterDeletion_snoc, Hnot.
  destruct (afterDeletion id (trace pw)) as [[f post]|]; [|done].
  intros (Hpending & Hkept). split; [done|].
  rewrite betweenCalls_snoc by done. intros (? & ? & ?)%Hkept.
  split_and!; try done. apply Forall_app. split; [done|]. by constructor.
Qed.

Lemma deletionInv_emit id event :
  (∀ id', event ≠ session_deleted id') →
  preserves (deletionInv id) (emit event).
Proof.
  intros Hev pw. unfold deletionInv, emit, log. simpl.
  rewrite afterDeletion_snoc.
  assert (afterDeletion id [Emit event (storeFile (world pw))] = None) as ->.
  { destruct event; try done. by destruct (Hev sessionId0). }
  destruct (afterDeletion id (trace pw)) as [[f post]|]; [|done].
  intros (Hpending & Hkept). split; [done|].
  rewrite betweenCalls_snoc by done. intros (? & ? & ?)%Hkept.
  split_and!; try done. apply Forall_app. split; [done|]. by constructor.
Qed.

Lemma interleave_returns id pw : (interleave id pw).1 = Returned ().
Proof.
  unfold interleave. destruct (pendingDelete pw) as [[|n]|]; try done.
  unfold deleteRoute. simpl. by destruct (deleteSession id (world pw)) as [[[]|?] ?].
Qed.

(** What one turn of the other handler leaves: the world and the log as
    they were, or, when the deletion was due, what the DELETE handler
    did. *)
Lemma interleave_cases id pw :
  let pw' := (interleave id pw).2 in
  (trace pw' = trace pw ∧ world pw' = world pw) ∨
  (pendingDelete pw = Some 0%nat ∧
   (trace pw' = trace pw ∨
    trace pw' = trace pw ++ [Emit (session_deleted id) (storeFile (world pw'))])).
Proof.
  unfold interleave. destruct (pendingDelete pw) as [[|n]|]; simpl; [|by left..].
  right. split; [done|]. unfold deleteRoute. simpl.
  destruct (deleteSession id (world pw)) as [[[]|e] w']; simpl; first [by right | by left].
Qed.

Lemma deletionInv_interleave id : preserves (deletionInv id) (interleave id).
Proof.
  intros pw. unfold deletionInv, interleave.
  destruct (pendingDelete pw) as [[|n]|] eqn:Hpending; simpl.
  - destruct (afterDeletion id (trace pw)) as [[f post]|] eqn:Hafter;
      [by intros (? & _)|].
    intros _. unfold deleteRoute. simpl.
    destruct (deleteSession id (world pw)) as [[[]|e] w'] eqn:Hdel; simpl;
      rewrite ?Hafter; try done.
    rewrite afterDeletion_snoc, Hafter. simpl. rewrite decide_True by done.
    split; [done|]. intros _. split_and!; [done | by eapply deleteSession_true | done].
  - destruct (afterDeletion id (trace pw)) as [[f post]|]; [by intros (? & _) | done].
  - rewrite Hpending. done.
Qed.

Lemma deletionInv_writeBack id updates merged pw :
  deletionInv id pw →
  (∀ f post,
     afterDeletion id (trace pw) = Some (f, post) →
     is_Some (firstUpdate post) → betweenCalls post → merged = None) →
  deletionInv id (writeBack id updates merged pw).2.
Proof.
  unfold deletionInv, writeBack. intros Hinv Hmerged.
  destruct (updateSession_write merged (world pw)) as [result w'] eqn:Hwrite.
  assert (afterDeletion id
            (trace (match result with
                    | Returned _ =>
                        log (Update id updates result)
                          {| world := w'; trace := trace pw;
                             pendingDelete := pendingDelete pw |}
                    | Threw e =>
                        (log (Update id updates result) ;; throw e)
                          {| world := w'; trace := trace pw;
                             pendingDelete := pendingDelete pw |}
                    end).2)
          = afterDeletion id (trace pw ++ [Update id updates result])
          ∧ world (match result with
                    | Returned _ =>
                        log (Update id updates result)
                          {| world := w'; trace := trace pw;
                             pendingDelete := pendingDelete pw |}
                    | Threw e =>
                        (log (Update id updates result) ;; throw e)
                          {| world := w'; trace := trace pw;
                             pendingDelete := pendingDelete pw |}
                    end).2 = w'
          ∧ pendingDelete (match result with
                    | Returned _ =>
                        log (Update id updates result)
                          {| world := w'; trace := trace pw;
                             pendingDelete := pendingDelete pw |}
                    | Threw e =>
                        (log (Update id updates result) ;; throw e)
                          {| world := w'; trace := trace pw;
                             pendingDelete := pendingDelete pw |}
                    end).2 = pendingDelete pw) as (-> & -> & ->)
    by (by destruct result).
  rewrite afterDeletion_snoc.
  destruct (afterDeletion id (trace pw)) as [[f post]|] eqn:Hafter; [|done].
  destruct Hinv as [Hpending Hkept]. split; [done|].
  specialize (Hmerged f post eq_refl).
  unfold betweenCalls in *. rewrite firstUpdate_snoc.
  destruct (firstUpdate post) as [first|] eqn:Hfirst.
  - intros Hbetween.
    assert (merged = None) as -> by (apply Hmerged; [by eexists | done]).
    injection Hwrite as <- <-. destruct (Hkept Hbetween) as (? & ? & ?).
    split_and!; try done. apply Forall_app. split; [done|]. by constructor.
  - simpl. intros Hnull. destruct result as [[stored|]|e]; try done.
    apply updateSession_write_null in Hwrite as [-> ->].
    destruct (Hkept I) as (? & ? & ?).
    split_and!; try done. apply Forall_app. split; [done|]. by constructor.
Qed.

Lemma deletionInv_update id updates :
  preserves (deletionInv id) (update id updates).
Proof.
  intros pw Hinv. unfold update, bind.
  pose proof (deletionInv_interleave id pw Hinv) as Hinv1.
  pose proof (interleave_returns id pw) as Hret1.
  destruct (interleave id pw) as [[[]|?] pw1]; simpl in *; [|done].
  pose proof (deletionInv_interleave id pw1 Hinv1) as Hinv2.
  pose proof (interleave_returns id pw1) as Hret2.
  pose proof (interleave_cases id pw1) as Hcases.
  destruct (interleave id pw1) as [[[]|?] pw2]; simpl in *; [|done].
  apply deletionInv_writeBack; [done|].
  intros f post Hafter Hfirst Hbetween. unfold deletionInv in Hinv1.
  destruct Hcases as [[Htrace Hworld] | [Hdue Htrace]].
  - rewrite Htrace in Hafter. rewrite Hafter in Hinv1.
    destruct Hinv1 as [_ Hkept]. destruct (Hkept Hbetween) as (_ & Hgone & _).
    by apply updateSession_read_missing.
  - destruct (afterDeletion id (trace pw1)) as [[f1 post1]|] eqn:Hafter1.
    { destruct Hinv1 as [Hnone _]. by rewrite Hnone in Hdue. }
    destruct Htrace as [Htrace | Htrace]; rewrite Htrace in Hafter.
    + by rewrite Hafter1 in Hafter.
    + rewrite afterDeletion_snoc, Hafter1 in Hafter. simpl in Hafter.
      rewrite decide_True in Hafter by done. injection Hafter as <- <-.
      by destruct Hfirst.
Qed.

Lemma process_keeps_deletionInv svc session :
  preserves (deletionInv (sessionId session)) (process svc session).
Proof.
  unfold process, emitStatus.
  repeat first
    [ apply deletionInv_update
    | apply deletionInv_emit; done
    | apply deletionInv_log; done
    | apply preserves_try_catch
    | apply preserves_bind
    | apply preserves_ret
    | apply preserves_await
    | apply preserves_toISOString
    | match goal with
      | |- preserves _ (if ?b then _ else _) => destruct b
      | |- ∀ _, preserves _ _ => intros ?
      end ].
Qed.

(** *** A run nobody interferes with *)

Lemma update_found id updates pw store session :
  pendingDelete pw = None →
  storeFile (world pw) = Document store →
  obj_get id (sessions store) = Some session →
  writeFaults (world pw) = [] →
  update id updates pw =
    (Returned (),
     {| world :=
          set_storeFile
            (Document
               {| sessions := obj_set id (spread session updates) (sessions store);
                  lastUpdated := isoNow (clock (world pw)) |}) (world pw);
        trace := trace pw ++ [Update id updates (Returned (Some (spread session updates)))];
        pendingDelete := None |}).
Proof.
  intros Hpending Hfile Hget Hok. unfold update, bind, interleave.
  rewrite Hpending. simpl. rewrite Hpending. unfold writeBack.
  rewrite (updateSession_read_found _ _ _ _ _ Hfile Hget).
  rewrite updateSession_write_succeeds by done.
  unfold log. simpl. by rewrite Hpending.
Qed.

Lemma allLogged_log P a : P a → preserves (allLogged P) (log a).
Proof.
  intros Ha pw Hpw. unfold allLogged, log. simpl.
  apply Forall_app. split; [done | by constructor].
Qed.

Lemma allLogged_emit P event :
  (∀ f, P (Emit event f)) → preserves (allLogged P) (emit event).
Proof. intros Hev pw. by apply allLogged_log. Qed.

Lemma allLogged_interleave P id :
  (∀ f, P (Emit (session_deleted id) f)) → preserves (allLogged P) (interleave id).
Proof.
  intros Hdel pw Hpw. unfold interleave.
  destruct (pendingDelete pw) as [[|n]|]; try done.
  unfold deleteRoute. simpl.
  destruct (deleteSession id (world pw)) as [[[]|e] w']; try done.
  by apply (allLogged_emit P (session_deleted id) Hdel
              {| world := w'; trace := trace pw; pendingDelete := None |}).
Qed.

Lemma allLogged_writeBack P id updates merged :
  (∀ result, P (Update id updates result)) →
  preserves (allLogged P) (writeBack id updates merged).
Proof.
  intros Hupd pw Hpw. unfold writeBack.
  destruct (updateSession_write merged (world pw)) as [[r|e] w'];
    simpl; apply Forall_app; (split; [done | by constructor]).
Qed.

Lemma allLogged_update P id updates :
  (∀ result, P (Update id updates result)) →
  (∀ f, P (Emit (session_deleted id) f)) →
  preserves (allLogged P) (update id updates).
Proof.
  intros Hupd Hdel. unfold update.
  apply preserves_bind; [by apply allLogged_interleave|].
  intros _ pw Hpw.
  apply (preserves_bind (allLogged P) (interleave id)
           (λ _, writeBack id updates (updateSession_read id updates (world pw))));
    [by apply allLogged_interleave | intros _; by apply allLogged_writeBack | done].
Qed.

Lemma process_probe_reports svc session :
  preserves (allLogged (probeReports (PythonClient.healthCheck (pythonClient svc))))
    (process svc session).
Proof.
  unfold process, emitStatus.
  repeat first
    [ apply allLogged_update; done
    | apply allLogged_emit; done
    | apply allLogged_log; done
    | apply preserves_try_catch
    | apply preserves_bind
    | apply preserves_ret
    | apply preserves_await
    | apply preserves_toISOString
    | match goal with
      | |- preserves _ (if ?b then _ else _) => destruct b
      | |- ∀ _, preserves _ _ => intros ?
      end ].
Qed.

Local Arguments update : simpl never.

(** Symbolic execution of a run on a store that holds the session and
    whose writes succeed. *)
Local Ltac run_process :=
  unfold process, try_catch, bind, emitStatus, emit, log, ret, throw, await,
    toISOString, start;
  simpl;
  repeat first
    [ erewrite update_found by
        first [ reflexivity | eassumption | apply obj_get_set_eq ];
      simpl
    | match goal with
      | |- context [if ?b then _ else _] => destruct b eqn:?; simpl
      | |- context [match DeepgramService.transcribeFile ?d ?p with _ => _ end] =>
          destruct (DeepgramService.transcribeFile d p) eqn:?; simpl
      | |- context [match PythonClient.processAudio ?c ?q with _ => _ end] =>
          destruct (PythonClient.processAudio c q) eqn:?; simpl
      end ].

Local Ltac not_logged H :=
  repeat (apply elem_of_cons in H as [H|H]; [discriminate|]);
  by apply elem_of_nil in H.

(** C7. A run on a stored session, with a store whose writes succeed and
    with nobody else touching it, in which the health probe of the
    enrichment gateway reports unavailable: the run returns normally, the
    stored session ends with status ["completed"] and [processedAt] set to
    the time of the run, its [refinedScript] is what it was, and nothing the
    run did names [refinedScript], sets or announces the status
    ["refining"] or ["synthesizing"], or calls the enrichment operation. *)
Theorem process_enrichment_unavailable svc session w store stored :
  storeFile w = Document store →
  obj_get (sessionId session) (sessions store) = Some stored →
  writeFaults w = [] →
  let r := process svc session (start w None) in
  HealthCheck false ∈ trace r.2 →
  r.1 = Returned () ∧
  (∃ final,
     getSession (sessionId session) (world r.2) = Some final ∧
     status final = "completed" ∧
     processedAt final = Some (isoNow (clock w)) ∧
     refinedScript final = refinedScript stored) ∧
  Forall skipsEnrichment (trace r.2).
Proof.
  intros Hfile Hget Hok r Hprobed.
  assert (PythonClient.healthCheck (pythonClient svc) = false) as Hdown.
  { pose proof (process_probe_reports svc session (start w None) (Forall_nil_2 _)) as Hall.
    unfold allLogged in Hall. rewrite Forall_forall in Hall.
    symmetry. exact (Hall _ Hprobed). }
  revert Hprobed. subst r.
  unfold process. rewrite Hdown. run_process.
  all: intros Hprobed; try (by not_logged Hprobed).
  all: split_and!; [done | | repeat constructor; done].
  all: eexists; split; [unfold getSession; simpl; apply obj_get_set_eq | done].
Qed.

Lemma process_enrichment_unavailable_witness :
  let w := Samples.worldOf (Document Samples.storeStopped) [] in
  let r := process Samples.enrichmentDown Samples.stopped1 (start w None) in
  storeFile w = Document Samples.storeStopped ∧
  obj_get "session_1" (sessions Samples.storeStopped) = Some Samples.stopped1 ∧
  writeFaults w = [] ∧
  HealthCheck false ∈ trace r.2 ∧
  r.1 = Returned () ∧
  (∃ final,
     getSession "session_1" (world r.2) = Some final ∧
     status final = "completed" ∧
     processedAt final = Some "t1" ∧
     refinedScript final = None) ∧
  Forall skipsEnrichment (trace r.2).
Proof.
  intros w r.
  assert (HealthCheck false ∈ trace r.2) as Hprobed.
  { vm_compute. repeat (apply elem_of_cons; first [by left | right]). }
  split_and!; [reflexivity | reflexivity | reflexivity | exact Hprobed | ..];
    apply (process_enrichment_unavailable Samples.enrichmentDown Samples.stopped1 w
             Samples.storeStopped Samples.stopped1 eq_refl eq_refl eq_refl Hprobed).
Defined.

(** C5 (as the code has it). In a run on a stored session, with a store
    whose writes succeed and nobody else touching it: every broadcast
    other than the status broadcasts that open a stage is sent when the
    store file already holds what it announces - the transcription, the
    refined script, the synthesized audio path, the statuses
    ["synthesizing"], ["completed"] and ["error"] with the error message.
    The status broadcasts that open a stage (transcription begins or is
    skipped, refinement begins, enrichment is unavailable) go the other way
    round: each is sent before the run has asked the store to write the
    status it announces, the first of them - ["transcribing"], the first
    thing the run does - with the store file as the run found it; and no
    update of the run names the status ["refining"] at all. *)
Theorem process_results_announced_after_write svc session w store stored :
  storeFile w = Document store →
  obj_get (sessionId session) (sessions store) = Some stored →
  writeFaults w = [] →
  let r := process svc session (start w None) in
  head (trace r.2) =
    Some (Emit (session_status (sessionId session) "transcribing"
                  (Some "Transcribing audio with Deepgram..."))
               (storeFile w)) ∧
  Forall announcedAfterWrite (trace r.2) ∧
  opensBeforeWrite [] (trace r.2) ∧
  Forall (leavesStatus "refining") (trace r.2).
Proof.
  intros Hfile Hget Hok r. subst r. run_process.
  all: split; [done|].
  all: split;
    [ repeat apply Forall_cons_2; try apply Forall_nil_2; simpl; try exact I;
      intros Hopen;
      first [ discriminate Hopen
            | by vm_compute in Hopen
            | rewrite ?obj_get_set_eq; done ] |].
  all: split;
    [| repeat apply Forall_cons_2; try apply Forall_nil_2; simpl; try exact I;
       discriminate ].
  all: simpl; repeat split; try exact I; intros Hopen Hin;
    first [ discriminate Hopen | not_logged Hin ].
Qed.

Lemma process_results_announced_after_write_witness :
  let w := Samples.worldOf (Document Samples.storeStopped) [] in
  let r := process Samples.servicesUp Samples.stopped1 (start w None) in
  storeFile w = Document Samples.storeStopped ∧
  obj_get "session_1" (sessions Samples.storeStopped) = Some Samples.stopped1 ∧
  writeFaults w = [] ∧
  head (trace r.2) =
    Some (Emit (session_status "session_1" "transcribing"
                  (Some "Transcribing audio with Deepgram..."))
               (Document Samples.storeStopped)) ∧
  Forall announcedAfterWrite (trace r.2) ∧
  opensBeforeWrite [] (trace r.2) ∧
  Forall (leavesStatus "refining") (trace r.2).
Proof.
  intros w r.
  destruct (process_results_announced_after_write Samples.servicesUp Samples.stopped1 w
              Samples.storeStopped Samples.stopped1 eq_refl eq_refl eq_refl)
    as (H1 & H2 & H3 & H4).
  split_and!; [reflexivity | reflexivity | reflexivity
              | exact H1 | exact H2 | exact H3 | exact H4].
Defined.

(** C5 (as the specification has it) fails: the run opens with the status
    broadcast ["transcribing"] while the store still holds the earlier
    status ["processing"], and broadcasts the status ["refining"], which the
    run never writes to the store. *)
Lemma status_broadcast_precedes_store_write :
  let w := Samples.worldOf (Document Samples.storeStopped) [] in
  let r := process Samples.servicesUp Samples.stopped1 (start w None) in
  let opening :=
    session_status "session_1" "transcribing"
      (Some "Transcribing audio with Deepgram...") in
  Emit opening (Document Samples.storeStopped) ∈ trace r.2 ∧
  (status <$> storedIn (Document Samples.storeStopped) "session_1")
    = Some "processing" ∧
  ¬ announcesStored opening (Document Samples.storeStopped) ∧
  (∃ f, Emit (session_status "session_1" "refining"
                (Some "Refining script with Gemini AI...")) f ∈ trace r.2 ∧
        (status <$> storedIn f "session_1") = Some "transcribing") ∧
  Forall (λ a, match a with
               | Update _ updates _ => u_status updates ≠ Some "refining"
               | _ => True
               end) (trace r.2).
Proof.
  intros w r opening.
  let tr := eval vm_compute in (trace r.2) in change (trace r.2) with tr.
  split_and!.
  - apply elem_of_cons. by left.
  - done.
  - simpl. discriminate.
  - eexists. split; [repeat (apply elem_of_cons; first [by left | right]) | done].
  - repeat constructor; done.
Qed.

(** *** What a run does, whatever it meets *)

Lemma clock_saveSessions store w : clock (saveSessions store w).2 = clock w.
Proof. unfold saveSessions, fs_writeFile. by destruct (writeFaults w) as [|[] ?]. Qed.

Lemma clock_updateSession_write merged w :
  clock (updateSession_write merged w).2 = clock w.
Proof.
  unfold updateSession_write. destruct merged as [[store session]|]; [|done].
  pose proof (clock_saveSessions store w) as Hclock.
  by destruct (saveSessions store w) as [[[]|e] w'].
Qed.

Lemma clock_deleteSession id w : clock (deleteSession id w).2 = clock w.
Proof.
  unfold deleteSession. destruct (obj_get id (sessions (loadSessions w))); [|done].
  match goal with
  | |- context [saveSessions ?store ?w1] =>
      pose proof (clock_saveSessions store w1) as Hclock;
      destruct (saveSessions store w1) as [[[]|e] w']
  end; simpl in *; by rewrite Hclock, clock_fs_rm.
Qed.

(** A turn of the other handler returns, logs at most the broadcast of the
    deletion, and leaves the clock alone. *)
Lemma interleave_shape id pw :
  ∃ mid w' p',
    moves mid = [] ∧ clock w' = clock (world pw) ∧
    interleave id pw =
      (Returned (), {| world := w'; trace := trace pw ++ mid; pendingDelete := p' |}).
Proof.
  unfold interleave. destruct pw as [w tr [[|n]|]]; simpl.
  - unfold deleteRoute. simpl. pose proof (clock_deleteSession id w) as Hclock.
    destruct (deleteSession id w) as [[[]|e] w']; simpl in *.
    + by exists [Emit (session_deleted id) (storeFile w')], w', None.
    + exists [], w', None. by rewrite app_nil_r.
    + exists [], w', None. by rewrite app_nil_r.
  - exists [], w, (Some n). by rewrite app_nil_r.
  - exists [], w, None. by rewrite app_nil_r.
Qed.

(** An update call of a run, whatever the store holds and whatever the
    other handler does meanwhile: it logs the update with its result, after
    at most the broadcast of the deletion; it throws exactly when the store
    method throws; it leaves the clock alone. *)
Lemma update_shape id updates pw :
  ∃ mid result w' p',
    moves mid = [] ∧ clock w' = clock (world pw) ∧
    update id updates pw =
      (match result with Returned _ => Returned () | Threw e => Threw e end,
       {| world := w'; trace := trace pw ++ mid ++ [Update id updates result];
          pendingDelete := p' |}).
Proof.
  unfold update, bind.
  destruct (interleave_shape id pw) as (mid1 & w1 & p1 & Hmid1 & Hclock1 & ->).
  cbv zeta.
  destruct (interleave_shape id
              {| world := w1; trace := trace pw ++ mid1; pendingDelete := p1 |})
    as (mid2 & w2 & p2 & Hmid2 & Hclock2 & ->).
  unfold writeBack. simpl in *.
  pose proof (clock_updateSession_write
                (updateSession_read id updates w1) w2) as Hclock3.
  destruct (updateSession_write (updateSession_read id updates w1) w2)
    as [result w3]; simpl in *.
  exists (mid1 ++ mid2), result, w3, p2. split_and!.
  - unfold moves in *. by rewrite omap_app, Hmid1, Hmid2.
  - congruence.
  - destruct result; unfold log, bind; simpl; by rewrite <- !(assoc_L (++)).
Qed.

Lemma updateReturned_threw tr id updates e :
  Forall updateReturned tr → Update id updates (Threw e) ∉ tr.
Proof. intros Hall Hin. rewrite Forall_forall in Hall. exact (Hall _ Hin). Qed.

(** Whatever the store holds and whenever the session is deleted: as long
    as no update throws, a run returns normally and makes, in the same
    order, the very broadcasts, update calls and gateway calls of a run on
    a store that holds the session and is left alone. *)
Lemma process_moves svc session w pending w0 store stored :
  storeFile w0 = Document store →
  obj_get (sessionId session) (sessions store) = Some stored →
  writeFaults w0 = [] →
  clock w0 = clock w →
  let r := process svc session (start w pending) in
  Forall updateReturned (trace r.2) →
  r.1 = Returned () ∧
  moves (trace r.2) = moves (trace (process svc session (start w0 None)).2).
Proof.
  intros Hfile Hget Hok Hclock r. subst r.
  unfold process, try_catch, bind, emitStatus, emit, log, ret, throw, await,
    toISOString, start;
  simpl.
  repeat first
    [ match goal with
      | |- context [update ?id ?u ?pw] =>
          erewrite (update_found id u pw) by
            first [ reflexivity | eassumption | apply obj_get_set_eq ];
          simpl
      end
    | match goal with
      | |- context [update ?id ?u ?pw] =>
          let mid := fresh "mid" in
          let result := fresh "result" in
          let Hmid := fresh "Hmid" in
          let Hc := fresh "Hc" in
          destruct (update_shape id u pw) as (mid & result & ? & ? & Hmid & Hc & ->);
          simpl in Hc; destruct result as [?|?]; simpl
      | |- context [if ?b then _ else _] => destruct b eqn:?; simpl
      | |- context [match DeepgramService.transcribeFile ?d ?p with _ => _ end] =>
          destruct (DeepgramService.transcribeFile d p) eqn:?; simpl
      | |- context [match PythonClient.processAudio ?c ?q with _ => _ end] =>
          destruct (PythonClient.processAudio c q) eqn:?; simpl
      end ].
  all: intros Hall.
  all: try (exfalso;
            repeat (rewrite Forall_app in Hall || rewrite Forall_cons in Hall);
            simpl in Hall; tauto).
  all: split; [done|].
  all: rewrite ?Hclock;
    repeat match goal with
           | H : clock _ = clock _ |- _ => rewrite ?H in *; clear H
           end.
  all: unfold moves in *; rewrite ?omap_app; simpl;
    repeat match goal with
           | H : omap moveOf _ = [] |- _ => rewrite ?H; clear H
           end.
  all: reflexivity.
Qed.

(** *** A deletion that lands between two update calls *)

Lemma writeBack_logs id updates merged pw :
  trace (writeBack id updates merged pw).2
    = trace pw ++ [Update id updates (updateSession_write merged (world pw)).1] ∧
  pendingDelete (writeBack id updates merged pw).2 = pendingDelete pw.
Proof.
  unfold writeBack.
  by destruct (updateSession_write merged (world pw)) as [[result|e] w'].
Qed.

Lemma update_undisturbed id updates pw :
  pendingDelete pw = None →
  update id updates pw
    = writeBack id updates (updateSession_read id updates (world pw)) pw.
Proof.
  intros Hnone. unfold update, bind, interleave. rewrite Hnone. simpl.
  by rewrite Hnone.
Qed.

Lemma update_before_deletion id updates pw n :
  pendingDelete pw = Some (S (S n)) →
  update id updates pw
    = writeBack id updates (updateSession_read id updates (world pw))
        {| world := world pw; trace := trace pw; pendingDelete := Some n |}.
Proof. intros Hlater. unfold update, bind, interleave. by rewrite Hlater. Qed.

Lemma update_after_deletion id updates pw :
  pendingDelete pw = Some 0%nat →
  let deleted :=
    (deleteRoute id {| world := world pw; trace := trace pw; pendingDelete := None |}).2 in
  pendingDelete deleted = None ∧
  update id updates pw
    = writeBack id updates (updateSession_read id updates (world deleted)) deleted.
Proof.
  intros Hnow. unfold update, bind, interleave. rewrite Hnow.
  unfold deleteRoute. simpl.
  destruct (deleteSession id (world pw)) as [[[]|e] w']; by simpl.
Qed.

Lemma betweenCalls_update post id updates result :
  betweenCalls post →
  (firstUpdate post = None → result = Returned None) →
  betweenCalls (post ++ [Update id updates result]).
Proof.
  unfold betweenCalls. rewrite firstUpdate_snoc.
  destruct (firstUpdate post); [done|]. intros _ Hnull. simpl. by rewrite Hnull.
Qed.

Lemma betweenInv_log id a :
  (∀ f, quiet f a) → firstUpdate [a] = None → afterDeletion id [a] = None →
  preserves (betweenInv id) (log a).
Proof.
  intros Hquiet Hfirst Hnot pw (Hinv & Hdue & Hbetween). split_and!.
  - by apply deletionInv_log.
  - done.
  - intros f post. unfold log. simpl. rewrite afterDeletion_snoc, Hnot.
    destruct (afterDeletion id (trace pw)) as [[f' post']|]; [|done].
    intros [= <- <-]. rewrite betweenCalls_snoc by done. by eapply Hbetween.
Qed.

Lemma betweenInv_emit id event :
  (∀ id', event ≠ session_deleted id') →
  preserves (betweenInv id) (emit event).
Proof.
  intros Hev pw (Hinv & Hdue & Hbetween). split_and!.
  - by apply deletionInv_emit.
  - done.
  - intros f post. unfold emit, log. simpl. rewrite afterDeletion_snoc.
    assert (afterDeletion id [Emit event (storeFile (world pw))] = None) as ->.
    { destruct event; try done. by destruct (Hev sessionId0). }
    destruct (afterDeletion id (trace pw)) as [[f' post']|]; [|done].
    intros [= <- <-]. rewrite betweenCalls_snoc by done. by eapply Hbetween.
Qed.

Lemma betweenInv_update id updates :
  preserves (betweenInv id) (update id updates).
Proof.
  intros pw (Hinv & Hdue & Hbetween).
  split; [by apply deletionInv_update|].
  unfold deletionInv in Hinv.
  destruct (pendingDelete pw) as [[|[|n]]|] eqn:Hpending; simpl in Hdue.
  - (* the deletion is served now, before the read *)
    destruct (update_after_deletion id updates pw Hpending) as [Hnone ->].
    destruct (afterDeletion id (trace pw)) as [[f0 post0]|] eqn:Hafter;
      [by destruct Hinv|].
    set (deleted := (deleteRoute id _).2) in *.
    destruct (writeBack_logs id updates
                (updateSession_read id updates (world deleted)) deleted) as [-> ->].
    split; [by rewrite Hnone|].
    intros f post. rewrite afterDeletion_snoc.
    subst deleted. unfold deleteRoute. simpl.
    destruct (deleteSession id (world pw)) as [[[]|e] w'] eqn:Hdel; simpl;
      rewrite ?Hafter; try done.
    rewrite afterDeletion_snoc, Hafter. simpl. rewrite decide_True by done.
    intros [= <- <-].
    rewrite (updateSession_read_missing _ _ _ (deleteSession_true _ _ _ Hdel)).
    done.
  - done.
  - (* the deletion comes later, before the read of a later call *)
    rewrite (update_before_deletion id updates pw n Hpending).
    destruct (afterDeletion id (trace pw)) as [[f0 post0]|] eqn:Hafter;
      [by destruct Hinv|].
    match goal with
    | |- context [writeBack id updates ?m ?p] =>
        destruct (writeBack_logs id updates m p) as [-> ->]
    end.
    split; [done|]. intros f post. simpl. by rewrite afterDeletion_snoc, Hafter.
  - (* no deletion is to come *)
    rewrite (update_undisturbed id updates pw Hpending).
    destruct (writeBack_logs id updates
                (updateSession_read id updates (world pw)) pw) as [-> ->].
    split; [by rewrite Hpending|].
    intros f post. rewrite afterDeletion_snoc.
    destruct (afterDeletion id (trace pw)) as [[f0 post0]|] eqn:Hafter; [|done].
    intros [= <- <-]. destruct Hinv as [_ Hkept].
    pose proof (Hbetween f0 post0 eq_refl) as Hpost.
    destruct (Hkept Hpost) as (_ & Hgone & _).
    apply betweenCalls_update; [done|]. intros _.
    by rewrite (updateSession_read_missing _ _ _ Hgone).
Qed.

Lemma process_keeps_betweenInv svc session :
  preserves (betweenInv (sessionId session)) (process svc session).
Proof.
  unfold process, emitStatus.
  repeat first
    [ apply betweenInv_update
    | apply betweenInv_emit; done
    | apply betweenInv_log; done
    | apply preserves_try_catch
    | apply preserves_bind
    | apply preserves_ret
    | apply preserves_await
    | apply preserves_toISOString
    | match goal with
      | |- preserves _ (if ?b then _ else _) => destruct b
      | |- ∀ _, preserves _ _ => intros ?
      end ].
Qed.

(** *** A deletion that lands inside an update call *)

Lemma deleteSession_found w store id session :
  storeFile w = Document store →
  obj_get id (sessions store) = Some session →
  writeFaults w = [] →
  deleteSession id w =
    (Returned true,
     set_storeFile
       (Document {| sessions := obj_delete id (sessions store);
                    lastUpdated := isoNow (clock w) |})
       (fs_rm (path_join (recordingsDir w) id) w)).
Proof.
  intros Hfile Hget Hok. unfold deleteSession.
  rewrite (loadSessions_document _ _ Hfile), Hget.
  rewrite saveSessions_succeeds by (by rewrite writeFaults_fs_rm).
  by rewrite clock_fs_rm.
Qed.

(** The update call of a run during which the deletion is served between
    the read and the write: the deletion goes through and is broadcast,
    and the write then puts back the store the call had read, with the
    merged record of the session in it. *)
Lemma update_around_deletion id updates pw store session :
  pendingDelete pw = Some 1%nat →
  storeFile (world pw) = Document store →
  obj_get id (sessions store) = Some session →
  writeFaults (world pw) = [] →
  update id updates pw =
    (Returned (),
     {| world :=
          set_storeFile
            (Document
               {| sessions := obj_set id (spread session updates) (sessions store);
                  lastUpdated := isoNow (clock (world pw)) |})
            (fs_rm (path_join (recordingsDir (world pw)) id) (world pw));
        trace := trace pw ++
          [Emit (session_deleted id)
             (Document {| sessions := obj_delete id (sessions store);
                          lastUpdated := isoNow (clock (world pw)) |});
           Update id updates (Returned (Some (spread session updates)))];
        pendingDelete := None |}).
Proof.
  intros Hpending Hfile Hget Hok. unfold update, bind, interleave.
  rewrite Hpending. cbn [fst snd world trace pendingDelete].
  rewrite (updateSession_read_found _ _ _ _ _ Hfile Hget).
  unfold deleteRoute. cbn [world trace pendingDelete].
  rewrite (deleteSession_found _ _ _ _ Hfile Hget Hok).
  unfold emit, log, writeBack. cbn [fst snd world trace pendingDelete].
  rewrite updateSession_write_succeeds by (simpl; by rewrite writeFaults_fs_rm).
  simpl. rewrite clock_fs_rm. unfold log. simpl. by rewrite <- (assoc_L (++)).
Qed.

Lemma update_found_earlier id updates pw store session n :
  pendingDelete pw = Some (S (S n)) →
  storeFile (world pw) = Document store →
  obj_get id (sessions store) = Some session →
  writeFaults (world pw) = [] →
  update id updates pw =
    (Returned (),
     {| world :=
          set_storeFile
            (Document
               {| sessions := obj_set id (spread session updates) (sessions store);
                  lastUpdated := isoNow (clock (world pw)) |}) (world pw);
        trace := trace pw ++ [Update id updates (Returned (Some (spread session updates)))];
        pendingDelete := Some n |}).
Proof.
  intros Hpending Hfile Hget Hok.
  rewrite (update_before_deletion id updates pw n Hpending). unfold writeBack.
  rewrite (updateSession_read_found _ _ _ _ _ Hfile Hget).
  cbn [world trace pendingDelete].
  by rewrite updateSession_write_succeeds.
Qed.

(** Symbolic execution of a run on a store that holds the session and
    whose writes succeed, the deletion being served inside an update call
    of the run, if at all. *)
Local Ltac run_around_deletion :=
  unfold process, try_catch, bind, emitStatus, emit, log, ret, throw, await,
    toISOString, start;
  simpl;
  repeat first
    [ erewrite update_around_deletion by
        first [ reflexivity | eassumption | apply obj_get_set_eq ];
      simpl
    | erewrite update_found_earlier by
        first [ reflexivity | eassumption | apply obj_get_set_eq ];
      simpl
    | erewrite update_found by
        first [ reflexivity | apply obj_get_set_eq
              | simpl; rewrite writeFaults_fs_rm; eassumption ];
      simpl
    | match goal with
      | |- context [if ?b then _ else _] => destruct b eqn:?; simpl
      | |- context [match DeepgramService.transcribeFile ?d ?p with _ => _ end] =>
          destruct (DeepgramService.transcribeFile d p) eqn:?; simpl
      | |- context [match PythonClient.processAudio ?c ?q with _ => _ end] =>
          destruct (PythonClient.processAudio c q) eqn:?; simpl
      end ].

(** A run on a stored session, with writes that succeed, in which the
    deletion is due between the read and the write of an update call: if
    the deletion is served at all, it removes the session, the update
    under way returns the record all the same, and the run ends with the
    session in the store, completed or in error.  Due inside the first
    update call, the deletion is served whatever the gateways answer. *)
Lemma process_around_deletion svc session w store stored n :
  Nat.odd n = true →
  storeFile w = Document store →
  obj_get (sessionId session) (sessions store) = Some stored →
  writeFaults w = [] →
  let r := process svc session (start w (Some n)) in
  (∀ f post,
     afterDeletion (sessionId session) (trace r.2) = Some (f, post) →
     storedIn f (sessionId session) = None ∧
     (∃ updates merged,
        head post = Some (Update (sessionId session) updates (Returned (Some merged)))) ∧
     (∃ final,
        getSession (sessionId session) (world r.2) = Some final ∧
        (status final = "completed" ∨ status final = "error"))) ∧
  (n = 1%nat → is_Some (afterDeletion (sessionId session) (trace r.2))).
Proof.
  intros Hodd Hfile Hget Hok r. subst r.
  destruct n as [|[|[|[|[|[|[|n]]]]]]]; try discriminate Hodd.
  all: run_around_deletion.
  all: try done.
  all: (split; [| intros Hone; first [discriminate Hone | by eexists]]).
  all: intros f post Hafter; try discriminate Hafter.
  all: injection Hafter as <- <-.
  all: split_and!;
    [ simpl; apply obj_get_delete_eq
    | by eexists _, _
    | eexists; split; [unfold getSession; simpl; apply obj_get_set_eq|];
      first [by left | by right] ].
Qed.

(** C8 (as the code has it). Whatever the services answer, whatever the
    store holds and whenever the session of a run is deleted:

    - when the deletion completes between two update calls of the run -
      which shows in the first update logged after it having found no
      record, and is the case whenever the deletion is due before the
      read of an update call - every later [updateSession] call of the
      run returns null and writes nothing, every later broadcast is sent
      while the store file is as the deletion left it, and at the end of
      the run the file is still that and holds no record of the session;

    - an [updateSession] call that had read the store before the deletion
      completed goes on to write what it merged, which puts the session
      back: after a deletion that succeeded and left no record, the write
      succeeds and the merged record is stored again; and in a run on a
      stored session, with writes that succeed, a deletion that lands
      between the read and the write of an update call removes the
      session, the update under way returns the record all the same, and
      the run ends with the session in the store, completed or in error;

    - a null result stops nothing: as long as no update throws, the run
      returns normally and makes, in the same order, the very broadcasts,
      update calls and gateway calls of a run whose session is stored and
      left alone. *)
Theorem process_after_deletion svc session w pending :
  let id := sessionId session in
  let r := process svc session (start w pending) in
  (∀ f post,
     afterDeletion id (trace r.2) = Some (f, post) →
     betweenCalls post →
     Forall (quiet f) post ∧
     storeFile (world r.2) = f ∧
     getSession id (world r.2) = None) ∧
  (dueBeforeRead pending →
   ∀ f post, afterDeletion id (trace r.2) = Some (f, post) → betweenCalls post) ∧
  (∀ store stored updates,
     storeFile w = Document store →
     obj_get id (sessions store) = Some stored →
     writeFaults w = [] →
     let merged := updateSession_read id updates w in
     let deleted := deleteSession id w in
     let written := updateSession_write merged deleted.2 in
     deleted.1 = Returned true ∧
     getSession id deleted.2 = None ∧
     written.1 = Returned (Some (spread stored updates)) ∧
     getSession id written.2 = Some (spread stored updates)) ∧
  (∀ n store stored,
     Nat.odd n = true →
     storeFile w = Document store →
     obj_get id (sessions store) = Some stored →
     writeFaults w = [] →
     let inside := process svc session (start w (Some n)) in
     (∀ f post,
        afterDeletion id (trace inside.2) = Some (f, post) →
        storedIn f id = None ∧
        (∃ updates merged,
           head post = Some (Update id updates (Returned (Some merged)))) ∧
        (∃ final,
           getSession id (world inside.2) = Some final ∧
           (status final = "completed" ∨ status final = "error"))) ∧
     (n = 1%nat → is_Some (afterDeletion id (trace inside.2)))) ∧
  (∀ w0 store stored,
     storeFile w0 = Document store →
     obj_get id (sessions store) = Some stored →
     writeFaults w0 = [] →
     clock w0 = clock w →
     Forall updateReturned (trace r.2) →
     r.1 = Returned () ∧
     moves (trace r.2) = moves (trace (process svc session (start w0 None)).2)).
Proof.
  intros id r. split_and!.
  - intros f post Hafter Hbetween.
    pose proof (process_keeps_deletionInv svc session (start w pending) I) as Hinv.
    unfold deletionInv in Hinv. fold r id in Hinv. rewrite Hafter in Hinv.
    destruct Hinv as [_ Hkept]. by destruct (Hkept Hbetween) as (? & ? & ?).
  - intros Hdue.
    assert (betweenInv id (start w pending)) as Hstart by (by split_and!).
    by destruct (process_keeps_betweenInv svc session _ Hstart) as (_ & _ & ?).
  - intros store stored updates Hfile Hget Hok merged deleted written.
    subst merged deleted written.
    rewrite (updateSession_read_found _ _ _ _ _ Hfile Hget).
    rewrite (deleteSession_found _ _ _ _ Hfile Hget Hok). cbn [fst snd].
    rewrite updateSession_write_succeeds by (simpl; by rewrite writeFaults_fs_rm).
    split_and!; [done | | done |].
    + unfold getSession. simpl. apply obj_get_delete_eq.
    + unfold getSession. simpl. apply obj_get_set_eq.
  - intros n store stored Hodd Hfile Hget Hok.
    by apply (process_around_deletion svc session w store stored n).
  - intros w0 store stored Hfile Hget Hok Hclock.
    by apply (process_moves svc session w pending w0 store stored).
Qed.

Lemma process_after_deletion_witness :
  let w := Samples.worldOf (Document Samples.storeStopped) [] in
  let r := process Samples.servicesUp Samples.stopped1 (start w (Some 2%nat)) in
  let inside := process Samples.servicesUp Samples.stopped1 (start w (Some 3%nat)) in
  let gone := Document {| sessions := []; lastUpdated := "t1" |} in
  dueBeforeRead (Some 2%nat) ∧
  (∃ post,
     afterDeletion "session_1" (trace r.2) = Some (gone, post) ∧
     betweenCalls post ∧
     Forall (quiet gone) post ∧
     storeFile (world r.2) = gone ∧
     getSession "session_1" (world r.2) = None) ∧
  Nat.odd 3 = true ∧
  (∃ post,
     afterDeletion "session_1" (trace inside.2) = Some (gone, post) ∧
     ∃ final,
       getSession "session_1" (world inside.2) = Some final ∧
       (status final = "completed" ∨ status final = "error")) ∧
  Forall updateReturned (trace r.2) ∧
  r.1 = Returned () ∧
  moves (trace r.2) = moves (trace (process Samples.servicesUp Samples.stopped1
                                      (start w None)).2).
Proof.
  intros w r inside gone.
  destruct (process_after_deletion Samples.servicesUp Samples.stopped1 w (Some 2%nat))
    as (Hquiet & Hbetween & _ & Hinside & Hmoves).
  destruct (Hinside 3%nat Samples.storeStopped Samples.stopped1
              eq_refl eq_refl eq_refl eq_refl) as [Hback _].
  assert (∃ post, afterDeletion "session_1" (trace r.2) = Some (gone, post))
    as (post & Hafter) by (eexists; vm_compute; reflexivity).
  assert (∃ post, afterDeletion "session_1" (trace inside.2) = Some (gone, post))
    as (post' & Hafter') by (eexists; vm_compute; reflexivity).
  assert (Forall updateReturned (trace r.2)) as Hreturned.
  { let tr := eval vm_compute in (trace r.2) in change (trace r.2) with tr.
    repeat constructor. }
  pose proof (Hbetween eq_refl gone post Hafter) as Hpost.
  split_and!.
  - reflexivity.
  - exists post. split_and!; [exact Hafter | exact Hpost | ..];
      apply (Hquiet gone post Hafter Hpost).
  - reflexivity.
  - exists post'. split; [exact Hafter'|]. apply (Hback gone post' Hafter').
  - exact Hreturned.
  - apply (Hmoves w Samples.storeStopped Samples.stopped1
             eq_refl eq_refl eq_refl eq_refl Hreturned).
  - apply (Hmoves w Samples.storeStopped Samples.stopped1
             eq_refl eq_refl eq_refl eq_refl Hreturned).
Defined.

(** C8 (as the specification has it) fails, in both of its parts.  The run
    does not stop at an update that finds no record: with the session
    deleted before the first update of the run, the run still returns
    normally and, after that update, goes on to call the enrichment
    gateway, to make further update calls and to announce the completion
    of the session.  And the run can put the deleted session back: with
    the deletion served between the read and the write of the first
    update, that update returns the record instead of null, the later
    updates find it, and the run ends with the session stored again, as
    ["completed"]. *)
Lemma process_goes_on_after_not_found :
  let w := Samples.worldOf (Document Samples.storeStopped) [] in
  let r := process Samples.servicesUp Samples.stopped1 (start w (Some 0%nat)) in
  let inside := process Samples.servicesUp Samples.stopped1 (start w (Some 1%nat)) in
  let gone := Document {| sessions := []; lastUpdated := "t1" |} in
  (r.1 = Returned () ∧
   ∃ rest,
     afterNotFound (trace r.2) = Some rest ∧
     ProcessAudio
       {| PythonClient.req_sessionId := "session_1";
          PythonClient.req_audioPath := "/rec/session_1/recording_audio.webm";
          PythonClient.rawTranscript := "click the button";
          PythonClient.domEvents := [JStr "click"] |} ∈ rest ∧
     Update "session_1"
       (literal [upd_synthesizedAudioPath "/rec/session_1/voice.mp3";
                 upd_status "completed"; upd_processedAt "t1"])
       (Returned None) ∈ rest ∧
     last rest = Some (Emit (session_complete "session_1") gone)) ∧
  (∃ post,
     afterDeletion "session_1" (trace inside.2) = Some (gone, post) ∧
     (∃ updates stored,
        head post = Some (Update "session_1" updates (Returned (Some stored)))) ∧
     afterNotFound post = None ∧
     (status <$> getSession "session_1" (world inside.2)) = Some "completed").
Proof.
  split.
  - split; [by vm_compute|]. eexists. split; [vm_compute; reflexivity|].
    split_and!; [| | done];
      repeat (apply elem_of_cons; first [by left | right]).
  - eexists. split; [vm_compute; reflexivity|].
    split_and!; [by eexists _, _ | done | done].
Qed.

End PipelineFacts.

(** * Further properties of the services *)

(** ** Sorting *)

Section SortFacts.
  Context {A : Type}.
  Implicit Types (cmp : A → A → Z) (R : A → A → Prop) (l : list A).

Lemma sort_insert_perm cmp x l : sort_insert cmp x l ≡ₚ x :: l.
Proof.
  induction l as [|y l IH]; simpl; [done|].
  case_match; [|done]. rewrite IH. apply Permutation_swap.
Qed.

Lemma array_sort_perm cmp l : array_sort cmp l ≡ₚ l.
Proof.
  induction l as [|x l IH]; simpl; [done|].
  unfold array_sort in *. simpl. by rewrite sort_insert_perm, IH.
Qed.

Lemma sort_insert_sorted cmp R x l :
  Transitive R →
  (∀ a b, (0 <? cmp a b)%Z = false → R a b) →
  (∀ a b, (0 <? cmp a b)%Z = true → R b a) →
  StronglySorted R l → StronglySorted R (sort_insert cmp x l).
Proof.
  intros Htrans Hle Hgt. induction l as [|y l IH]; intros Hsorted; simpl.
  - repeat constructor.
  - apply StronglySorted_cons in Hsorted as [Hy Hl].
    destruct (0 <? cmp x y)%Z eqn:Hxy.
    + apply StronglySorted_cons. split; [|by apply IH].
      rewrite sort_insert_perm. constructor; [by apply Hgt | done].
    + apply StronglySorted_cons. split.
      * constructor; [by apply Hle|].
        eapply Forall_impl; [exact Hy|]. intros z Hz. simpl in Hz.
        etrans; [by apply Hle | done].
      * by apply StronglySorted_cons.
Qed.

Lemma array_sort_sorted cmp R l :
  Transitive R →
  (∀ a b, (0 <? cmp a b)%Z = false → R a b) →
  (∀ a b, (0 <? cmp a b)%Z = true → R b a) →
  StronglySorted R (array_sort cmp l).
Proof.
  intros Htrans Hle Hgt. induction l as [|x l IH]; [constructor|].
  unfold array_sort in *. simpl. by apply sort_insert_sorted.
Qed.

End SortFacts.

(** ** Session Store, further *)

Section SessionStoreMore.
  Import SessionManager Mutations Observations.
  Implicit Types (w : World) (store : SessionsStore) (session : SessionData).

Lemma obj_delete_elem_of {V} (k k' : string) (v : V) (o : list (string * V)) :
  (k', v) ∈ obj_delete k o → k' ≠ k ∧ (k', v) ∈ o.
Proof.
  induction o as [|[k0 v0] o IH]; simpl; [by intros ?%elem_of_nil|].
  destruct (decide (k = k0)) as [->|Hne].
  - intros [? ?]%IH. split; [done|]. apply elem_of_cons. by right.
  - intros [Heq|Hin]%elem_of_cons.
    + injection Heq as -> ->. split; [done|]. apply elem_of_cons. by left.
    + apply IH in Hin as [? ?]. split; [done|]. apply elem_of_cons. by right.
Qed.

Lemma obj_get_elem_of {V} (k : string) (v : V) (o : list (string * V)) :
  obj_get k o = Some v → (k, v) ∈ o.
Proof.
  induction o as [|[k0 v0] o IH]; simpl; [done|].
  destruct (decide (k = k0)) as [->|Hne].
  - intros [= ->]. apply elem_of_cons. by left.
  - intros ?%IH. apply elem_of_cons. by right.
Qed.

Lemma listSessions_perm w :
  listSessions w ≡ₚ obj_values (sessions (loadSessions w)).
Proof. unfold listSessions. apply array_sort_perm. Qed.

(** X1. What [createSession] stored, [getSession] gives back: whatever the
    store file held before (a document, nothing, or text that does not
    parse), when the write succeeds the session is returned, is read back
    member for member under its id, and is listed. *)
Theorem createSession_then_getSession w session :
  writeFaults w = [] →
  let r := createSession session w in
  r.1 = Returned session ∧
  getSession (sessionId session) r.2 = Some session ∧
  session ∈ listSessions r.2.
Proof.
  intros Hok r. subst r. rewrite createSession_succeeds by done. simpl.
  assert (getSession (sessionId session)
            (set_storeFile
               (Document
                  {| sessions := obj_set (sessionId session) session
                                   (sessions (loadSessions w));
                     lastUpdated := isoNow (clock w) |}) w) = Some session) as Hget.
  { unfold getSession. simpl. apply obj_get_set_eq. }
  split_and!; [done | done |].
  rewrite listSessions_perm. unfold getSession in Hget.
  apply obj_get_elem_of in Hget. unfold obj_values.
  by apply (list_elem_of_fmap_2 snd) in Hget.
Qed.

Lemma createSession_then_getSession_witness :
  let w := Samples.worldOf Absent [] in
  writeFaults w = [] ∧
  getSession "session_1" (createSession Samples.stopped1 w).2 = Some Samples.stopped1.
Proof.
  intros w. split; [reflexivity|].
  by destruct (createSession_then_getSession w Samples.stopped1 eq_refl) as (_ & H & _).
Defined.

(** X2. Deleting a stored session, when the write succeeds: the call
    returns true, the session can no longer be read, every session still
    listed is one that was stored under another id, and the other sessions
    read as before.  The session's recordings directory is gone - unless
    the file system refuses to remove it, which the call swallows: it
    still returns true, and the directories are as they were. *)
Theorem deleteSession_removes w store id session :
  storeFile w = Document store →
  obj_get id (sessions store) = Some session →
  writeFaults w = [] →
  let r := deleteSession id w in
  let sessionDir := path_join (recordingsDir w) id in
  r.1 = Returned true ∧
  getSession id r.2 = None ∧
  (∀ s, s ∈ listSessions r.2 → ∃ id', id' ≠ id ∧ (id', s) ∈ sessions store) ∧
  (sessionDir ∉ undeletable w → sessionDir ∉ sessionDirs r.2) ∧
  (sessionDir ∈ undeletable w → sessionDirs r.2 = sessionDirs w) ∧
  (∀ id', id' ≠ id → getSession id' r.2 = getSession id' w).
Proof.
  intros Hfile Hget Hok r sessionDir. subst r.
  rewrite (deleteSession_found _ _ _ _ Hfile Hget Hok). simpl. split_and!.
  - done.
  - unfold getSession. simpl. apply obj_get_delete_eq.
  - intros s. rewrite listSessions_perm. simpl. unfold obj_values.
    intros ([id' s'] & -> & Hin)%list_elem_of_fmap_1.
    apply obj_delete_elem_of in Hin as [? ?]. by exists id'.
  - intros Hfree. unfold fs_rm. fold sessionDir. rewrite decide_False by done. simpl.
    intros [_ Hnot]%elem_of_difference. apply Hnot. by apply elem_of_singleton.
  - intros Hstuck. unfold fs_rm. fold sessionDir. by rewrite decide_True.
  - intros id' Hne. unfold getSession. simpl.
    rewrite (loadSessions_document _ _ Hfile). by apply obj_get_delete_ne.
Qed.

Lemma deleteSession_removes_witness :
  let w := Samples.recordedWorld (Document Samples.store1) ∅ in
  let stuck := Samples.recordedWorld (Document Samples.store1) {["/rec/session_1"]} in
  storeFile w = Document Samples.store1 ∧
  obj_get "session_1" (sessions Samples.store1) = Some Samples.session1 ∧
  writeFaults w = [] ∧
  "/rec/session_1" ∈ sessionDirs w ∧
  (deleteSession "session_1" w).1 = Returned true ∧
  getSession "session_1" (deleteSession "session_1" w).2 = None ∧
  ("/rec/session_1" ∉ sessionDirs (deleteSession "session_1" w).2) ∧
  (deleteSession "session_1" stuck).1 = Returned true ∧
  sessionDirs (deleteSession "session_1" stuck).2 = sessionDirs stuck.
Proof.
  intros w stuck.
  destruct (deleteSession_removes w Samples.store1 "session_1" Samples.session1
              eq_refl eq_refl eq_refl) as (H1 & H2 & _ & H3 & _).
  destruct (deleteSession_removes stuck Samples.store1 "session_1" Samples.session1
              eq_refl eq_refl eq_refl) as (H4 & _ & _ & _ & H5 & _).
  split_and!; [reflexivity | reflexivity | reflexivity | by vm_compute
              | exact H1 | exact H2 | | exact H4 |].
  - apply H3. by vm_compute.
  - apply H5. by vm_compute.
Defined.

(** X3. An id under which the lookup of the store finds nothing - no
    record, and no member inherited from [Object.prototype] - is reported
    in three ways and never leads to a write: [updateSession] returns
    null, [deleteSession] returns false, [appendEvents] throws its
    not-found error; in each case the store file, the recordings
    directories and the world at large are exactly as before. *)
Theorem missing_session_never_written w id :
  Inherited.getSession id w = Inherited.Undefined →
  (∀ updates, updateSession id updates w = (Returned None, w)) ∧
  Inherited.deleteSession id w = (Returned false, w) ∧
  (∀ evs,
     appendEvents id evs w = (Threw (Error ("Session " +:+ id +:+ " not found")), w)).
Proof.
  intros [Hnone Hown]%getSession_undefined. unfold getSession in Hnone. split_and!.
  - intros updates. unfold updateSession. by rewrite Hnone.
  - rewrite deleteSession_not_inherited by done. unfold deleteSession. by rewrite Hnone.
  - intros evs. unfold appendEvents. by rewrite Hnone.
Qed.

Lemma missing_session_never_written_witness :
  let w := Samples.worldOf (Document Samples.store1) [FailMidway] in
  Inherited.getSession "session_9" w = Inherited.Undefined ∧
  Inherited.deleteSession "session_9" w = (Returned false, w) ∧
  updateSession "session_9" (upd_status "processing") w = (Returned None, w).
Proof.
  intros w.
  destruct (missing_session_never_written w "session_9" eq_refl) as (H1 & H2 & _).
  split_and!; [reflexivity | exact H2 | apply H1].
Defined.

(** X4. The listing holds exactly the stored records, each as often as it is
    stored, ordered by start time with the latest first. *)
Theorem listSessions_sorted_latest_first w :
  listSessions w ≡ₚ obj_values (sessions (loadSessions w)) ∧
  StronglySorted (λ a b, startTime b ≤ startTime a)%Z (listSessions w).
Proof.
  split; [apply listSessions_perm|].
  unfold listSessions. apply array_sort_sorted.
  - intros a b c ??. lia.
  - intros a b ?%Z.ltb_ge. lia.
  - intros a b ?%Z.ltb_lt. lia.
Qed.

Lemma spread_both session a b :
  spread (spread session a) b = spread session (both a b).
Proof.
  destruct a, b. unfold spread, both. simpl.
  f_equal;
    match goal with
    | |- context [over ?x ?y] => by destruct x, y
    end.
Qed.

(** X5. Two updates of a stored session, one after the other, are one
    update with the members of both objects, the second winning where both
    name a member: same result, same world. *)
Theorem updateSession_twice_is_merged w store id session a b :
  storeFile w = Document store →
  obj_get id (sessions store) = Some session →
  writeFaults w = [] →
  updateSession id b (updateSession id a w).2 = updateSession id (both a b) w.
Proof.
  intros Hfile Hget Hok.
  rewrite !(updateSession_found _ _ _ _ _ Hfile Hget Hok). simpl.
  erewrite updateSession_found; [| reflexivity | apply obj_get_set_eq | exact Hok].
  simpl. by rewrite obj_set_set, spread_both.
Qed.

Lemma updateSession_twice_is_merged_witness :
  let w := Samples.worldOf (Document Samples.store1) [] in
  storeFile w = Document Samples.store1 ∧
  obj_get "session_1" (sessions Samples.store1) = Some Samples.session1 ∧
  writeFaults w = [] ∧
  updateSession "session_1" (upd_status "processing")
    (updateSession "session_1" (upd_status "recording") w).2
  = updateSession "session_1"
      (both (upd_status "recording") (upd_status "processing")) w.
Proof.
  intros w. split_and!; [reflexivity | reflexivity | reflexivity |].
  exact (updateSession_twice_is_merged w Samples.store1 "session_1" Samples.session1
           (upd_status "recording") (upd_status "processing")
           eq_refl eq_refl eq_refl).
Defined.

(** X6. A mutation about one session, whether it succeeds or finds nothing
    to do, leaves the record of every other session as it was (the write,
    when there is one, succeeding). *)
Theorem mutation_leaves_other_sessions (m : Mutation) w id' :
  writeFaults w = [] →
  id' ≠ target m →
  getSession id' (run m w).2 = getSession id' w.
Proof.
  intros Hok Hne.
  assert (∀ o, getSession id'
            (set_storeFile (Document {| sessions := o; lastUpdated := isoNow (clock w) |}) w)
            = obj_get id' o) as Hread by done.
  destruct m as [session | id updates | id evs | id]; simpl in *.
  - rewrite createSession_succeeds by done. simpl.
    rewrite Hread. apply obj_get_set_ne. congruence.
  - unfold updateSession.
    destruct (obj_get id (sessions (loadSessions w))); [|done].
    rewrite saveSessions_succeeds by done. simpl.
    rewrite Hread. apply obj_get_set_ne. congruence.
  - unfold appendEvents.
    destruct (obj_get id (sessions (loadSessions w))); [|done].
    rewrite saveSessions_succeeds by done. simpl.
    rewrite Hread. apply obj_get_set_ne. congruence.
  - unfold deleteSession.
    destruct (obj_get id (sessions (loadSessions w))); [|done].
    rewrite saveSessions_succeeds by (by rewrite writeFaults_fs_rm). simpl.
    unfold getSession. simpl. apply obj_get_delete_ne. congruence.
Qed.

Lemma mutation_leaves_other_sessions_witness :
  let w := Samples.worldOf (Document Samples.store2) [] in
  let m := Delete "session_2" in
  let m' := Patch "session_2" (upd_status "processing") in
  writeFaults w = [] ∧ "session_1" ≠ target m ∧ "session_1" ≠ target m' ∧
  persists m w = true ∧ persists m' w = true ∧
  getSession "session_2" (run m w).2 = None ∧
  getSession "session_1" (run m w).2 = Some Samples.session1 ∧
  (status <$> getSession "session_2" (run m' w).2) = Some "processing" ∧
  getSession "session_1" (run m' w).2 = Some Samples.session1.
Proof.
  intros w m m'.
  assert ("session_1" ≠ target m) as Hne by discriminate.
  assert ("session_1" ≠ target m') as Hne' by discriminate.
  split_and!; [reflexivity | exact Hne | exact Hne' | reflexivity | reflexivity
              | reflexivity | | reflexivity |].
  - by rewrite (mutation_leaves_other_sessions m w "session_1" eq_refl Hne).
  - by rewrite (mutation_leaves_other_sessions m' w "session_1" eq_refl Hne').
Defined.

(** X7. Batches of events appended one call after the other end up stored
    as one sequence: the events the session had, then every batch in the
    order of the calls; nothing is dropped, reordered or deduplicated. *)
Theorem appendEvents_batches w store id session (batches : list (list json)) :
  storeFile w = Document store →
  obj_get id (sessions store) = Some session →
  writeFaults w = [] →
  let w' := foldl (λ w evs, (appendEvents id evs w).2) w batches in
  eventsOf <$> getSession id w' = Some (eventsOf session ++ concat batches).
Proof.
  revert w store session.
  induction batches as [|evs batches IH]; intros w store session Hfile Hget Hok; simpl.
  - rewrite (getSession_document _ _ _ Hfile), Hget. simpl. by rewrite app_nil_r.
  - rewrite (appendEvents_found _ _ _ _ _ Hfile Hget Hok). simpl.
    erewrite IH; [| reflexivity | apply obj_get_set_eq | exact Hok].
    unfold eventsOf. simpl. by rewrite (assoc_L (++)).
Qed.

Lemma appendEvents_batches_witness :
  let w := Samples.worldOf (Document Samples.storeStopped) [] in
  let batches := [[JStr "a"; JStr "b"]; []; [JStr "a"]] in
  storeFile w = Document Samples.storeStopped ∧
  obj_get "session_1" (sessions Samples.storeStopped) = Some Samples.stopped1 ∧
  writeFaults w = [] ∧
  eventsOf <$> getSession "session_1"
                 (foldl (λ w evs, (appendEvents "session_1" evs w).2) w batches)
  = Some [JStr "click"; JStr "a"; JStr "b"; JStr "a"].
Proof.
  intros w batches. split_and!; [reflexivity | reflexivity | reflexivity |].
  exact (appendEvents_batches w Samples.storeStopped "session_1" Samples.stopped1
           batches eq_refl eq_refl eq_refl).
Defined.

End SessionStoreMore.

(** ** Chunk Aggregator, further *)

Section ChunkManagerMore.
  Import ChunkManager.
  Implicit Types (st : State) (chunk : ChunkInfo) (t : MediaType).
  Local Arguments outputPathOf : simpl never.

Lemma tracked_addChunk_other id id' chunk t st :
  id' ≠ id ∨ t ≠ type chunk →
  tracked id' t (addChunk id chunk st) = tracked id' t st.
Proof.
  intros Hother. unfold tracked, addChunk.
  destruct (decide (id' = id)) as [->|Hne].
  - destruct Hother as [?|Htype]; [done|].
    destruct (chunksMap st !! id) as [sc|] eqn:Hsc.
    + rewrite Hsc. simpl. rewrite lookup_insert_eq.
      by destruct t, (type chunk).
    + rewrite lookup_insert_eq. simpl. rewrite lookup_insert_eq.
      by destruct t, (type chunk).
  - destruct (chunksMap st !! id) as [sc|] eqn:Hsc.
    + rewrite Hsc. simpl. by rewrite lookup_insert_ne.
    + rewrite lookup_insert_eq. simpl. by rewrite !lookup_insert_ne.
Qed.

(** X8. Tracking a chunk touches nothing but the list of its own session
    and media type: the chunks tracked for another session, or for the
    other media type of the same session, are as before, and so is every
    file. *)
Theorem addChunk_leaves_the_rest id id' chunk t st :
  id' ≠ id ∨ t ≠ type chunk →
  tracked id' t (addChunk id chunk st) = tracked id' t st ∧
  files (addChunk id chunk st) = files st.
Proof. intros Hother. split; [by apply tracked_addChunk_other | apply files_addChunk]. Qed.

Lemma addChunk_leaves_the_rest_witness :
  let st := addChunk "session_1" Samples.chunk0 Samples.uploaded in
  let audio1 :=
    {| index := 1; type := Audio; path := "/rec/session_1/chunk_audio_1.webm";
       size := 2 |} in
  ("session_1" ≠ "session_1" ∨ Video ≠ type audio1) ∧
  tracked "session_1" Video (addChunk "session_1" audio1 st) = [Samples.chunk0].
Proof.
  intros st audio1.
  assert ("session_1" ≠ "session_1" ∨ Video ≠ type audio1) as H by (right; discriminate).
  split; [exact H|].
  by destruct (addChunk_leaves_the_rest "session_1" "session_1" audio1 Video st H)
    as [-> _].
Defined.

(** X9. Whatever chunks arrive and in whatever order - gaps, repeated
    indices and both media types included - the chunks tracked for a
    session and type are those tracked before together with every arrival
    of that type, none dropped and none merged; and when at least one such
    chunk arrived they are in ascending order of index. *)
Theorem addChunk_tracks_all_in_order id t st arrival :
  let st' := foldl (λ s chunk, addChunk id chunk s) st arrival in
  tracked id t st' ≡ₚ tracked id t st ++ filter (λ chunk, type chunk = t) arrival ∧
  (filter (λ chunk, type chunk = t) arrival ≠ [] →
   StronglySorted (λ a b, index a ≤ index b)%Z (tracked id t st')).
Proof.
  revert st. induction arrival as [|chunk arrival IH] using rev_ind; intros st.
  - simpl. by rewrite app_nil_r.
  - rewrite foldl_app, filter_app. simpl.
    destruct (IH st) as [Hperm Hsorted].
    destruct (decide (type chunk = t)) as [Ht|Ht].
    + rewrite tracked_addChunk_of by done.
      rewrite filter_cons_True, filter_nil by done. split.
      * by rewrite array_sort_perm, Hperm, (assoc_L (++)).
      * intros _. apply array_sort_sorted.
        -- intros a b c ??. lia.
        -- intros a b ?%Z.ltb_ge. lia.
        -- intros a b ?%Z.ltb_lt. lia.
    + rewrite tracked_addChunk_other by (right; congruence).
      rewrite filter_cons_False, filter_nil, app_nil_r by done. by split.
Qed.

Lemma addChunk_tracks_all_in_order_witness :
  let arrival := [Samples.chunk2; Samples.chunk0; Samples.chunk2; Samples.chunk1] in
  let st' := foldl (λ s chunk, addChunk "session_1" chunk s) Samples.uploaded arrival in
  filter (λ chunk, type chunk = Video) arrival ≠ [] ∧
  StronglySorted (λ a b, index a ≤ index b)%Z (tracked "session_1" Video st') ∧
  length (tracked "session_1" Video st') = 4.
Proof.
  intros arrival st'.
  assert (filter (λ chunk, type chunk = Video) arrival ≠ []) as Hne by discriminate.
  destruct (addChunk_tracks_all_in_order "session_1" Video Samples.uploaded arrival)
    as [Hperm Hsorted].
  split_and!; [exact Hne | exact (Hsorted Hne) | reflexivity].
Defined.

Lemma pipeChunks_app out (before after : list ChunkInfo) fs :
  pipeChunks out (before ++ after) fs =
    match pipeChunks out before fs with
    | (Returned _, fs') => pipeChunks out after fs'
    | (Threw e, fs') => (Threw e, fs')
    end.
Proof.
  revert fs. induction before as [|chunk before IH]; intros fs; simpl; [done|].
  destruct (fs !! path chunk); [apply IH | done].
Qed.

(** X10. A merge of two or more tracked chunks whose files are all there,
    under names that differ from one another and from the artifact's:
    the artifact holds exactly the payloads in the order the chunks are
    tracked (whatever a file of that name held before), no file other than
    the artifact and the chunk files is touched, and nothing remains
    tracked. *)
Theorem mergeChunks_concatenates id t st c1 c2 rest payloads :
  tracked id t st = c1 :: c2 :: rest →
  NoDup (outputPathOf (recordingsDir st) id t :: (path <$> c1 :: c2 :: rest)) →
  Forall2 (λ chunk data, files st !! path chunk = Some data) (c1 :: c2 :: rest) payloads →
  let out := outputPathOf (recordingsDir st) id t in
  let r := mergeChunks id t st in
  r.1 = Returned out ∧
  files r.2 !! out = Some (concat payloads) ∧
  (∀ p, p ≠ out → p ∉ (path <$> c1 :: c2 :: rest) → files r.2 !! p = files st !! p) ∧
  tracked id t r.2 = [].
Proof.
  intros Htracked Hnd Hfiles out r. subst r.
  unfold tracked in Htracked.
  destruct (chunksMap st !! id) as [sc|] eqn:Hsc; [|done].
  erewrite mergeChunks_several by done. cbv zeta. fold out.
  destruct (pipeChunks_concat out (c1 :: c2 :: rest) payloads
              (<[out:=[]]> (files st)) [])
    as (fs' & Hrun & Hcontent & Hgone & Hother).
  - exact Hnd.
  - apply (chunk_files_kept (files st)); [|done].
    intros chunk Hin. apply lookup_insert_ne.
    apply NoDup_cons in Hnd as [Hout _]. intros Heq. apply Hout.
    unfold out in Heq. rewrite Heq. by apply list_elem_of_fmap_2.
  - apply lookup_insert_eq.
  - rewrite Hrun. simpl. split_and!; [done | done | |].
    + intros p Hp Hnot. rewrite Hother by done. by apply lookup_insert_ne.
    + unfold tracked. simpl. rewrite lookup_insert_eq. by destruct t.
Qed.

Lemma mergeChunks_concatenates_witness :
  let st := foldl (λ s chunk, addChunk "session_1" chunk s) Samples.uploaded
              [Samples.chunk1; Samples.chunk0] in
  let out := outputPathOf (recordingsDir st) "session_1" Video in
  tracked "session_1" Video st = [Samples.chunk0; Samples.chunk1] ∧
  NoDup (out :: (path <$> [Samples.chunk0; Samples.chunk1])) ∧
  Forall2 (λ chunk data, files st !! path chunk = Some data)
    [Samples.chunk0; Samples.chunk1] [Samples.payload0; Samples.payload1] ∧
  files (mergeChunks "session_1" Video st).2 !! out
    = Some (Samples.payload0 ++ Samples.payload1).
Proof.
  intros st out.
  assert (NoDup (out :: (path <$> [Samples.chunk0; Samples.chunk1]))) as Hnd
    by (apply (bool_decide_unpack _); vm_compute; exact I).
  assert (Forall2 (λ chunk data, files st !! path chunk = Some data)
            [Samples.chunk0; Samples.chunk1] [Samples.payload0; Samples.payload1])
    as Hfiles by (repeat constructor).
  destruct (mergeChunks_concatenates "session_1" Video st Samples.chunk0 Samples.chunk1 []
              [Samples.payload0; Samples.payload1] eq_refl Hnd Hfiles)
    as (_ & H & _).
  split_and!; [reflexivity | exact Hnd | exact Hfiles | exact H].
Defined.

(** X11. A merge of a single tracked chunk moves its file: the artifact
    holds the chunk's payload, the chunk file no longer exists, and no other
    file is touched. *)
Theorem mergeChunks_single_renames id t st chunk data :
  tracked id t st = [chunk] →
  files st !! path chunk = Some data →
  path chunk ≠ outputPathOf (recordingsDir st) id t →
  let out := outputPathOf (recordingsDir st) id t in
  let r := mergeChunks id t st in
  r.1 = Returned out ∧
  files r.2 !! out = Some data ∧
  files r.2 !! path chunk = None ∧
  (∀ p, p ≠ out → p ≠ path chunk → files r.2 !! p = files st !! p).
Proof.
  intros Htracked Hdata Hne out r. subst r.
  unfold tracked in Htracked.
  destruct (chunksMap st !! id) as [sc|] eqn:Hsc; [|done].
  erewrite mergeChunks_single by done. unfold fs_rename. rewrite Hdata. simpl.
  subst out. split_and!.
  - done.
  - apply lookup_insert_eq.
  - rewrite lookup_insert_ne by done. apply lookup_delete_eq.
  - intros p ??. rewrite lookup_insert_ne by done. by apply lookup_delete_ne.
Qed.

Lemma mergeChunks_single_renames_witness :
  let st := addChunk "session_1" Samples.chunk0 Samples.uploaded in
  let out := outputPathOf (recordingsDir st) "session_1" Video in
  tracked "session_1" Video st = [Samples.chunk0] ∧
  files st !! path Samples.chunk0 = Some Samples.payload0 ∧
  path Samples.chunk0 ≠ out ∧
  files (mergeChunks "session_1" Video st).2 !! out = Some Samples.payload0 ∧
  files (mergeChunks "session_1" Video st).2 !! path Samples.chunk0 = None.
Proof.
  intros st out.
  assert (path Samples.chunk0 ≠ out) as Hne by discriminate.
  destruct (mergeChunks_single_renames "session_1" Video st Samples.chunk0
              Samples.payload0 eq_refl eq_refl Hne) as (_ & H1 & H2 & _).
  split_and!; [reflexivity | reflexivity | exact Hne | exact H1 | exact H2].
Defined.

(** X12. A merge of several chunks that meets a chunk whose file is missing
    stops there and undoes nothing: it throws the file system's error, the
    artifact is left holding the payloads of the chunks before the missing
    one and nothing of the chunks after it, no file other than the
    artifact and the chunk files is touched, and every chunk is still
    tracked. *)
Theorem mergeChunks_missing_file_no_rollback id t st before missing after payloads :
  tracked id t st = before ++ missing :: after →
  2 ≤ length (before ++ missing :: after) →
  NoDup (outputPathOf (recordingsDir st) id t :: (path <$> before ++ missing :: after)) →
  Forall2 (λ chunk data, files st !! path chunk = Some data) before payloads →
  files st !! path missing = None →
  let out := outputPathOf (recordingsDir st) id t in
  let r := mergeChunks id t st in
  r.1 = Threw (IOError "ENOENT") ∧
  files r.2 !! out = Some (concat payloads) ∧
  (∀ p, p ≠ out → p ∉ (path <$> before) → files r.2 !! p = files st !! p) ∧
  tracked id t r.2 = before ++ missing :: after.
Proof.
  intros Htracked Hlen Hnd Hfiles Hmissing out r. subst r.
  assert (tracked id t st = before ++ missing :: after) as Hkeep by done.
  unfold tracked in Htracked.
  destruct (chunksMap st !! id) as [sc|] eqn:Hsc;
    [|by destruct before; simplify_eq].
  assert (∃ c1 c2 rest, before ++ missing :: after = c1 :: c2 :: rest)
    as (c1 & c2 & rest & Hshape).
  { destruct (before ++ missing :: after) as [|c1 [|c2 rest]]; simpl in Hlen;
      [lia | lia | eauto]. }
  rewrite Hshape in Htracked.
  erewrite mergeChunks_several by done. cbv zeta. fold out.
  rewrite <- Hshape, pipeChunks_app.
  rewrite fmap_app in Hnd. simpl in Hnd.
  apply NoDup_cons in Hnd as [Hout Hnd].
  apply not_elem_of_app in Hout as [Hout_before Hout_rest].
  apply not_elem_of_cons in Hout_rest as [Hout_missing _].
  apply NoDup_app in Hnd as (Hnd_before & Hdisj & _).
  destruct (pipeChunks_concat out before payloads (<[out:=[]]> (files st)) [])
    as (fs' & Hrun & Hcontent & Hgone & Hother).
  - by apply NoDup_cons.
  - apply (chunk_files_kept (files st)); [|done].
    intros chunk Hin. apply lookup_insert_ne.
    intros Heq. apply Hout_before. unfold out in Heq. rewrite Heq.
    by apply list_elem_of_fmap_2.
  - apply lookup_insert_eq.
  - rewrite Hrun. simpl.
    assert (fs' !! path missing = None) as ->.
    { rewrite Hother; [by rewrite lookup_insert_ne | done |].
      intros Hin. apply (Hdisj _ Hin). apply elem_of_cons. by left. }
    simpl. split_and!; [done | by rewrite Hcontent | |].
    + intros p Hp Hnot. rewrite Hother by done. by apply lookup_insert_ne.
    + unfold tracked. simpl. rewrite Hsc. by rewrite Htracked.
Qed.

Lemma mergeChunks_missing_file_no_rollback_witness :
  let lost :=
    {| index := 1; type := Video; path := "/rec/session_1/chunk_video_lost.webm";
       size := 2 |} in
  let st := foldl (λ s chunk, addChunk "session_1" chunk s) Samples.uploaded
              [Samples.chunk0; lost; Samples.chunk2] in
  let out := outputPathOf (recordingsDir st) "session_1" Video in
  let r := mergeChunks "session_1" Video st in
  tracked "session_1" Video st = [Samples.chunk0] ++ lost :: [Samples.chunk2] ∧
  files st !! path lost = None ∧
  r.1 = Threw (IOError "ENOENT") ∧
  files r.2 !! out = Some Samples.payload0 ∧
  files r.2 !! path Samples.chunk2 = Some Samples.payload2 ∧
  tracked "session_1" Video r.2 = [Samples.chunk0; lost; Samples.chunk2].
Proof.
  intros lost st out r.
  assert (NoDup (outputPathOf (recordingsDir st) "session_1" Video ::
                 (path <$> [Samples.chunk0] ++ lost :: [Samples.chunk2]))) as Hnd
    by (apply (bool_decide_unpack _); vm_compute; exact I).
  assert (Forall2 (λ chunk data, files st !! path chunk = Some data)
            [Samples.chunk0] [Samples.payload0]) as Hfiles by (repeat constructor).
  assert (2 ≤ length ([Samples.chunk0] ++ lost :: [Samples.chunk2])) as Hlen
    by (simpl; lia).
  destruct (mergeChunks_missing_file_no_rollback "session_1" Video st
              [Samples.chunk0] lost [Samples.chunk2] [Samples.payload0]
              eq_refl Hlen Hnd Hfiles eq_refl) as (H1 & H2 & H3 & H4).
  split_and!; [reflexivity | reflexivity | exact H1 | exact H2 | | exact H4].
  rewrite H3; [reflexivity | discriminate |].
  intros Hin. apply list_elem_of_singleton in Hin. discriminate Hin.
Defined.

End ChunkManagerMore.

(** ** Processing Pipeline, further *)

Section PipelineMore.
  Import SessionManager ProcessingPipeline Observations.
  Implicit Types (pw : PWorld) (w : World).
  Local Arguments update : simpl never.

(** Symbolic execution of a run, as above, remembering each choice made. *)
Local Ltac run_stages :=
  unfold process, try_catch, bind, emitStatus, emit, log, ret, throw, await,
    toISOString, start;
  simpl;
  repeat first
    [ erewrite update_found by
        first [ reflexivity | eassumption | apply obj_get_set_eq ];
      simpl
    | match goal with
      | |- context [if ?b then _ else _] => destruct b eqn:?; simpl
      | |- context [match DeepgramService.transcribeFile ?d ?p with _ => _ end] =>
          destruct (DeepgramService.transcribeFile d p) eqn:?; simpl
      | |- context [match PythonClient.processAudio ?c ?q with _ => _ end] =>
          destruct (PythonClient.processAudio c q) eqn:?; simpl
      end ].

(** Which logged action a membership in an explicit trace speaks of. *)
Local Ltac logged H :=
  repeat (apply elem_of_cons in H as [H|H]; [try discriminate H|]);
  try (by apply elem_of_nil in H).

Local Ltac stored_record :=
  eexists; split; [unfold getSession; simpl; apply obj_get_set_eq | done].

(** X13. A run in which the enrichment gateway is called and answers, on a
    stored session with a store whose writes succeed: the request carries
    the audio path and the events of the session as it was handed to the
    run; the run returns normally and leaves the session ["completed"],
    with the refined script built from the transcript sent and the answer,
    the synthesized audio path of the answer and the time of processing;
    the statuses written are ["synthesizing"] then ["completed"], after
    ["transcribing"] when there was a transcription - never ["refining"];
    and the last broadcast is [session_complete]. *)
Theorem process_enriches svc session w store stored req resp :
  storeFile w = Document store →
  obj_get (sessionId session) (sessions store) = Some stored →
  writeFaults w = [] →
  let r := process svc session (start w None) in
  ProcessAudio req ∈ trace r.2 →
  PythonClient.processAudio (pythonClient svc) req = Returned resp →
  r.1 = Returned () ∧
  PythonClient.req_audioPath req = orEmpty (audioPath session) ∧
  PythonClient.domEvents req = eventsOf session ∧
  (∃ final,
     getSession (sessionId session) (world r.2) = Some final ∧
     status final = "completed" ∧
     refinedScript final
       = Some (refinedScriptOf (PythonClient.rawTranscript req) resp) ∧
     synthesizedAudioPath final = Some (PythonClient.synthesizedAudioPath resp) ∧
     processedAt final = Some (isoNow (clock w))) ∧
  (∃ before, statusesWritten (trace r.2) = before ++ ["synthesizing"; "completed"] ∧
             (before = [] ∨ before = ["transcribing"])) ∧
  last (broadcasts (trace r.2)) = Some (session_complete (sessionId session)).
Proof.
  intros Hfile Hget Hok r. subst r. run_stages.
  all: intros Hin; logged Hin.
  all: injection Hin as ->.
  all: match goal with
       | H : PythonClient.processAudio _ _ = _ |- _ => rewrite H
       end; intros ?; simplify_eq.
  all: split_and!; [done | done | done | | | done].
  all: first
    [ stored_record
    | exists []; split; [reflexivity | by left]
    | exists ["transcribing"]; split; [reflexivity | by right] ].
Qed.

Lemma process_enriches_witness :
  let w := Samples.worldOf (Document Samples.storeStopped) [] in
  let r := process Samples.servicesUp Samples.stopped1 (start w None) in
  let req :=
    {| PythonClient.req_sessionId := "session_1";
       PythonClient.req_audioPath := "/rec/session_1/recording_audio.webm";
       PythonClient.rawTranscript := "click the button";
       PythonClient.domEvents := [JStr "click"] |} in
  ProcessAudio req ∈ trace r.2 ∧
  statusesWritten (trace r.2) = ["transcribing"; "synthesizing"; "completed"] ∧
  (∃ final,
     getSession "session_1" (world r.2) = Some final ∧
     status final = "completed" ∧
     refinedScript final = Some (refinedScriptOf "click the button" Samples.response1) ∧
     synthesizedAudioPath final = Some "/rec/session_1/voice.mp3" ∧
     processedAt final = Some "t1").
Proof.
  intros w r req.
  assert (ProcessAudio req ∈ trace r.2) as Hin.
  { vm_compute. repeat (apply elem_of_cons; first [by left | right]). }
  destruct (process_enriches Samples.servicesUp Samples.stopped1 w Samples.storeStopped
              Samples.stopped1 req Samples.response1 eq_refl eq_refl eq_refl Hin eq_refl)
    as (_ & _ & _ & Hfinal & _).
  split_and!; [exact Hin | reflexivity | exact Hfinal].
Defined.

(** X14. A run in which the enrichment gateway is called and fails, on a
    stored session with a store whose writes succeed: the run still returns
    normally; the session is left in status ["error"] with the failure's
    message, and without the refined script, synthesized audio path or
    processing time being written; the failure is broadcast last, as an
    [error] event with the same message; the gateway is not called again. *)
Theorem process_enrichment_failure svc session w store stored req e :
  storeFile w = Document store →
  obj_get (sessionId session) (sessions store) = Some stored →
  writeFaults w = [] →
  let r := process svc session (start w None) in
  ProcessAudio req ∈ trace r.2 →
  PythonClient.processAudio (pythonClient svc) req = Threw e →
  r.1 = Returned () ∧
  (∃ final,
     getSession (sessionId session) (world r.2) = Some final ∧
     status final = "error" ∧
     error final = Some (messageOf e) ∧
     refinedScript final = refinedScript stored ∧
     synthesizedAudioPath final = synthesizedAudioPath stored ∧
     processedAt final = processedAt stored) ∧
  last (broadcasts (trace r.2)) = Some (error_event (sessionId session) (messageOf e)) ∧
  last (gatewayCalls (trace r.2)) = Some (ProcessAudio req).
Proof.
  intros Hfile Hget Hok r. subst r. run_stages.
  all: intros Hin; logged Hin.
  all: injection Hin as ->.
  all: match goal with
       | H : PythonClient.processAudio _ _ = _ |- _ => rewrite H
       end; intros ?; simplify_eq.
  all: split_and!; [done | stored_record | done | done].
Qed.

Lemma process_enrichment_failure_witness :
  let w := Samples.worldOf (Document Samples.storeStopped) [] in
  let r := process Samples.enrichmentFails Samples.stopped1 (start w None) in
  let req :=
    {| PythonClient.req_sessionId := "session_1";
       PythonClient.req_audioPath := "/rec/session_1/recording_audio.webm";
       PythonClient.rawTranscript := "click the button";
       PythonClient.domEvents := [JStr "click"] |} in
  ProcessAudio req ∈ trace r.2 ∧
  r.1 = Returned () ∧
  last (broadcasts (trace r.2))
    = Some (error_event "session_1" "Request failed with status code 500").
Proof.
  intros w r req.
  assert (ProcessAudio req ∈ trace r.2) as Hin.
  { vm_compute. repeat (apply elem_of_cons; first [by left | right]). }
  destruct (process_enrichment_failure Samples.enrichmentFails Samples.stopped1 w
              Samples.storeStopped Samples.stopped1 req
              (Error "Request failed with status code 500")
              eq_refl eq_refl eq_refl Hin eq_refl)
    as (H1 & _ & H2 & _).
  split_and!; [exact Hin | exact H1 | exact H2].
Defined.

(** X15. A run in which the speech-to-text gateway is called and fails, on a
    stored session with a store whose writes succeed: the run returns
    normally and stops there - the health of the enrichment service is not
    probed and enrichment is not called; the session is left in status
    ["error"] with the failure's message and its transcription as it was;
    the failure is broadcast last. *)
Theorem process_transcription_failure svc session w store stored audio e :
  storeFile w = Document store →
  obj_get (sessionId session) (sessions store) = Some stored →
  writeFaults w = [] →
  let r := process svc session (start w None) in
  Transcribe audio ∈ trace r.2 →
  DeepgramService.transcribeFile (deepgram svc) audio = Threw e →
  r.1 = Returned () ∧
  (∃ final,
     getSession (sessionId session) (world r.2) = Some final ∧
     status final = "error" ∧
     error final = Some (messageOf e) ∧
     transcription final = transcription stored) ∧
  last (broadcasts (trace r.2)) = Some (error_event (sessionId session) (messageOf e)) ∧
  gatewayCalls (trace r.2) = [Transcribe audio] ∧
  (∀ healthy, HealthCheck healthy ∉ trace r.2).
Proof.
  intros Hfile Hget Hok r. subst r. run_stages.
  all: intros Hin; logged Hin.
  all: injection Hin as ->.
  all: match goal with
       | H : DeepgramService.transcribeFile _ _ = _ |- _ => rewrite H
       end; intros ?; simplify_eq.
  all: split_and!; [done | stored_record | done | done |].
  all: intros healthy Hprobe; logged Hprobe.
Qed.

Lemma process_transcription_failure_witness :
  let w := Samples.worldOf (Document Samples.storeStopped) [] in
  let r := process Samples.transcriptionFails Samples.stopped1 (start w None) in
  let audio := "/rec/session_1/recording_audio.webm" in
  Transcribe audio ∈ trace r.2 ∧
  r.1 = Returned () ∧
  gatewayCalls (trace r.2) = [Transcribe audio] ∧
  last (broadcasts (trace r.2))
    = Some (error_event "session_1" "Deepgram transcription failed: timeout").
Proof.
  intros w r audio.
  assert (Transcribe audio ∈ trace r.2) as Hin.
  { vm_compute. repeat (apply elem_of_cons; first [by left | right]). }
  destruct (process_transcription_failure Samples.transcriptionFails Samples.stopped1 w
              Samples.storeStopped Samples.stopped1 audio
              (Error "Deepgram transcription failed: timeout")
              eq_refl eq_refl eq_refl Hin eq_refl)
    as (H1 & _ & H2 & H3 & _).
  split_and!; [exact Hin | exact H1 | exact H3 | exact H2].
Defined.

(** X16. Whatever the gateways answer, a run on a stored session with a
    store whose writes succeed and nobody else touching it never rejects,
    and leaves the session either ["completed"], with its processing time
    set and [session_complete] as the last broadcast, or in ["error"], with
    the message that the last broadcast, an [error] event, carries. *)
Theorem process_ends_completed_or_error svc session w store stored :
  storeFile w = Document store →
  obj_get (sessionId session) (sessions store) = Some stored →
  writeFaults w = [] →
  let r := process svc session (start w None) in
  r.1 = Returned () ∧
  ∃ final,
    getSession (sessionId session) (world r.2) = Some final ∧
    endedAs (sessionId session) final (last (broadcasts (trace r.2))).
Proof.
  intros Hfile Hget Hok r. subst r. run_stages.
  all: split; [done|].
  all: eexists; split; [unfold getSession; simpl; apply obj_get_set_eq|].
  all: first [ by left; split_and!; eauto | by right; split; eauto ].
Qed.

Lemma process_ends_completed_or_error_witness :
  let w := Samples.worldOf (Document Samples.storeStopped) [] in
  let r := process Samples.enrichmentFails Samples.stopped1 (start w None) in
  storeFile w = Document Samples.storeStopped ∧
  obj_get "session_1" (sessions Samples.storeStopped) = Some Samples.stopped1 ∧
  writeFaults w = [] ∧
  r.1 = Returned () ∧
  ∃ final,
    getSession "session_1" (world r.2) = Some final ∧
    endedAs "session_1" final (last (broadcasts (trace r.2))).
Proof.
  intros w r. split_and!; [reflexivity | reflexivity | reflexivity | ..];
    apply (process_ends_completed_or_error Samples.enrichmentFails Samples.stopped1 w
             Samples.storeStopped Samples.stopped1 eq_refl eq_refl eq_refl).
Defined.

Lemma establishes_ret {A} I (Q : A → Prop) x : Q x → establishes I (ret x) Q.
Proof. intros Hx pw Hpw. split; [done|]. by intros ? [= <-]. Qed.

Lemma establishes_then {A B} I (Q : B → Prop) (m : M A) (k : M B) :
  preserves I m → establishes I k Q → establishes I (bind m (λ _, k)) Q.
Proof.
  intros Hm Hk pw Hpw. unfold bind. specialize (Hm pw Hpw).
  destruct (m pw) as [[x|e] pw']; simpl in *; [by apply Hk | done].
Qed.

Lemma preserves_bind_with {A B} I (Q : A → Prop) (m : M A) (k : A → M B) :
  establishes I m Q → (∀ x, Q x → preserves I (k x)) → preserves I (bind m k).
Proof.
  intros Hm Hk pw Hpw. unfold bind. destruct (Hm pw Hpw) as [Hkept Hvalue].
  destruct (m pw) as [[x|e] pw']; simpl in *; [|done].
  apply Hk; [by apply Hvalue | done].
Qed.

(** X17. When the session has no audio artifact, or no Deepgram key is
    configured, a run leaves transcription out altogether, whatever else
    happens to the store meanwhile: the speech-to-text gateway is not
    called, no update names [transcription], no [transcription_ready] is
    broadcast, and enrichment, if it is called, is handed the empty
    transcript. *)
Theorem process_without_transcription svc session w pending :
  truthy (audioPath session) && DeepgramService.isConfigured (deepgram svc) = false →
  Forall skipsTranscription (trace (process svc session (start w pending)).2).
Proof.
  intros Hskip.
  cut (preserves (allLogged skipsTranscription) (process svc session)).
  { intros Hkeeps. exact (Hkeeps (start w pending) (Forall_nil_2 _)). }
  clear w pending. unfold process, emitStatus. rewrite Hskip.
  apply preserves_try_catch.
  - apply preserves_bind; [by apply allLogged_emit|]. intros _.
    apply (preserves_bind_with _ (λ t, DeepgramService.rawText t = "")).
    + destruct (negb (DeepgramService.isConfigured (deepgram svc))).
      * apply establishes_then; [by apply allLogged_emit | by apply establishes_ret].
      * by apply establishes_ret.
    + intros t Ht.
      repeat first
        [ apply allLogged_update; done
        | apply allLogged_emit; done
        | apply allLogged_log; done
        | apply preserves_bind
        | apply preserves_ret
        | apply preserves_await
        | apply preserves_toISOString
        | match goal with
          | |- preserves _ (if ?b then _ else _) => destruct b
          | |- ∀ _, preserves _ _ => intros ?
          end ].
  - intros e. apply preserves_bind; [by apply allLogged_update|].
    intros _. by apply allLogged_emit.
Qed.

Lemma process_without_transcription_witness :
  let w := Samples.worldOf (Document Samples.storeStopped) [] in
  let r := process Samples.deepgramOff Samples.stopped1 (start w None) in
  truthy (audioPath Samples.stopped1)
    && DeepgramService.isConfigured (deepgram Samples.deepgramOff) = false ∧
  Forall skipsTranscription (trace r.2) ∧
  (status <$> getSession "session_1" (world r.2)) = Some "completed".
Proof.
  intros w r. split_and!; [reflexivity | | reflexivity].
  exact (process_without_transcription Samples.deepgramOff Samples.stopped1 w None
           eq_refl).
Defined.

Lemma try_catch_rejects {A} (body : M A) handler pw e :
  (try_catch body handler pw).1 = Threw e →
  ∃ cause pw',
    (handler cause pw').1 = Threw e ∧
    (try_catch body handler pw).2 = (handler cause pw').2.
Proof.
  unfold try_catch. destruct (body pw) as [[x|cause] pw']; simpl; [done|]. eauto.
Qed.

Lemma update_rejects id updates pw e :
  (update id updates pw).1 = Threw e →
  last (trace (update id updates pw).2) = Some (Update id updates (Threw e)).
Proof.
  destruct (update_shape id updates pw) as (mid & result & w' & p' & _ & _ & ->).
  simpl. destruct result as [r|e']; [done|]. intros [= ->].
  by rewrite (assoc_L (++)), last_snoc.
Qed.

(** X18. A run rejects in one case only, whatever the gateways answer,
    whatever the store holds and whatever else happens meanwhile: when the
    update that should record an error in the session itself throws.  That
    failed update, naming status ["error"] and the message of the failure
    being recorded, is then the last thing the run did, and the run rejects
    with what the update threw. *)
Theorem process_rejects_only_unrecorded_error svc session w pending e :
  let r := process svc session (start w pending) in
  r.1 = Threw e →
  ∃ cause,
    last (trace r.2) =
      Some (Update (sessionId session)
              (literal [upd_status "error"; upd_error (messageOf cause)])
              (Threw e)).
Proof.
  intros r Hrejects. subst r. unfold process in *.
  apply try_catch_rejects in Hrejects as (cause & pw' & Hhandler & ->).
  exists cause. unfold bind in *.
  destruct (update (sessionId session)
              (literal [upd_status "error"; upd_error (messageOf cause)]) pw')
    as [[[]|e'] pw''] eqn:Hupdate; simpl in *; [done|].
  injection Hhandler as ->.
  pose proof (update_rejects (sessionId session)
                (literal [upd_status "error"; upd_error (messageOf cause)]) pw' e)
    as Hlast.
  rewrite Hupdate in Hlast. by apply Hlast.
Qed.

Lemma process_rejects_only_unrecorded_error_witness :
  let w := Samples.worldOf (Document Samples.storeStopped) [FailAtOpen; FailAtOpen] in
  let r := process Samples.servicesUp Samples.stopped1 (start w None) in
  r.1 = Threw (IOError "EACCES") ∧
  ∃ cause,
    last (trace r.2) =
      Some (Update "session_1"
              (literal [upd_status "error"; upd_error (messageOf cause)])
              (Threw (IOError "EACCES"))).
Proof.
  intros w r.
  assert (r.1 = Threw (IOError "EACCES")) as Hrejects by (by vm_compute).
  split; [exact Hrejects|].
  exact (process_rejects_only_unrecorded_error Samples.servicesUp Samples.stopped1 w None
           (IOError "EACCES") Hrejects).
Defined.

End PipelineMore.

(** ** Looking a session's files up *)

Section SessionFilesFacts.
  Import SessionFiles.

Lemma classify_videoPath dir result file :
  videoPath (classify dir result file) =
    if isVideo file then Some (path_join dir file) else videoPath result.
Proof. unfold classify. by repeat case_match. Qed.

Lemma classify_audioPath dir result file :
  audioPath (classify dir result file) =
    if negb (isVideo file) && isAudio file then Some (path_join dir file)
    else audioPath result.
Proof. unfold classify. by repeat case_match. Qed.

Lemma classify_eventsPath dir result file :
  eventsPath (classify dir result file) =
    if decide (file = "dom_events.json") then Some (path_join dir file)
    else eventsPath result.
Proof.
  unfold classify. destruct (decide (file = "dom_events.json")) as [->|Hne]; [done|].
  apply String.eqb_neq in Hne. rewrite Hne. by repeat case_match.
Qed.

(** X19. What [getSessionFiles] reports for a directory listing: as video,
    the last name that contains ["video"] and ends in [".webm"]; as audio,
    the last name that contains ["audio"], ends in [".webm"] and is not
    taken as video; as events file, [dom_events.json] exactly when it is
    listed; each joined to the session's directory.  Chunk files left in
    the directory count like artifacts. *)
Theorem getSessionFiles_last_match dir id names :
  let found := getSessionFiles dir id (Returned names) in
  let sessionDir := path_join dir id in
  videoPath found = path_join sessionDir <$> last (filter (λ f, isVideo f) names) ∧
  audioPath found =
    path_join sessionDir <$> last (filter (λ f, negb (isVideo f) && isAudio f) names) ∧
  eventsPath found =
    if decide ("dom_events.json" ∈ names)
    then Some (path_join sessionDir "dom_events.json") else None.
Proof.
  unfold getSessionFiles.
  induction names as [|file names IH] using rev_ind; cbv zeta.
  - split_and!; [done | done |].
    case_decide as Hin; [by apply elem_of_nil in Hin | done].
  - cbv zeta in IH. destruct IH as (IHv & IHa & IHe).
    rewrite foldl_app, !filter_app. simpl.
    rewrite classify_videoPath, classify_audioPath, classify_eventsPath.
    split_and!.
    + destruct (isVideo file) eqn:Hv.
      * rewrite filter_cons_True by (by apply Is_true_true).
        by rewrite filter_nil, last_snoc.
      * rewrite filter_cons_False by (by apply Is_true_false).
        by rewrite filter_nil, app_nil_r.
    + destruct (negb (isVideo file) && isAudio file) eqn:Ha.
      * rewrite filter_cons_True by (by apply Is_true_true).
        by rewrite filter_nil, last_snoc.
      * rewrite filter_cons_False by (by apply Is_true_false).
        by rewrite filter_nil, app_nil_r.
    + destruct (decide (file = "dom_events.json")) as [->|Hne].
      * rewrite decide_True; [done|]. apply elem_of_app. right. by apply list_elem_of_singleton.
      * rewrite IHe. destruct (decide ("dom_events.json" ∈ names)) as [Hin|Hnot].
        -- rewrite decide_True; [done|]. apply elem_of_app. by left.
        -- rewrite decide_False; [done|].
           intros [?|?%list_elem_of_singleton]%elem_of_app; [done | congruence].
Qed.

(** X20. The files the chunk manager writes for a session are the files it
    finds: when the session's directory holds the two merged artifacts and
    the events backup and nothing else, in whatever order the directory
    lists them, [getSessionFiles] reports the very paths [mergeChunks]
    returned for video and for audio, and the backup. *)
Theorem merged_artifacts_are_found dir id names :
  names ≡ₚ [artifactName ChunkManager.Video; artifactName ChunkManager.Audio;
            "dom_events.json"] →
  getSessionFiles dir id (Returned names) =
    {| videoPath := Some (ChunkManager.outputPathOf dir id ChunkManager.Video);
       audioPath := Some (ChunkManager.outputPathOf dir id ChunkManager.Audio);
       eventsPath := Some (path_join (path_join dir id) "dom_events.json") |}.
Proof.
  intros Hperm. symmetry in Hperm. apply permutations_Permutation in Hperm.
  simpl in Hperm.
  repeat (apply elem_of_cons in Hperm as [->|Hperm]);
    [.. | by apply elem_of_nil in Hperm]; reflexivity.
Qed.

Lemma merged_artifacts_are_found_witness :
  let names := ["dom_events.json"; "recording_audio.webm"; "recording_video.webm"] in
  names ≡ₚ [artifactName ChunkManager.Video; artifactName ChunkManager.Audio;
            "dom_events.json"] ∧
  videoPath (getSessionFiles "/rec" "session_1" (Returned names))
    = Some "/rec/session_1/recording_video.webm".
Proof.
  intros names.
  assert (names ≡ₚ [artifactName ChunkManager.Video; artifactName ChunkManager.Audio;
                    "dom_events.json"]) as Hperm.
  { symmetry. exact (Permutation_rev ["recording_video.webm"; "recording_audio.webm";
                                      "dom_events.json"]). }
  split; [exact Hperm|].
  by rewrite (merged_artifacts_are_found "/rec" "session_1" names Hperm).
Defined.

End SessionFilesFacts.

(** ** The request handlers *)

Section RoutesFacts.
  Import SessionManager Routes.
  Implicit Types (srv : Server) (w : World).
  Local Arguments ChunkManager.outputPathOf : simpl never.

Lemma truthy_nonempty (s : string) : s ≠ "" → ProcessingPipeline.truthy (Some s) = true.
Proof. intros Hne. simpl. by apply bool_decide_eq_true. Qed.



(** X22. Stopping a stored session, the write succeeding: the answer says
    processing has started; the stored session has status ["processing"]
    and the time as end time, whatever its status and end time were, and
    is otherwise unchanged; the status is broadcast with the store already
    holding it; and the pipeline is then set going on exactly the record
    the store holds. *)
Theorem stopRoute_starts_processing id srv store0 session :
  id ≠ "" →
  storeFile (store srv) = Document store0 →
  obj_get id (sessions store0) = Some session →
  writeFaults (store srv) = [] →
  let now := dateNow (clock (store srv)) in
  let stopped :=
    {| sessionId := sessionId session; url := url session;
       viewport := viewport session; startTime := startTime session;
       endTime := Some now; events := events session;
       videoPath := videoPath session; audioPath := audioPath session;
       status := "processing"; title := title session;
       description := description session;
       transcription := transcription session;
       refinedScript := refinedScript session;
       synthesizedAudioPath := synthesizedAudioPath session;
       processedAt := processedAt session; error := error session |} in
  let r := stopRoute (Some id) srv in
  r.1 = Json (ProcessingData id) ∧
  getSession id (store r.2) = Some stopped ∧
  did r.2 = did srv ++
    [Sent (progress
             (ProcessingPipeline.session_status id "processing"
                (Some "Recording stopped, starting processing...")))
          (storeFile (store r.2));
     Spawned stopped].
Proof.
  intros Hne Hfile Hget Hok now stopped r. subst r. unfold stopRoute.
  rewrite (truthy_nonempty _ Hne). simpl.
  rewrite (updateSession_found _ _ _ _ _ Hfile Hget Hok). simpl.
  unfold getSession. simpl. rewrite obj_get_set_eq. simpl.
  unfold getSession. simpl. by rewrite obj_get_set_eq.
Qed.

Lemma stopRoute_starts_processing_witness :
  let srv := {| store := Samples.worldOf (Document Samples.storeStopped) [];
                chunks := Samples.uploaded; did := [] |} in
  let r := stopRoute (Some "session_1") srv in
  "session_1" ≠ "" ∧
  r.1 = Json (ProcessingData "session_1") ∧
  (endTime <$> getSession "session_1" (store r.2)) = Some (Some 9000%Z).
Proof.
  intros srv r.
  assert ("session_1" ≠ "") as Hne by discriminate.
  destruct (stopRoute_starts_processing "session_1" srv Samples.storeStopped
              Samples.stopped1 Hne eq_refl eq_refl eq_refl) as (H1 & H2 & _).
  split_and!; [exact Hne | exact H1 |].
  exact (f_equal (fmap endTime) H2).
Defined.

(** X23. Stopping, or patching, a session under whose id the lookup of the
    store finds nothing - no record, and no member inherited from
    [Object.prototype] - is answered with 404 and changes nothing: nothing
    is written, nothing is broadcast, no pipeline is set going. *)
Theorem unknown_session_is_404 id body srv :
  id ≠ "" →
  Inherited.getSession id (store srv) = Inherited.Undefined →
  stopRoute (Some id) srv = (Fail 404 "Session not found", srv) ∧
  patchRoute id body srv = (Fail 404 "Session not found", srv).
Proof.
  intros Hne [Hnone Hown]%getSession_undefined. unfold stopRoute, patchRoute.
  rewrite (truthy_nonempty _ Hne). simpl.
  rewrite !(updateSession_missing _ _ _ Hnone). simpl. rewrite Hnone.
  by destruct srv.
Qed.

Lemma unknown_session_is_404_witness :
  let srv := {| store := Samples.worldOf (Document Samples.store1) [FailMidway];
                chunks := Samples.uploaded; did := [] |} in
  "session_9" ≠ "" ∧
  Inherited.getSession "session_9" (store srv) = Inherited.Undefined ∧
  stopRoute (Some "session_9") srv = (Fail 404 "Session not found", srv).
Proof.
  intros srv.
  assert ("session_9" ≠ "") as Hne by discriminate.
  destruct (unknown_session_is_404 "session_9"
              {| patch_title := None; patch_description := None |} srv Hne eq_refl)
    as [H _].
  split_and!; [exact Hne | reflexivity | exact H].
Defined.

(** X24. Patching a stored session, the write succeeding: the answer is
    the stored record, which differs from the old one at most in its title
    and description; a title or description that is absent or empty in the
    request leaves the stored one as it is, so neither can be cleared. *)
Theorem patchRoute_changes_title_and_description id body srv store0 session :
  storeFile (store srv) = Document store0 →
  obj_get id (sessions store0) = Some session →
  writeFaults (store srv) = [] →
  let patched :=
    {| sessionId := sessionId session; url := url session;
       viewport := viewport session; startTime := startTime session;
       endTime := endTime session; events := events session;
       videoPath := videoPath session; audioPath := audioPath session;
       status := status session;
       title := if ProcessingPipeline.truthy (patch_title body)
                then patch_title body else title session;
       description := if ProcessingPipeline.truthy (patch_description body)
                      then patch_description body else description session;
       transcription := transcription session;
       refinedScript := refinedScript session;
       synthesizedAudioPath := synthesizedAudioPath session;
       processedAt := processedAt session; error := error session |} in
  let r := patchRoute id body srv in
  r.1 = Json (SessionBody patched) ∧
  getSession id (store r.2) = Some patched ∧
  did r.2 = did srv.
Proof.
  intros Hfile Hget Hok patched r. subst r. unfold patchRoute.
  rewrite (updateSession_found _ _ _ _ _ Hfile Hget Hok). simpl.
  assert (spread session (patchUpdates body) = patched) as ->.
  { subst patched. unfold patchUpdates.
    destruct (patch_title body) as [t|], (patch_description body) as [d|]; simpl;
      repeat case_bool_decide; reflexivity. }
  split_and!; [done | | done].
  unfold getSession. simpl. apply obj_get_set_eq.
Qed.

Lemma patchRoute_changes_title_and_description_witness :
  let srv := {| store := Samples.worldOf (Document Samples.store1) [];
                chunks := Samples.uploaded; did := [] |} in
  let body := {| patch_title := Some "Demo"; patch_description := Some "" |} in
  let r := patchRoute "session_1" body srv in
  (title <$> getSession "session_1" (store r.2)) = Some (Some "Demo") ∧
  (description <$> getSession "session_1" (store r.2)) = Some None.
Proof.
  intros srv body r.
  destruct (patchRoute_changes_title_and_description "session_1" body srv
              Samples.store1 Samples.session1 eq_refl eq_refl eq_refl) as (_ & H & _).
  split; [exact (f_equal (fmap title) H) | exact (f_equal (fmap description) H)].
Defined.

Lemma single_chunk_tracked_then_merged id chunk st data :
  ChunkManager.tracked id (ChunkManager.type chunk) st = [] →
  ChunkManager.files st !! ChunkManager.path chunk = Some data →
  ChunkManager.path chunk
    ≠ ChunkManager.outputPathOf (ChunkManager.recordingsDir st) id (ChunkManager.type chunk) →
  let out :=
    ChunkManager.outputPathOf (ChunkManager.recordingsDir st) id (ChunkManager.type chunk) in
  ∃ st',
    ChunkManager.mergeChunks id (ChunkManager.type chunk) (ChunkManager.addChunk id chunk st)
      = (Returned out, st') ∧
    ChunkManager.files st' !! out = Some data ∧
    ChunkManager.files st' !! ChunkManager.path chunk = None.
Proof.
  intros Hnone Hdata Hne out.
  pose proof (tracked_addChunk id chunk st) as Htracked.
  rewrite Hnone in Htracked. simpl in Htracked. unfold ChunkManager.tracked in Htracked.
  destruct (ChunkManager.chunksMap (ChunkManager.addChunk id chunk st) !! id)
    as [sc|] eqn:Hsc; [|done].
  erewrite mergeChunks_single by done.
  rewrite recordingsDir_addChunk, files_addChunk. fold out.
  unfold ChunkManager.fs_rename. rewrite Hdata. eexists. split; [done|]. simpl. split.
  - apply lookup_insert_eq.
  - rewrite lookup_insert_ne by done. apply lookup_delete_eq.
Qed.

(** X25. Uploading the only chunk of a media type with the last-chunk flag
    set, for a stored session of which no chunk of that type is tracked,
    the chunk file being where multer put it and the write of the store
    succeeding: the upload is acknowledged; the session's path for that
    media type - [videoPath] or [audioPath] - is the artifact's path; the
    artifact holds the uploaded payload and the chunk file is gone. *)
Theorem chunkRoute_last_single_chunk body srv id file size data store0 session :
  chunk_sessionId body = Some id →
  id ≠ "" →
  chunk_file body = Some (file, size) →
  isLastChunk body = true →
  ChunkManager.tracked id (chunkType body) (chunks srv) = [] →
  ChunkManager.files (chunks srv) !! file = Some data →
  file ≠ ChunkManager.outputPathOf (ChunkManager.recordingsDir (chunks srv)) id
           (chunkType body) →
  storeFile (store srv) = Document store0 →
  obj_get id (sessions store0) = Some session →
  writeFaults (store srv) = [] →
  let out :=
    ChunkManager.outputPathOf (ChunkManager.recordingsDir (chunks srv)) id
      (chunkType body) in
  let r := chunkRoute body srv in
  r.1 = Json (ChunkData id (chunkIndex body) (chunkType body)) ∧
  (artifactOf (chunkType body) <$> getSession id (store r.2)) = Some (Some out) ∧
  ChunkManager.files (chunks r.2) !! out = Some data ∧
  ChunkManager.files (chunks r.2) !! file = None.
Proof.
  intros Hid Hne Hfile Hlast Hnone Hdata Hout Hstore Hget Hok out r. subst r.
  unfold chunkRoute. rewrite Hfile, Hid, (truthy_nonempty _ Hne), Hlast. simpl.
  destruct (single_chunk_tracked_then_merged id
              {| ChunkManager.index := chunkIndex body;
                 ChunkManager.type := chunkType body;
                 ChunkManager.path := file; ChunkManager.size := size |}
              (chunks srv) data Hnone Hdata Hout) as (st' & Hmerge & Hartifact & Hgone).
  cbn [ChunkManager.type ChunkManager.path] in Hmerge, Hartifact, Hgone.
  rewrite Hmerge. fold out.
  assert (∀ updates,
            (updateSession id updates (store srv)).1
              = Returned (Some (spread session updates)) ∧
            getSession id (updateSession id updates (store srv)).2
              = Some (spread session updates)) as Hupdated.
  { intros updates. rewrite (updateSession_found _ _ _ _ _ Hstore Hget Hok). simpl.
    split; [done|]. unfold getSession. simpl. apply obj_get_set_eq. }
  destruct (chunkType body);
    match goal with
    | |- context [updateSession id ?u (store srv)] =>
        destruct (Hupdated u) as [Hresult Hstored];
        destruct (updateSession id u (store srv)) as [[result|e] w'];
        simpl in *; [|done];
        rewrite Hstored; done
    end.
Qed.

Lemma chunkRoute_last_single_chunk_witness :
  let srv := {| store := Samples.worldOf (Document Samples.store1) [];
                chunks := Samples.uploaded; did := [] |} in
  let body :=
    {| chunk_sessionId := Some "session_1"; chunkIndex := 0;
       chunkType := ChunkManager.Video; isLastChunk := true;
       chunk_file := Some ("/rec/session_1/chunk_video_0.webm", 3%Z) |} in
  let r := chunkRoute body srv in
  r.1 = Json (ChunkData "session_1" 0 ChunkManager.Video) ∧
  (videoPath <$> getSession "session_1" (store r.2))
    = Some (Some "/rec/session_1/recording_video.webm") ∧
  ChunkManager.files (chunks r.2) !! "/rec/session_1/recording_video.webm"
    = Some Samples.payload0.
Proof.
  intros srv body r.
  assert ("session_1" ≠ "") as Hne by discriminate.
  assert ("/rec/session_1/chunk_video_0.webm"
          ≠ ChunkManager.outputPathOf (ChunkManager.recordingsDir (chunks srv))
              "session_1" (chunkType body)) as Hout by discriminate.
  destruct (chunkRoute_last_single_chunk body srv "session_1"
              "/rec/session_1/chunk_video_0.webm" 3%Z Samples.payload0
              Samples.store1 Samples.session1
              eq_refl Hne eq_refl eq_refl eq_refl eq_refl Hout eq_refl eq_refl eq_refl)
    as (H1 & H2 & H3 & _).
  split_and!; [exact H1 | exact H2 | exact H3].
Defined.

(** X26. The same upload for a session whose directory exists but under
    whose id the lookup of the store finds nothing (no record, no
    inherited member) - a session that was started and whose record has
    since been lost - is acknowledged all the same: the chunk is merged
    into the artifact, and the store is left exactly as it was - the
    handler does not look at what [updateSession] returns. *)
Theorem chunkRoute_unknown_session body srv id file size data :
  chunk_sessionId body = Some id →
  id ≠ "" →
  chunk_file body = Some (file, size) →
  isLastChunk body = true →
  ChunkManager.tracked id (chunkType body) (chunks srv) = [] →
  ChunkManager.files (chunks srv) !! file = Some data →
  file ≠ ChunkManager.outputPathOf (ChunkManager.recordingsDir (chunks srv)) id
           (chunkType body) →
  path_join (ChunkManager.recordingsDir (chunks srv)) id ∈ sessionDirs (store srv) →
  Inherited.getSession id (store srv) = Inherited.Undefined →
  let out :=
    ChunkManager.outputPathOf (ChunkManager.recordingsDir (chunks srv)) id
      (chunkType body) in
  let r := chunkRoute body srv in
  r.1 = Json (ChunkData id (chunkIndex body) (chunkType body)) ∧
  store r.2 = store srv ∧
  ChunkManager.files (chunks r.2) !! out = Some data.
Proof.
  intros Hid Hne Hfile Hlast Hnone Hdata Hout Hdir [Hmissing Hown]%getSession_undefined
    out r.
  subst r.
  unfold chunkRoute. rewrite Hfile, Hid, (truthy_nonempty _ Hne), Hlast. simpl.
  destruct (single_chunk_tracked_then_merged id
              {| ChunkManager.index := chunkIndex body;
                 ChunkManager.type := chunkType body;
                 ChunkManager.path := file; ChunkManager.size := size |}
              (chunks srv) data Hnone Hdata Hout) as (st' & Hmerge & Hartifact & Hgone).
  cbn [ChunkManager.type ChunkManager.path] in Hmerge, Hartifact, Hgone.
  rewrite Hmerge. fold out.
  destruct (chunkType body); rewrite (updateSession_missing _ _ _ Hmissing); done.
Qed.

Lemma chunkRoute_unknown_session_witness :
  let srv := {| store := Samples.recordedWorld Unparseable ∅;
                chunks := Samples.uploaded; did := [] |} in
  let body :=
    {| chunk_sessionId := Some "session_1"; chunkIndex := 0;
       chunkType := ChunkManager.Video; isLastChunk := true;
       chunk_file := Some ("/rec/session_1/chunk_video_0.webm", 3%Z) |} in
  let r := chunkRoute body srv in
  path_join (ChunkManager.recordingsDir (chunks srv)) "session_1"
    ∈ sessionDirs (store srv) ∧
  Inherited.getSession "session_1" (store srv) = Inherited.Undefined ∧
  r.1 = Json (ChunkData "session_1" 0 ChunkManager.Video) ∧
  store r.2 = store srv.
Proof.
  intros srv body r.
  assert ("session_1" ≠ "") as Hne by discriminate.
  assert ("/rec/session_1/chunk_video_0.webm"
          ≠ ChunkManager.outputPathOf (ChunkManager.recordingsDir (chunks srv))
              "session_1" (chunkType body)) as Hout by discriminate.
  assert (path_join (ChunkManager.recordingsDir (chunks srv)) "session_1"
            ∈ sessionDirs (store srv)) as Hdir by (by vm_compute).
  destruct (chunkRoute_unknown_session body srv "session_1"
              "/rec/session_1/chunk_video_0.webm" 3%Z Samples.payload0
              eq_refl Hne eq_refl eq_refl eq_refl eq_refl Hout Hdir eq_refl)
    as (H1 & H2 & _).
  split_and!; [exact Hdir | reflexivity | exact H1 | exact H2].
Defined.

Lemma eventsRoute_stored id evs srv backups store0 session :
  id ≠ "" →
  storeFile (store srv) = Document store0 →
  obj_get id (sessions store0) = Some session →
  writeFaults (store srv) = [] →
  path_join (recordingsDir (store srv)) id ∈ sessionDirs (store srv) →
  eventsRoute {| events_sessionId := Some id; events_batch := Some evs |} srv backups =
    (Json (EventsData id (length evs)),
     {| store :=
          set_storeFile
            (Document
               {| sessions :=
                    obj_set id
                      (set_events (default [] (events session) ++ evs) session)
                      (sessions store0);
                  lastUpdated := isoNow (clock (store srv)) |}) (store srv);
        chunks := chunks srv; did := did srv |},
     <[path_join (path_join (recordingsDir (store srv)) id) "dom_events.json" :=
         {| backup_sessionId := id; backup_events := evs;
            savedAt := isoNow (clock (store srv)) |}]> backups).
Proof.
  intros Hne Hfile Hget Hok Hdir. unfold eventsRoute.
  cbn [events_sessionId events_batch]. rewrite (truthy_nonempty _ Hne).
  cbn [negb default].
  rewrite (appendEvents_found _ _ _ _ _ Hfile Hget Hok).
  unfold saveEventsFile. cbn [recordingsDir sessionDirs set_storeFile clock].
  by rewrite decide_True.
Qed.

(** X27. Two batches of events posted one after the other for a stored
    session whose directory exists, the writes succeeding: each post is
    answered with the size of its batch; the store ends up holding the
    session's earlier events followed by both batches; the backup file
    [dom_events.json] holds the second batch only - each post overwrites
    the backup with its own batch. *)
Theorem eventsRoute_store_grows_backup_is_overwritten id first second srv backups
    store0 session :
  id ≠ "" →
  storeFile (store srv) = Document store0 →
  obj_get id (sessions store0) = Some session →
  writeFaults (store srv) = [] →
  path_join (recordingsDir (store srv)) id ∈ sessionDirs (store srv) →
  let post evs := {| events_sessionId := Some id; events_batch := Some evs |} in
  let r1 := eventsRoute (post first) srv backups in
  let r2 := eventsRoute (post second) r1.1.2 r1.2 in
  let eventsPath :=
    path_join (path_join (recordingsDir (store srv)) id) "dom_events.json" in
  r1.1.1 = Json (EventsData id (length first)) ∧
  r2.1.1 = Json (EventsData id (length second)) ∧
  (Observations.eventsOf <$> getSession id (store r2.1.2))
    = Some (Observations.eventsOf session ++ first ++ second) ∧
  (backup_events <$> r2.2 !! eventsPath) = Some second.
Proof.
  intros Hne Hfile Hget Hok Hdir post r1 r2 eventsPath. subst r2 r1 post.
  cbv beta.
  rewrite (eventsRoute_stored id first srv backups store0 session) by done.
  cbn [fst snd].
  erewrite eventsRoute_stored;
    [| exact Hne | reflexivity | apply obj_get_set_eq | exact Hok | exact Hdir].
  cbn [fst snd store]. split_and!; [done | done | |].
  - unfold getSession. simpl. rewrite obj_get_set_eq. simpl.
    unfold Observations.eventsOf. simpl. by rewrite (assoc_L (++)).
  - subst eventsPath. simpl. by rewrite lookup_insert_eq.
Qed.

Lemma eventsRoute_store_grows_backup_is_overwritten_witness :
  let w := {| storeFile := Document Samples.storeStopped;
              sessionDirs := {["/rec/session_1"]}; undeletable := ∅;
              writeFaults := [];
              clock := {| dateNow := 9000; isoNow := "t1" |};
              recordingsDir := "/rec" |} in
  let srv := {| store := w; chunks := Samples.uploaded; did := [] |} in
  let post evs := {| events_sessionId := Some "session_1"; events_batch := Some evs |} in
  let r1 := eventsRoute (post [JStr "a"; JStr "b"]) srv ∅ in
  let r2 := eventsRoute (post [JStr "c"]) r1.1.2 r1.2 in
  "session_1" ≠ "" ∧
  path_join (recordingsDir w) "session_1" ∈ sessionDirs w ∧
  (Observations.eventsOf <$> getSession "session_1" (store r2.1.2))
    = Some [JStr "click"; JStr "a"; JStr "b"; JStr "c"] ∧
  (backup_events <$> r2.2 !! "/rec/session_1/dom_events.json") = Some [JStr "c"].
Proof.
  intros w srv post r1 r2.
  assert ("session_1" ≠ "") as Hne by discriminate.
  assert (path_join (recordingsDir w) "session_1" ∈ sessionDirs w) as Hdir
    by (vm_compute; reflexivity).
  destruct (eventsRoute_store_grows_backup_is_overwritten "session_1"
              [JStr "a"; JStr "b"] [JStr "c"] srv ∅ Samples.storeStopped
              Samples.stopped1 Hne eq_refl eq_refl eq_refl Hdir)
    as (_ & _ & H1 & H2).
  split_and!; [exact Hne | exact Hdir | exact H1 | exact H2].
Defined.

(** X28. Events posted for a session under whose id the lookup of the
    store finds nothing - no record, and no member inherited from
    [Object.prototype] - are answered with 500, not 404, and leave
    everything as it was: the store, the chunk manager and the backups -
    no backup file is written. *)
Theorem eventsRoute_unknown_session id evs srv backups :
  id ≠ "" →
  Inherited.getSession id (store srv) = Inherited.Undefined →
  eventsRoute {| events_sessionId := Some id; events_batch := Some evs |} srv backups
    = (Fail 500 "Failed to save events", srv, backups).
Proof.
  intros Hne [Hnone Hown]%getSession_undefined. unfold eventsRoute.
  cbn [events_sessionId events_batch]. rewrite (truthy_nonempty _ Hne).
  cbn [negb]. change (default "" (Some id)) with id.
  unfold appendEvents. unfold getSession in Hnone. rewrite Hnone. by destruct srv.
Qed.

Lemma eventsRoute_unknown_session_witness :
  let srv := {| store := Samples.worldOf (Document Samples.store1) [];
                chunks := Samples.uploaded; did := [] |} in
  "session_9" ≠ "" ∧
  Inherited.getSession "session_9" (store srv) = Inherited.Undefined ∧
  eventsRoute {| events_sessionId := Some "session_9"; events_batch := Some [JStr "a"] |}
    srv ∅ = (Fail 500 "Failed to save events", srv, ∅).
Proof.
  intros srv.
  assert ("session_9" ≠ "") as Hne by discriminate.
  split_and!; [exact Hne | reflexivity |].
  exact (eventsRoute_unknown_session "session_9" [JStr "a"] srv ∅ Hne eq_refl).
Defined.

End RoutesFacts.
